(** * ACI 318 beam strength calculator: [src/utils/beamCalculations.ts]

    A shallow embedding of the calculation module.  A TypeScript [number] is
    an IEEE 754 binary64 value, which is what Rocq's primitive [float] is:
    [+], [-], [*], [/] and [sqrt] round to nearest, ties to even, and the
    comparisons answer [false] as soon as one side is not a number.  Decimal
    literals are read to the closest binary64 value, as the source's are.

    Closed evaluations run on the primitive operations.  Statements about
    every input go through [FloatAxioms] to the operations of [SpecFloat],
    and bounds are proved on the rational values of the numbers. *)

From Stdlib Require Import Floats ZArith QArith Qpower Bool List Lia Lqa String.
Import ListNotations.

#[local] Set Warnings "-inexact-float".
#[local] Open Scope float_scope.

(** ** JavaScript numbers *)

Module JS.

Definition number := float.

(** The four relational operators of the source. *)
Definition le (x y : number) : bool := x <=? y.
Definition ge (x y : number) : bool := y <=? x.
Definition lt (x y : number) : bool := x <? y.
Definition gt (x y : number) : bool := y <? x.

(** [Math.sqrt]. *)
Definition Math_sqrt (x : number) : number := sqrt x.

(** [Math.max] on two arguments: not-a-number as soon as one argument is,
    otherwise the larger one, with [+0] above [-0]. *)
Definition Math_max (x y : number) : number :=
  if is_nan x || is_nan y then nan
  else if x <? y then y
  else if y <? x then x
  else if get_sign x then y else x.

(** [ToBoolean] on a number: [0], [-0] and not-a-number are falsy. *)
Definition truthy (x : number) : bool := negb (is_zero x || is_nan x).

(** [v || dflt] where [v] is a number or [undefined]. *)
Definition or_default (v : option number) (dflt : number) : number :=
  match v with
  | Some x => if truthy x then x else dflt
  | None => dflt
  end.

End JS.

Abbreviation number := JS.number.

(** ** The two interfaces *)

Module BeamInput.
Record t : Type := mk {
  b : number;
  h : number;
  d : number;
  fc : number;
  fy : number;
  As : number;
  numBars : number
}.
End BeamInput.

Module BeamResults.
Record t : Type := mk {
  rho : number;
  rhoMin : number;
  rhoMax : number;
  rhoBalanced : number;
  a : number;
  c : number;
  Mn : number;
  phiMn : number;
  phi : number;
  isUnderReinforced : bool;
  meetsMinSteel : bool;
  isValid : bool;
  epsilonT : number;
  epsilonC : number
}.
End BeamResults.

(** ** Constants *)

Definition BETA1_FC_4000 : number := 0.85.
Definition BETA1_FC_8000 : number := 0.65.
Definition EPSILON_C_MAX : number := 0.003.
Definition EPSILON_Y_MIN : number := 0.005.

(** ** The calculation functions *)

Definition calculateBeta1 (fc : number) : number :=
  if JS.le fc 4000 then BETA1_FC_4000
  else if JS.ge fc 8000 then BETA1_FC_8000
  else BETA1_FC_4000 - ((fc - 4000) / 4000) * (BETA1_FC_4000 - BETA1_FC_8000).

Definition calculateRhoMin (fc fy : number) : number :=
  let rhoMin1 := (3 * JS.Math_sqrt fc) / fy in
  let rhoMin2 := 200 / fy in
  JS.Math_max rhoMin1 rhoMin2.

Definition calculateRhoBalanced (fc fy : number) : number :=
  let beta1 := calculateBeta1 fc in
  let epsilonY := fy / 29000000 in
  (0.85 * fc * beta1 / fy) * (EPSILON_C_MAX / (EPSILON_C_MAX + epsilonY)).

Definition calculateRhoMax (fc fy : number) : number :=
  0.75 * calculateRhoBalanced fc fy.

Definition calculatePhi (epsilonT : number) : number :=
  if JS.ge epsilonT EPSILON_Y_MIN then 0.9
  else if JS.le epsilonT 0.002 then 0.65
  else 0.65 + (epsilonT - 0.002) / (EPSILON_Y_MIN - 0.002) * (0.9 - 0.65).

(** Every step is arithmetic or a comparison on numbers, which never throw:
    the function is total, and a division by zero shows in the value. *)
Definition calculateBeamStrength (input : BeamInput.t) : BeamResults.t :=
  let b := BeamInput.b input in
  let h := BeamInput.h input in
  let d := BeamInput.d input in
  let fc := BeamInput.fc input in
  let fy := BeamInput.fy input in
  let As := BeamInput.As input in
  let rho := As / (b * d) in
  let rhoMin := calculateRhoMin fc fy in
  let rhoBalanced := calculateRhoBalanced fc fy in
  let rhoMax := calculateRhoMax fc fy in
  let a := (As * fy) / (0.85 * fc * b) in
  let beta1 := calculateBeta1 fc in
  let c := a / beta1 in
  let epsilonC := EPSILON_C_MAX in
  let epsilonT := epsilonC * (d - c) / c in
  let phi := calculatePhi epsilonT in
  let MnInchKips := As * fy * (d - a / 2) in
  let Mn := MnInchKips / 12 in
  let phiMn := phi * Mn in
  let isUnderReinforced := JS.le rho rhoMax in
  let meetsMinSteel := JS.ge rho rhoMin in
  let isValid := isUnderReinforced && meetsMinSteel && JS.lt d h && JS.gt As 0 in
  {| BeamResults.rho := rho;
     BeamResults.rhoMin := rhoMin;
     BeamResults.rhoMax := rhoMax;
     BeamResults.rhoBalanced := rhoBalanced;
     BeamResults.a := a;
     BeamResults.c := c;
     BeamResults.Mn := Mn;
     BeamResults.phiMn := phiMn;
     BeamResults.phi := phi;
     BeamResults.isUnderReinforced := isUnderReinforced;
     BeamResults.meetsMinSteel := meetsMinSteel;
     BeamResults.isValid := isValid;
     BeamResults.epsilonT := epsilonT;
     BeamResults.epsilonC := epsilonC |}.

(** ** The bar catalog *)

(** The object literal of [getBarArea], in source order.  A property key is
    the decimal string of the number used as index, and a binary64 value
    prints as the string of one of these integers exactly when it is equal
    to it, so a key is found by numeric equality ([NaN] finds nothing). *)
Definition barAreas : list (number * number) :=
  [ (3, 0.11); (4, 0.20); (5, 0.31); (6, 0.44); (7, 0.60); (8, 0.79);
    (9, 1.00); (10, 1.27); (11, 1.56); (14, 2.25); (18, 4.00) ].

Fixpoint lookup (key : number) (o : list (number * number)) : option number :=
  match o with
  | [] => None
  | (k, v) :: o' => if key =? k then Some v else lookup key o'
  end.

Definition getBarArea (barSize : number) : number :=
  JS.or_default (lookup barSize barAreas) 0.

Definition getAvailableBarSizes : list number :=
  [3; 4; 5; 6; 7; 8; 9; 10; 11; 14; 18].

(** ** The application around the calculation module

    [App.tsx] keeps the form values in its state and hands them, with the
    steel area of the chosen bars, to [calculateBeamStrength]; the three
    components edit the state, print the result and draw the section. *)

(** *** [App.tsx] *)

Module AppInputs.
Record t : Type := mk {
  b : number;
  h : number;
  d : number;
  fc : number;
  fy : number;
  barSize : number;
  numBars : number
}.
End AppInputs.

Module App.

(** The initial state of [useState]. *)
Definition initialInputs : AppInputs.t :=
  {| AppInputs.b := 12; AppInputs.h := 24; AppInputs.d := 21.5;
     AppInputs.fc := 4000; AppInputs.fy := 60000;
     AppInputs.barSize := 8; AppInputs.numBars := 4 |}.

(** The body of [useMemo]: [{ ...inputs, As }] read as a [BeamInput]. *)
Definition results (inputs : AppInputs.t) : BeamResults.t :=
  let As := getBarArea (AppInputs.barSize inputs) * AppInputs.numBars inputs in
  calculateBeamStrength
    {| BeamInput.b := AppInputs.b inputs;
       BeamInput.h := AppInputs.h inputs;
       BeamInput.d := AppInputs.d inputs;
       BeamInput.fc := AppInputs.fc inputs;
       BeamInput.fy := AppInputs.fy inputs;
       BeamInput.As := As;
       BeamInput.numBars := AppInputs.numBars inputs |}.

End App.

(** *** [components/InputForm.tsx] *)

Module InputForm.

#[local] Open Scope string_scope.

(** [{ ...values, [field]: value }]: the named field is replaced; another
    name adds a property that no reader of the state looks at. *)
Definition handleChange (values : AppInputs.t) (field : string) (value : number)
  : AppInputs.t :=
  let '(AppInputs.mk b h d fc fy barSize numBars) := values in
  if String.eqb field "b" then AppInputs.mk value h d fc fy barSize numBars
  else if String.eqb field "h" then AppInputs.mk b value d fc fy barSize numBars
  else if String.eqb field "d" then AppInputs.mk b h value fc fy barSize numBars
  else if String.eqb field "fc" then AppInputs.mk b h d value fy barSize numBars
  else if String.eqb field "fy" then AppInputs.mk b h d fc value barSize numBars
  else if String.eqb field "barSize" then AppInputs.mk b h d fc fy value numBars
  else if String.eqb field "numBars" then AppInputs.mk b h d fc fy barSize value
  else values.

(** The seven [onChange] handlers.  [parseFloat] and [parseInt] are taken by
    their result on the text of the field, which can be any number,
    not-a-number included. *)
Inductive event : Type :=
| ChangeB (parsed : number)
| ChangeH (parsed : number)
| ChangeD (parsed : number)
| ChangeFc (parsed : number)
| ChangeFy (parsed : number)
| ChangeBarSize (parsed : number)
| ChangeNumBars (parsed : number).

Definition onChange (values : AppInputs.t) (e : event) : AppInputs.t :=
  match e with
  | ChangeB v => handleChange values "b" (JS.or_default (Some v) 0)
  | ChangeH v => handleChange values "h" (JS.or_default (Some v) 0)
  | ChangeD v => handleChange values "d" (JS.or_default (Some v) 0)
  | ChangeFc v => handleChange values "fc" (JS.or_default (Some v) 0)
  | ChangeFy v => handleChange values "fy" (JS.or_default (Some v) 0)
  | ChangeBarSize v => handleChange values "barSize" v
  | ChangeNumBars v => handleChange values "numBars" (JS.or_default (Some v) 1)
  end.

(** [totalAs], shown under the reinforcement fields. *)
Definition totalAs (values : AppInputs.t) : number :=
  getBarArea (AppInputs.barSize values) * AppInputs.numBars values.

End InputForm.

(** The states the form can bring the application to. *)
Definition run (es : list InputForm.event) : AppInputs.t :=
  fold_left InputForm.onChange es App.initialInputs.

(** *** [components/ResultsDisplay.tsx] *)

Module ResultsDisplay.

#[local] Open Scope string_scope.

Definition controlLabel (phi : number) : string :=
  if JS.ge phi 0.9 then "Tension-controlled"
  else if JS.le phi 0.65 then "Compression-controlled"
  else "Transition zone".

Definition ratioIndicator (rho rhoMin rhoMax : number) : string :=
  if JS.ge rho rhoMin && JS.le rho rhoMax then "valid" else "invalid".

Definition rangeLeft (rhoMin rhoMax : number) : number :=
  (rhoMin / rhoMax) * 100.

Definition rangeWidth (rhoMin rhoMax : number) : number :=
  ((rhoMax - rhoMin) / rhoMax) * 100.

Definition indicatorLeft (rho rhoMax : number) : number :=
  (rho / rhoMax) * 100.

End ResultsDisplay.

(** *** [components/BeamVisualization.tsx] *)

Module BeamVisualization.

Definition scale (b h : number) : number := 200 / JS.Math_max h b.
Definition scaledHeight (b h : number) : number := h * scale b h.
Definition scaledWidth (b h : number) : number := b * scale b h.
Definition scaledD (b h d : number) : number := d * scale b h.
Definition scaledA (b h a : number) : number := a * scale b h.

Definition barRadius : number := 4.

Definition spacing (b h numBars : number) : number :=
  if JS.gt numBars 1 then (scaledWidth b h - 40) / (numBars - 1) else 0.

(** The abscissa of bar [i]. *)
Definition barX (b h numBars i : number) : number :=
  if numBars =? 1 then 50 + scaledWidth b h / 2
  else 50 + 20 + i * spacing b h numBars.

End BeamVisualization.

(** *** Statements about the application *)

(** What every state of the form satisfies. *)
Definition form_ok (v : AppInputs.t) : Prop :=
  is_nan (AppInputs.b v) = false /\ is_nan (AppInputs.h v) = false /\
  is_nan (AppInputs.d v) = false /\ is_nan (AppInputs.fc v) = false /\
  is_nan (AppInputs.fy v) = false /\
  is_nan (AppInputs.numBars v) = false /\ is_zero (AppInputs.numBars v) = false.

(** A position on a track, in percent. *)
Definition percent (x : number) : bool := JS.le 0 x && JS.le x 100.

(** ** Definitions used in the statements *)

(** *** Beta1Resolver *)

(** The interpolation as the specification writes it, with the literal
    [0.20] for the difference of the two end values. *)
Definition beta1_interpolation_spec (fc : number) : number :=
  0.85 - ((fc - 4000) / 4000) * 0.20.

(** The interpolation as the source evaluates it. *)
Definition beta1_interpolation (fc : number) : number :=
  0.85 - ((fc - 4000) / 4000) * (0.85 - 0.65).

(** C3 as the claim states it, at one concrete strength. *)
Definition C3_claim (fc : number) : Prop :=
  (JS.le fc 4000 = true -> calculateBeta1 fc = 0.85) /\
  (JS.ge fc 8000 = true -> calculateBeta1 fc = 0.65) /\
  (JS.lt 4000 fc = true -> JS.lt fc 8000 = true ->
   calculateBeta1 fc = beta1_interpolation_spec fc).

(** *** Scenario 1 *)

Definition scenario1 : BeamInput.t :=
  {| BeamInput.b := 12; BeamInput.h := 24; BeamInput.d := 21.5;
     BeamInput.fc := 4000; BeamInput.fy := 60000; BeamInput.As := 3.16;
     BeamInput.numBars := 4 |}.

(** [x] is [target] to two decimals. *)
Definition approx2 (x target : number) : bool :=
  abs (x - target) <=? 0.005.

(** What C6 expects of a result. *)
Definition scenario1_expected (r : BeamResults.t) : bool :=
  approx2 (BeamResults.a r) 3.10
  && (BeamResults.phi r =? 0.90)
  && (280 <=? BeamResults.phiMn r) && (BeamResults.phiMn r <=? 300)
  && BeamResults.isValid r.

(** *** Degenerate inputs *)

(** The default form values with the concrete strength field cleared. *)
Definition no_concrete : BeamInput.t :=
  {| BeamInput.b := 12; BeamInput.h := 24; BeamInput.d := 21.5;
     BeamInput.fc := 0; BeamInput.fy := 60000; BeamInput.As := 3.16;
     BeamInput.numBars := 4 |}.

(** No steel, and a width and a depth whose product underflows. *)
Definition no_steel_tiny : BeamInput.t :=
  {| BeamInput.b := 1e-200; BeamInput.h := 24; BeamInput.d := 1e-200;
     BeamInput.fc := 4000; BeamInput.fy := 60000; BeamInput.As := 0;
     BeamInput.numBars := 4 |}.

(** No steel in the default section. *)
Definition no_steel : BeamInput.t :=
  {| BeamInput.b := 12; BeamInput.h := 24; BeamInput.d := 21.5;
     BeamInput.fc := 4000; BeamInput.fy := 60000; BeamInput.As := 0;
     BeamInput.numBars := 0 |}.

(** Zero of either sign, or not a number. *)
Definition zero_or_nan (x : number) : bool := is_zero x || is_nan x.

(** C10 as the claim states it, at one input. *)
Definition C10_claim (input : BeamInput.t) : Prop :=
  is_zero (BeamInput.As input) = true ->
  JS.gt (BeamInput.b input) 0 = true -> JS.gt (BeamInput.d input) 0 = true ->
  JS.gt (BeamInput.fc input) 0 = true -> JS.gt (BeamInput.fy input) 0 = true ->
  let r := calculateBeamStrength input in
  is_zero (BeamResults.rho r) = true /\ is_zero (BeamResults.a r) = true /\
  is_zero (BeamResults.Mn r) = true /\ is_zero (BeamResults.phiMn r) = true /\
  BeamResults.isValid r = false.

(** *** BarAreaTable *)

Fixpoint strictly_ascending (l : list number) : bool :=
  match l with
  | x :: (y :: _) as l' => (x <? y) && strictly_ascending l'
  | _ => true
  end.

(** ** Binary64 values on the specification side

    [Prim2SF] maps a primitive float to its sign, mantissa and exponent;
    the axioms of [FloatAxioms] say that each primitive operation is the
    operation of [SpecFloat] on these. *)

Definition SFis_nan (x : spec_float) : bool :=
  match x with S754_nan => true | _ => false end.

Definition SFis_zero (x : spec_float) : bool :=
  match x with S754_zero _ => true | _ => false end.

Definition SFis_infinity (x : spec_float) : bool :=
  match x with S754_infinity _ => true | _ => false end.

(** The rational [m * 2^e]. *)
Definition F2Q (m e : Z) : Q := (inject_Z m * 2 ^ e)%Q.

(** Zero or positive and finite. *)
Definition SFnn (x : spec_float) : bool :=
  match x with
  | S754_zero _ | S754_finite false _ _ => true
  | _ => false
  end.

(** The rational value of a finite number ([0] for the others). *)
Definition SF2Q (x : spec_float) : Q :=
  match x with
  | S754_finite s m e => if s then (- F2Q (Zpos m) e)%Q else F2Q (Zpos m) e
  | _ => 0%Q
  end.

(** Bounds that are themselves binary64 values, zero or positive. *)
Definition nonneg_valid (x : spec_float) : Prop :=
  SFnn x = true /\ valid_binary x = true.

(** The same on primitive numbers. *)
Definition Qval (x : number) : Q := SF2Q (Prim2SF x).
Definition nnf (x : number) : bool := SFnn (Prim2SF x).

Arguments Qval x%_float.
Arguments nnf x%_float.

(** A shift record that has lost no bit. *)
Definition rec_exact (mrs : shr_record) : bool :=
  negb (shr_r mrs) && negb (shr_s mrs).

(** What the rounding of a non-negative value yields: the value
    [mr * 2^e1], or an overflow when that is [2^1024] or more. *)
Definition rounded (r : spec_float) (mr e1 : Z) : Prop :=
  match r with
  | S754_zero false => mr = 0%Z
  | S754_finite false m2 e2 =>
      (e1 <= e2 /\ e2 <= 971 /\ mr = Zpos m2 * 2 ^ (e2 - e1))%Z
  | S754_infinity false => (F2Q 1 1024 <= F2Q mr e1)%Q
  | _ => False
  end.

(** *** More steel, and the place of a value between two neighbours *)

(** Positive and finite. *)
Definition pos_finite (x : number) : bool := JS.gt x 0 && is_finite x.

(** The same section with another steel area. *)
Definition with_As (input : BeamInput.t) (As : number) : BeamInput.t :=
  {| BeamInput.b := BeamInput.b input;
     BeamInput.h := BeamInput.h input;
     BeamInput.d := BeamInput.d input;
     BeamInput.fc := BeamInput.fc input;
     BeamInput.fy := BeamInput.fy input;
     BeamInput.As := As;
     BeamInput.numBars := BeamInput.numBars input |}.

(** The place of the rational [N / D] on the grid of half units: twice the
    integer part of [2 N / D], and one more when something is left. *)
Definition half_code (N D : Z) : Z :=
  (2 * (2 * N / D) + (if (2 * N) mod D =? 0 then 0 else 1))%Z.

(** The same place as a shift record holds it: the mantissa, the round bit
    and the sticky bit. *)
Definition rec_code (mrs : shr_record) : Z :=
  (4 * shr_m mrs + 2 * Z.b2z (shr_r mrs) + Z.b2z (shr_s mrs))%Z.

(** The mantissa a shift record rounds to. *)
Definition rec_round (mrs : shr_record) : Z :=
  round_nearest_even (shr_m mrs) (loc_of_shr_record mrs).

(** ** The order of binary64 values

    The comparisons of the source are decided on the specification of the
    primitive operations ([SFcompare]); the facts below hold for every
    value, not-a-number included. *)

Section Order.

#[local] Open Scope Z_scope.

Ltac cmp_cases :=
  repeat match goal with
  | H : context [Pos.compare_cont Eq ?p ?q] |- _ =>
      change (Pos.compare_cont Eq p q) with (Pos.compare p q) in H
  | |- context [Pos.compare_cont Eq ?p ?q] =>
      change (Pos.compare_cont Eq p q) with (Pos.compare p q)
  | H : context [Z.compare ?p ?q] |- _ => destruct (Z.compare_spec p q)
  | |- context [Z.compare ?p ?q] => destruct (Z.compare_spec p q)
  | H : context [Pos.compare ?p ?q] |- _ => destruct (Pos.compare_spec p q)
  | |- context [Pos.compare ?p ?q] => destruct (Pos.compare_spec p q)
  end;
  simpl in *; try discriminate; try reflexivity; try lia.

Lemma SFcompare_antisym (x y : spec_float) :
  SFcompare y x = option_map CompOpp (SFcompare x y).
Proof.
  destruct x as [[]|[]| |[] mx ex], y as [[]|[]| |[] my ey];
    simpl; try reflexivity; cmp_cases.
Qed.

Lemma SFltb_SFleb_false (x y : spec_float) :
  SFltb x y = true -> SFleb y x = false.
Proof.
  unfold SFltb, SFleb. rewrite (SFcompare_antisym x y).
  destruct (SFcompare x y) as [[]|]; simpl; congruence.
Qed.

Lemma SFleb_trans (x y z : spec_float) :
  SFleb x y = true -> SFleb y z = true -> SFleb x z = true.
Proof.
  unfold SFleb.
  destruct x as [[]|[]| |[] mx ex], y as [[]|[]| |[] my ey],
           z as [[]|[]| |[] mz ez];
    simpl; try reflexivity; try discriminate; intros Hxy Hyz; cmp_cases.
Qed.

Lemma SFltb_SFleb_trans (x y z : spec_float) :
  SFltb x y = true -> SFleb y z = true -> SFltb x z = true.
Proof.
  unfold SFleb, SFltb.
  destruct x as [[]|[]| |[] mx ex], y as [[]|[]| |[] my ey],
           z as [[]|[]| |[] mz ez];
    simpl; try reflexivity; try discriminate; intros Hxy Hyz; cmp_cases.
Qed.

Lemma SFleb_SFltb_trans (x y z : spec_float) :
  SFleb x y = true -> SFltb y z = true -> SFltb x z = true.
Proof.
  unfold SFleb, SFltb.
  destruct x as [[]|[]| |[] mx ex], y as [[]|[]| |[] my ey],
           z as [[]|[]| |[] mz ez];
    simpl; try reflexivity; try discriminate; intros Hxy Hyz; cmp_cases.
Qed.

Lemma SFeqb_finite_eq (x : spec_float) (s : bool) (m : positive) (e : Z) :
  SFeqb x (S754_finite s m e) = true -> x = S754_finite s m e.
Proof.
  unfold SFeqb.
  destruct x as [[]|[]| |[] mx ex], s; simpl; try discriminate;
    intros H; cmp_cases; subst; reflexivity.
Qed.

End Order.

(** The same facts on the primitive comparisons. *)

Lemma ltb_leb_false (x y : number) : (x <? y) = true -> (y <=? x) = false.
Proof. rewrite FloatAxioms.ltb_spec, FloatAxioms.leb_spec. apply SFltb_SFleb_false. Qed.

Lemma leb_trans (x y z : number) :
  (x <=? y) = true -> (y <=? z) = true -> (x <=? z) = true.
Proof. rewrite !FloatAxioms.leb_spec. apply SFleb_trans. Qed.

Lemma ltb_leb_trans (x y z : number) :
  (x <? y) = true -> (y <=? z) = true -> (x <? z) = true.
Proof. rewrite !FloatAxioms.ltb_spec, FloatAxioms.leb_spec. apply SFltb_SFleb_trans. Qed.

Lemma leb_ltb_trans (x y z : number) :
  (x <=? y) = true -> (y <? z) = true -> (x <? z) = true.
Proof. rewrite !FloatAxioms.ltb_spec, FloatAxioms.leb_spec. apply SFleb_SFltb_trans. Qed.

(** A value below a bound is not above a larger bound. *)
Lemma leb_below_not_above (x lo hi : number) :
  (lo <? hi) = true -> (x <=? lo) = true -> (hi <=? x) = false.
Proof.
  intros Hlh Hx. apply ltb_leb_false. eapply leb_ltb_trans; eassumption.
Qed.

Lemma leb_above_not_below (x lo hi : number) :
  (lo <? hi) = true -> (hi <=? x) = true -> (x <=? lo) = false.
Proof.
  intros Hlh Hx. apply ltb_leb_false. eapply ltb_leb_trans; eassumption.
Qed.

(** Numeric equality with a finite non-zero value is identity. *)
Lemma eqb_finite_eq (x k : number) (s : bool) (m : positive) (e : Z) :
  Prim2SF k = S754_finite s m e -> (x =? k) = true -> x = k.
Proof.
  intros Hk H. rewrite FloatAxioms.eqb_spec, Hk in H.
  apply SFeqb_finite_eq in H. apply Prim2SF_inj. congruence.
Qed.

(** ** Classes of values on the specification side *)

Lemma is_nan_spec (x : number) : is_nan x = SFis_nan (Prim2SF x).
Proof.
  unfold is_nan. rewrite FloatAxioms.eqb_spec. unfold SFeqb.
  destruct (Prim2SF x) as [[]|[]| |[] m e]; simpl; try reflexivity;
    rewrite Z.compare_refl, Pos.compare_cont_refl; reflexivity.
Qed.

Lemma is_zero_spec (x : number) : is_zero x = SFis_zero (Prim2SF x).
Proof.
  unfold is_zero. rewrite FloatAxioms.eqb_spec.
  change (Prim2SF zero) with (S754_zero false).
  destruct (Prim2SF x) as [[]|[]| |[] m e]; reflexivity.
Qed.

Lemma is_infinity_spec (x : number) :
  is_infinity x = SFis_infinity (Prim2SF x).
Proof.
  unfold is_infinity. rewrite FloatAxioms.eqb_spec, abs_spec.
  change (Prim2SF infinity) with (S754_infinity false).
  destruct (Prim2SF x) as [[]|[]| |[] m e]; reflexivity.
Qed.

Lemma is_finite_spec (x : number) :
  is_finite x = negb (SFis_nan (Prim2SF x) || SFis_infinity (Prim2SF x)).
Proof. unfold is_finite. rewrite is_nan_spec, is_infinity_spec. reflexivity. Qed.

(** ** Arithmetic on a zero divisor or factor *)

Lemma zero_or_nan_mul_l (x y : number) :
  zero_or_nan x = true -> zero_or_nan (x * y) = true.
Proof.
  unfold zero_or_nan. rewrite !is_zero_spec, !is_nan_spec, mul_spec.
  destruct (Prim2SF x) as [[]|[]| |[] mx ex],
           (Prim2SF y) as [[]|[]| |[] my ey]; simpl; congruence.
Qed.

Lemma zero_or_nan_mul_r (x y : number) :
  zero_or_nan y = true -> zero_or_nan (x * y) = true.
Proof.
  unfold zero_or_nan. rewrite !is_zero_spec, !is_nan_spec, mul_spec.
  destruct (Prim2SF x) as [[]|[]| |[] mx ex],
           (Prim2SF y) as [[]|[]| |[] my ey]; simpl; congruence.
Qed.

Lemma div_zero_or_nan_not_finite (x y : number) :
  zero_or_nan y = true -> is_finite (x / y) = false.
Proof.
  unfold zero_or_nan. rewrite is_finite_spec, is_zero_spec, is_nan_spec, div_spec.
  destruct (Prim2SF x) as [[]|[]| |[] mx ex],
           (Prim2SF y) as [[]|[]| |[] my ey]; simpl; congruence.
Qed.

Lemma is_zero_zero_or_nan (x : number) :
  is_zero x = true -> zero_or_nan x = true.
Proof. unfold zero_or_nan. intros ->. reflexivity. Qed.

(** ** [Math.max] is the maximum of two numbers *)

Lemma Math_max_nan (x y : number) :
  is_nan x || is_nan y = true -> JS.Math_max x y = nan.
Proof. unfold JS.Math_max. intros ->. reflexivity. Qed.

Lemma Math_max_is_max (x y : number) :
  is_nan x = false -> is_nan y = false ->
  (JS.Math_max x y = x \/ JS.Math_max x y = y) /\
  JS.le x (JS.Math_max x y) = true /\ JS.le y (JS.Math_max x y) = true.
Proof.
  intros Hx Hy. unfold JS.Math_max, JS.le. rewrite Hx, Hy. simpl.
  rewrite is_nan_spec in Hx, Hy.
  destruct (x <? y) eqn:Hxy; [|destruct (y <? x) eqn:Hyx].
  - split; [now right|]. rewrite !FloatAxioms.leb_spec.
    rewrite FloatAxioms.ltb_spec in Hxy. revert Hxy Hy.
    unfold SFltb, SFleb.
    destruct (SFcompare (Prim2SF x) (Prim2SF y)) as [[]|] eqn:Hc; try discriminate.
    intros _ Hy. split; [reflexivity|].
    destruct (Prim2SF y) as [[]|[]| |[] my ey]; simpl in *; try discriminate;
      rewrite ?Z.compare_refl, ?Pos.compare_cont_refl; reflexivity.
  - split; [now left|]. rewrite !FloatAxioms.leb_spec.
    rewrite FloatAxioms.ltb_spec in Hyx. revert Hyx Hx.
    unfold SFltb, SFleb.
    destruct (SFcompare (Prim2SF y) (Prim2SF x)) as [[]|] eqn:Hc; try discriminate.
    intros _ Hx. split; [|reflexivity].
    destruct (Prim2SF x) as [[]|[]| |[] mx ex]; simpl in *; try discriminate;
      rewrite ?Z.compare_refl, ?Pos.compare_cont_refl; reflexivity.
  - rewrite FloatAxioms.ltb_spec in Hxy, Hyx.
    assert (Hc : SFcompare (Prim2SF x) (Prim2SF y) = Some Eq).
    { revert Hxy Hyx. unfold SFltb. rewrite (SFcompare_antisym (Prim2SF x) (Prim2SF y)).
      destruct (SFcompare (Prim2SF x) (Prim2SF y)) as [[]|] eqn:Hc;
        simpl; try discriminate; try reflexivity.
      destruct (Prim2SF x) as [[]|[]| |[] mx ex],
               (Prim2SF y) as [[]|[]| |[] my ey]; simpl in *; discriminate. }
    assert (Hc' : SFcompare (Prim2SF y) (Prim2SF x) = Some Eq)
      by (rewrite SFcompare_antisym, Hc; reflexivity).
    assert (Hxx : SFcompare (Prim2SF x) (Prim2SF x) = Some Eq).
    { destruct (Prim2SF x) as [[]|[]| |[] mx ex]; simpl in *; try discriminate;
        rewrite ?Z.compare_refl, ?Pos.compare_cont_refl; reflexivity. }
    assert (Hyy : SFcompare (Prim2SF y) (Prim2SF y) = Some Eq).
    { destruct (Prim2SF y) as [[]|[]| |[] my ey]; simpl in *; try discriminate;
        rewrite ?Z.compare_refl, ?Pos.compare_cont_refl; reflexivity. }
    destruct (get_sign x); (split; [tauto|]);
      rewrite !FloatAxioms.leb_spec; unfold SFleb;
      rewrite ?Hc, ?Hc', ?Hxx, ?Hyy; split; reflexivity.
Qed.

(** ** Rounding to nearest, bracketed

    [binary_round_aux] truncates a mantissa to the precision of its
    magnitude and rounds; whatever the direction, the result stays between
    any two binary64 values that bracket the exact value.  This is all that
    the bounds on [calculatePhi] and [calculateBeta1] need. *)

Section Rounding.

#[local] Open Scope Z_scope.

(** *** Dyadic rationals *)

Lemma Qpow2_pos (e : Z) : (0 < 2 ^ e)%Q.
Proof. apply Qpower_0_lt. reflexivity. Qed.

Lemma F2Q_shift (m e k : Z) : 0 <= k -> (F2Q (m * 2 ^ k) e == F2Q m (e + k))%Q.
Proof.
  intros Hk. unfold F2Q.
  rewrite inject_Z_mult, Zpower_Qpower by assumption.
  rewrite Qpower_plus by discriminate. change (inject_Z 2) with 2%Q. ring.
Qed.

Lemma F2Q_le (m1 m2 e : Z) : (F2Q m1 e <= F2Q m2 e)%Q <-> m1 <= m2.
Proof.
  unfold F2Q. rewrite Qmult_le_r by apply Qpow2_pos. rewrite <- Zle_Qle. reflexivity.
Qed.

Lemma F2Q_lt (m1 m2 e : Z) : (F2Q m1 e < F2Q m2 e)%Q <-> m1 < m2.
Proof.
  unfold F2Q. rewrite Qmult_lt_r by apply Qpow2_pos. rewrite <- Zlt_Qlt. reflexivity.
Qed.

Lemma F2Q_le_align (m1 e1 m2 e2 : Z) :
  e1 <= e2 -> (F2Q m1 e1 <= F2Q m2 e2)%Q <-> m1 <= m2 * 2 ^ (e2 - e1).
Proof.
  intros H. rewrite <- (F2Q_le m1 _ e1), F2Q_shift by lia.
  replace (e1 + (e2 - e1)) with e2 by lia. reflexivity.
Qed.

Lemma F2Q_lt_align (m1 e1 m2 e2 : Z) :
  e1 <= e2 -> (F2Q m1 e1 < F2Q m2 e2)%Q <-> m1 < m2 * 2 ^ (e2 - e1).
Proof.
  intros H. rewrite <- (F2Q_lt m1 _ e1), F2Q_shift by lia.
  replace (e1 + (e2 - e1)) with e2 by lia. reflexivity.
Qed.

Lemma F2Q_le_align_l (m1 e1 m2 e2 : Z) :
  e2 <= e1 -> (F2Q m1 e1 <= F2Q m2 e2)%Q <-> m1 * 2 ^ (e1 - e2) <= m2.
Proof.
  intros H. rewrite <- (F2Q_le _ m2 e2), F2Q_shift by lia.
  replace (e2 + (e1 - e2)) with e1 by lia. reflexivity.
Qed.

Lemma F2Q_lt_align_l (m1 e1 m2 e2 : Z) :
  e2 <= e1 -> (F2Q m1 e1 < F2Q m2 e2)%Q <-> m1 * 2 ^ (e1 - e2) < m2.
Proof.
  intros H. rewrite <- (F2Q_lt _ m2 e2), F2Q_shift by lia.
  replace (e2 + (e1 - e2)) with e1 by lia. reflexivity.
Qed.

(** *** The number of binary digits of a mantissa *)
Lemma digits2_pos_bounds (p : positive) :
  2 ^ (Zpos (digits2_pos p) - 1) <= Zpos p < 2 ^ Zpos (digits2_pos p).
Proof.
  induction p as [p IH|p IH|]; cbn [digits2_pos].
  - rewrite Pos2Z.inj_succ. change (Zpos p~1) with (2 * Zpos p + 1).
    replace (Z.succ (Zpos (digits2_pos p)) - 1) with (Z.succ (Zpos (digits2_pos p) - 1)) by lia.
    rewrite !Z.pow_succ_r by lia.
    generalize dependent (2 ^ (Zpos (digits2_pos p) - 1)).
    generalize dependent (2 ^ Zpos (digits2_pos p)). lia.
  - rewrite Pos2Z.inj_succ. change (Zpos p~0) with (2 * Zpos p).
    replace (Z.succ (Zpos (digits2_pos p)) - 1) with (Z.succ (Zpos (digits2_pos p) - 1)) by lia.
    rewrite !Z.pow_succ_r by lia.
    generalize dependent (2 ^ (Zpos (digits2_pos p) - 1)).
    generalize dependent (2 ^ Zpos (digits2_pos p)). lia.
  - simpl. lia.
Qed.

Lemma Zdigits2_bounds (m : Z) :
  0 < m -> 0 < Zdigits2 m /\ 2 ^ (Zdigits2 m - 1) <= m < 2 ^ Zdigits2 m.
Proof.
  destruct m as [|p|p]; try lia. intros _. simpl. split; [lia|].
  apply digits2_pos_bounds.
Qed.

Lemma Zdigits2_unique (m d : Z) :
  2 ^ (d - 1) <= m < 2 ^ d -> 0 < m -> Zdigits2 m = d.
Proof.
  intros H Hm. destruct (Zdigits2_bounds m Hm) as [Hd Hb].
  assert (0 < d).
  { destruct (Z.le_gt_cases d 0) as [Hle|]; [|assumption].
    assert (2 ^ d <= 2 ^ 0) by (apply Z.pow_le_mono_r; lia). simpl in *. lia. }
  destruct (Z.lt_trichotomy (Zdigits2 m) d) as [Hlt|[Heq|Hgt]]; [|assumption|].
  - assert (2 ^ Zdigits2 m <= 2 ^ (d - 1)) by (apply Z.pow_le_mono_r; lia). lia.
  - assert (2 ^ d <= 2 ^ (Zdigits2 m - 1)) by (apply Z.pow_le_mono_r; lia). lia.
Qed.

Lemma Zdigits2_nonneg (m : Z) : 0 <= Zdigits2 m.
Proof. destruct m; simpl; lia. Qed.

Lemma fexp_eq (e : Z) : fexp prec emax e = Z.max (e - 53) (-1074).
Proof. reflexivity. Qed.

Lemma fexp_mono (e e' : Z) : e <= e' -> fexp prec emax e <= fexp prec emax e'.
Proof. rewrite !fexp_eq. lia. Qed.

(** *** Shifting a mantissa right, one bit at a time *)
Lemma loc_of_shr_record_exact (mrs : shr_record) :
  rec_exact mrs = true -> loc_of_shr_record mrs = loc_Exact.
Proof.
  destruct mrs as [m [] []]; unfold rec_exact; simpl; intros H;
    try discriminate H; reflexivity.
Qed.

Lemma shr_1_spec (mrs : shr_record) :
  0 <= shr_m mrs ->
  shr_m (shr_1 mrs) = shr_m mrs / 2 /\
  (rec_exact mrs = true -> shr_m mrs = 2 * (shr_m mrs / 2) ->
   rec_exact (shr_1 mrs) = true).
Proof.
  destruct mrs as [m r s]. simpl.
  rewrite <- Z.div2_div.
  destruct m as [|[p|p|]|p]; simpl; intros Hm; try lia; (split; [reflexivity|]);
    unfold rec_exact; simpl; destruct r, s; simpl; intros Hex H;
    try discriminate Hex; try lia; reflexivity.
Qed.

Lemma exact_div_split (m a b : Z) :
  0 < a -> 0 < b -> m = (m / (a * b)) * (a * b) ->
  m = (m / a) * a /\ m / a = (m / a / b) * b.
Proof.
  intros Ha Hb H. set (q := m / (a * b)) in *.
  assert (Hq : m / a = q * b).
  { rewrite H. replace (q * (a * b)) with (q * b * a) by ring.
    apply Z.div_mul. lia. }
  rewrite Hq. split; [rewrite H at 1; ring|].
  rewrite Z.div_mul by lia. reflexivity.
Qed.

Lemma iter_pos_shr_1_spec (p : positive) (mrs : shr_record) :
  0 <= shr_m mrs ->
  shr_m (SpecFloat.iter_pos shr_1 p mrs) = shr_m mrs / 2 ^ Zpos p /\
  (rec_exact mrs = true ->
   shr_m mrs = (shr_m mrs / 2 ^ Zpos p) * 2 ^ Zpos p ->
   rec_exact (SpecFloat.iter_pos shr_1 p mrs) = true).
Proof.
  revert mrs. induction p as [p IH|p IH|]; intros mrs Hm; cbn [SpecFloat.iter_pos].
  - assert (Hpow : 2 ^ Zpos p~1 = 2 * (2 ^ Zpos p * 2 ^ Zpos p)).
    { replace (Zpos p~1) with (1 + (Zpos p + Zpos p)) by lia.
      rewrite !Z.pow_add_r by lia. reflexivity. }
    assert (Hp : 0 < 2 ^ Zpos p) by (apply Z.pow_pos_nonneg; lia).
    destruct (shr_1_spec mrs Hm) as [H1 E1].
    assert (Hm1 : 0 <= shr_m (shr_1 mrs)) by (rewrite H1; apply Z.div_pos; lia).
    destruct (IH _ Hm1) as [H2 E2].
    assert (Hm2 : 0 <= shr_m (SpecFloat.iter_pos shr_1 p (shr_1 mrs)))
      by (rewrite H2; apply Z.div_pos; lia).
    destruct (IH _ Hm2) as [H3 E3].
    rewrite H3, H2, H1, Hpow, !Z.div_div by lia.
    split; [reflexivity|].
    intros Hex Hdiv.
    apply exact_div_split in Hdiv; [|lia|lia]. destruct Hdiv as [Hd1 Hd2].
    apply exact_div_split in Hd2; [|lia|lia]. destruct Hd2 as [Hd2 Hd3].
    apply E3; [apply E2; [apply E1|]|].
    + assumption.
    + lia.
    + rewrite H1. exact Hd2.
    + rewrite H2, H1. exact Hd3.
  - assert (Hpow : 2 ^ Zpos p~0 = 2 ^ Zpos p * 2 ^ Zpos p).
    { replace (Zpos p~0) with (Zpos p + Zpos p) by lia.
      rewrite !Z.pow_add_r by lia. reflexivity. }
    assert (Hp : 0 < 2 ^ Zpos p) by (apply Z.pow_pos_nonneg; lia).
    destruct (IH _ Hm) as [H2 E2].
    assert (Hm2 : 0 <= shr_m (SpecFloat.iter_pos shr_1 p mrs))
      by (rewrite H2; apply Z.div_pos; lia).
    destruct (IH _ Hm2) as [H3 E3].
    rewrite H3, H2, Hpow, !Z.div_div by lia.
    split; [reflexivity|].
    intros Hex Hdiv.
    apply exact_div_split in Hdiv; [|lia|lia]. destruct Hdiv as [Hd1 Hd2].
    apply E3; [apply E2|]; try assumption.
    rewrite H2. exact Hd2.
  - change (2 ^ 1) with 2. destruct (shr_1_spec mrs Hm) as [H1 E1].
    split; [assumption|]. intros Hex Hdiv. apply E1; [assumption|lia].
Qed.

Lemma shr_record_of_loc_m (m : Z) (l : location) :
  shr_m (shr_record_of_loc m l) = m.
Proof. destruct l as [|[]]; reflexivity. Qed.

Lemma shr_record_of_loc_exact (m : Z) :
  rec_exact (shr_record_of_loc m loc_Exact) = true.
Proof. reflexivity. Qed.

Lemma shr_spec (mrs : shr_record) (e n : Z) :
  0 <= shr_m mrs ->
  snd (shr mrs e n) = e + Z.max n 0 /\
  shr_m (fst (shr mrs e n)) = shr_m mrs / 2 ^ Z.max n 0 /\
  (rec_exact mrs = true ->
   shr_m mrs = (shr_m mrs / 2 ^ Z.max n 0) * 2 ^ Z.max n 0 ->
   rec_exact (fst (shr mrs e n)) = true).
Proof.
  intros Hm. destruct n as [|p|p]; simpl.
  - rewrite Z.add_0_r, Z.div_1_r. auto.
  - destruct (iter_pos_shr_1_spec p mrs Hm) as [H1 H2]. auto.
  - rewrite Z.add_0_r, Z.div_1_r. auto.
Qed.

Lemma round_nearest_even_cases (m : Z) (l : location) :
  round_nearest_even m l = m \/
  (round_nearest_even m l = m + 1 /\ l <> loc_Exact).
Proof.
  destruct l as [|[]]; simpl; auto.
  - destruct (Z.even m); [auto|right; split; [reflexivity|discriminate]].
  - right. split; [reflexivity|discriminate].
Qed.

Lemma pow2_pos (k : Z) : 0 <= k -> 0 < 2 ^ k.
Proof. intros. apply Z.pow_pos_nonneg; lia. Qed.

Lemma pow2_ge_1 (k : Z) : 0 <= k -> 1 <= 2 ^ k.
Proof. intros. pose proof (pow2_pos k). lia. Qed.

Lemma F2Q_overflow (mr e1 j : Z) :
  0 <= j -> 2 ^ j <= mr -> 1024 <= j + e1 -> (F2Q 1 1024 <= F2Q mr e1)%Q.
Proof.
  intros Hj Hmr He.
  apply Qle_trans with (F2Q (1 * 2 ^ j) e1).
  - rewrite F2Q_shift by assumption. apply F2Q_le_align; [lia|].
    pose proof (pow2_ge_1 (e1 + j - 1024)). lia.
  - apply F2Q_le. lia.
Qed.

(** *** Truncation, then rounding

    Digits of the truncated and of the rounded mantissa: the second shift
    of [binary_round_aux] is by one bit at most, and exact. *)
Lemma round_digits (mx ex mr : Z) :
  0 <= mx ->
  let e1 := fexp prec emax (Zdigits2 mx + ex) in
  let m1 := mx / 2 ^ (e1 - ex) in
  ex <= e1 -> mr = m1 \/ mr = m1 + 1 ->
  let n2 := fexp prec emax (Zdigits2 mr + e1) - e1 in
  (n2 <= 0 \/ (n2 = 1 /\ mr = 2 * (mr / 2))) /\
  (971 < e1 + Z.max n2 0 -> (F2Q 1 1024 <= F2Q mr e1)%Q).
Proof.
  intros Hmx e1 m1 Hk Hmr n2.
  assert (He1 : e1 = Z.max (Zdigits2 mx + ex - 53) (-1074)) by apply fexp_eq.
  assert (Hn2 : n2 = Z.max (Zdigits2 mr + e1 - 53) (-1074) - e1)
    by (unfold n2; rewrite fexp_eq; reflexivity).
  clearbody n2 e1.
  assert (Hsmall : m1 = 0 -> e1 = -1074 ->
            (n2 <= 0 \/ (n2 = 1 /\ mr = 2 * (mr / 2))) /\
            (971 < e1 + Z.max n2 0 -> (F2Q 1 1024 <= F2Q mr e1)%Q)).
  { intros Hm1 He.
    assert (Hd : 0 <= Zdigits2 mr <= 1).
    { destruct Hmr as [->| ->]; rewrite Hm1; simpl; lia. }
    split; [left; lia|lia]. }
  destruct (Z.eq_dec mx 0) as [Hz|Hnz].
  { apply Hsmall.
    - unfold m1. rewrite Hz. apply Z.div_0_l.
      pose proof (pow2_pos (e1 - ex)). lia.
    - rewrite Hz in He1. simpl in He1. lia. }
  assert (Hpos : 0 < mx) by lia.
  destruct (Zdigits2_bounds mx Hpos) as [Hd [Hlo Hhi]].
  set (d := Zdigits2 mx) in *. clearbody d.
  set (k := e1 - ex) in *.
  assert (Hk0 : 0 <= k) by (unfold k; lia).
  pose proof (pow2_pos k Hk0) as Hpk.
  destruct (Z.le_gt_cases d k) as [Hdk|Hdk].
  { apply Hsmall; [|lia].
    unfold m1. apply Z.div_small. split; [lia|].
    eapply Z.lt_le_trans; [exact Hhi|]. apply Z.pow_le_mono_r; lia. }
  assert (Hm1lo : 2 ^ (d - 1 - k) <= m1).
  { apply Z.div_le_lower_bound; [assumption|].
    rewrite <- Z.pow_add_r by lia.
    replace (k + (d - 1 - k)) with (d - 1) by lia. exact Hlo. }
  assert (Hm1hi : m1 < 2 ^ (d - k)).
  { apply Z.div_lt_upper_bound; [assumption|].
    rewrite <- Z.pow_add_r by lia.
    replace (k + (d - k)) with d by lia. exact Hhi. }
  pose proof (pow2_pos (d - 1 - k)) as Hp1.
  assert (Hsucc : 2 ^ (d - k) = 2 * 2 ^ (d - 1 - k)).
  { replace (d - k) with (Z.succ (d - 1 - k)) by lia.
    apply Z.pow_succ_r. lia. }
  assert (Hcase : Zdigits2 mr = d - k \/
                  (Zdigits2 mr = d - k + 1 /\ mr = 2 ^ (d - k))).
  { destruct (Z.eq_dec mr (2 ^ (d - k))) as [Heq|Hne].
    - right. split; [|assumption]. apply Zdigits2_unique; [|lia].
      replace (d - k + 1 - 1) with (d - k) by lia.
      replace (d - k + 1) with (Z.succ (d - k)) by lia.
      rewrite Z.pow_succ_r by lia. lia.
    - left. apply Zdigits2_unique; [|lia].
      replace (d - k - 1) with (d - 1 - k) by lia. lia. }
  destruct Hcase as [Hdr|[Hdr Hpw]].
  - split; [left; lia|].
    intros Hov. apply (F2Q_overflow mr e1 52); lia || idtac.
    replace 52 with (d - 1 - k) by lia. lia.
  - split.
    + destruct (Z.le_gt_cases n2 0) as [Hn|Hn]; [left; assumption|right].
      split; [lia|].
      rewrite Hpw, Hsucc, Z.mul_comm, Z.div_mul by lia. ring.
    + intros Hov. apply (F2Q_overflow mr e1 (d - k)); lia.
Qed.

(** The rounding of the mantissa [mx] at exponent [ex], with what lies
    below it recorded in [lx]: the mantissa is cut down to [m1] at the
    exponent [e1] of its magnitude, and the result is worth [m1 * 2^e1] or
    one unit more; it is [m1 * 2^e1] when nothing was cut off. *)
Lemma binary_round_aux_rounded (mx ex : Z) (lx : location) :
  0 <= mx -> ex <= fexp prec emax (Zdigits2 mx + ex) ->
  let e1 := fexp prec emax (Zdigits2 mx + ex) in
  let m1 := mx / 2 ^ (e1 - ex) in
  exists mr,
    (mr = m1 \/
     (mr = m1 + 1 /\ ~ (lx = loc_Exact /\ mx = m1 * 2 ^ (e1 - ex)))) /\
    rounded (binary_round_aux prec emax false mx ex lx) mr e1.
Proof.
  intros Hmx Hex e1 m1.
  unfold binary_round_aux.
  assert (Hshr : shr_fexp prec emax mx ex lx
                 = shr (shr_record_of_loc mx lx) ex (e1 - ex)) by reflexivity.
  rewrite Hshr.
  assert (Hm0 : 0 <= shr_m (shr_record_of_loc mx lx))
    by (rewrite shr_record_of_loc_m; assumption).
  destruct (shr_spec (shr_record_of_loc mx lx) ex (e1 - ex) Hm0)
    as (Hs1 & Hs2 & Hs3).
  destruct (shr (shr_record_of_loc mx lx) ex (e1 - ex)) as [mrs' e'].
  simpl in Hs1, Hs2, Hs3.
  rewrite shr_record_of_loc_m in Hs2, Hs3.
  replace (Z.max (e1 - ex) 0) with (e1 - ex) in * by lia.
  assert (He' : e' = e1) by lia. clear Hs1. subst e'.
  fold m1 in Hs2, Hs3. cbv beta iota.
  set (mr := round_nearest_even (shr_m mrs') (loc_of_shr_record mrs')).
  assert (Hm1 : 0 <= m1) by (apply Z.div_pos; [assumption|apply pow2_pos; lia]).
  assert (Hmr : mr = m1 \/
                (mr = m1 + 1 /\ ~ (lx = loc_Exact /\ mx = m1 * 2 ^ (e1 - ex)))).
  { unfold mr.
    destruct (round_nearest_even_cases (shr_m mrs') (loc_of_shr_record mrs'))
      as [H|[H Hl]]; rewrite H, Hs2; [left; reflexivity|right].
    split; [reflexivity|]. intros [Hlx Hdiv]. apply Hl.
    apply loc_of_shr_record_exact, Hs3; [|exact Hdiv].
    rewrite Hlx. reflexivity. }
  exists mr. split; [exact Hmr|].
  assert (Hmr' : mr = m1 \/ mr = m1 + 1) by tauto.
  destruct (round_digits mx ex mr Hmx Hex Hmr') as [Hn2 Hov].
  fold e1 in Hn2, Hov.
  set (n2 := fexp prec emax (Zdigits2 mr + e1) - e1) in *.
  assert (Hshr2 : shr_fexp prec emax mr e1 loc_Exact
                  = shr (shr_record_of_loc mr loc_Exact) e1 n2) by reflexivity.
  rewrite Hshr2.
  assert (Hmr0 : 0 <= shr_m (shr_record_of_loc mr loc_Exact)) by (simpl; lia).
  destruct (shr_spec (shr_record_of_loc mr loc_Exact) e1 n2 Hmr0)
    as (Ht1 & Ht2 & _).
  destruct (shr (shr_record_of_loc mr loc_Exact) e1 n2) as [mrs'' e''].
  simpl in Ht1, Ht2. cbv beta iota.
  assert (Hexact : mr = shr_m mrs'' * 2 ^ (e'' - e1)).
  { rewrite Ht1, Ht2. replace (e1 + Z.max n2 0 - e1) with (Z.max n2 0) by lia.
    destruct Hn2 as [Hn|[Hn Hev]].
    - replace (Z.max n2 0) with 0 by lia. rewrite Z.div_1_r. simpl. lia.
    - replace (Z.max n2 0) with 1 by lia. change (2 ^ 1) with 2. lia. }
  assert (Hpow : 0 < 2 ^ (e'' - e1)) by (apply pow2_pos; lia).
  destruct (shr_m mrs'') as [|m2|m2] eqn:Hm2.
  - unfold rounded. lia.
  - destruct (Z.leb_spec e'' (emax - prec)) as [Hle|Hgt]; unfold rounded.
    + change (emax - prec) with 971 in Hle.
      split; [lia|]. split; [lia|exact Hexact].
    + apply Hov. change (emax - prec) with 971 in Hgt. lia.
  - exfalso. assert (0 <= mr) by lia. nia.
Qed.

(** *** Brackets

    Magnitudes of dyadic rationals, and of canonical mantissas. *)

Lemma F2Q_0 (e : Z) : (F2Q 0 e == 0)%Q.
Proof. unfold F2Q. change (inject_Z 0) with 0%Q. ring. Qed.

Lemma F2Q_pos (m e : Z) : 0 < m -> (0 < F2Q m e)%Q.
Proof.
  intros H. rewrite <- (F2Q_0 e). apply F2Q_lt. assumption.
Qed.

Lemma F2Q_pow_le (a b : Z) : a <= b -> (F2Q 1 a <= F2Q 1 b)%Q.
Proof.
  intros H. apply F2Q_le_align; [assumption|].
  pose proof (pow2_ge_1 (b - a)). lia.
Qed.

Lemma F2Q_lt_pow (m e : Z) : 0 < m -> (F2Q m e < F2Q 1 (Zdigits2 m + e))%Q.
Proof.
  intros H. destruct (Zdigits2_bounds m H) as (Hd & _ & Hhi).
  apply F2Q_lt_align; lia || idtac.
  replace (Zdigits2 m + e - e) with (Zdigits2 m) by lia. lia.
Qed.

Lemma F2Q_ge_pow (m e : Z) : 0 < m -> (F2Q 1 (Zdigits2 m + e - 1) <= F2Q m e)%Q.
Proof.
  intros H. destruct (Zdigits2_bounds m H) as (Hd & Hlo & _).
  apply F2Q_le_align_l; lia || idtac.
  replace (Zdigits2 m + e - 1 - e) with (Zdigits2 m - 1) by lia. lia.
Qed.

Lemma bounded_canonical (m : positive) (e : Z) :
  bounded prec emax m e = true ->
  e = fexp prec emax (Zdigits2 (Zpos m) + e) /\ e <= 971.
Proof.
  unfold bounded, canonical_mantissa. intros H.
  apply andb_true_iff in H. destruct H as [H1 H2].
  apply Z.eqb_eq in H1. apply Z.leb_le in H2.
  change (emax - prec) with 971 in H2. simpl. split; [symmetry; exact H1|exact H2].
Qed.

Lemma bounded_lt_overflow (m : positive) (e : Z) :
  bounded prec emax m e = true -> (F2Q (Zpos m) e < F2Q 1 1024)%Q.
Proof.
  intros H. destruct (bounded_canonical m e H) as [Hc He].
  rewrite fexp_eq in Hc.
  eapply Qlt_le_trans; [apply F2Q_lt_pow; lia|].
  apply F2Q_pow_le. lia.
Qed.

Lemma rounded_SF2Q (r : spec_float) (mr e1 : Z) :
  rounded r mr e1 -> SFnn r = true -> (SF2Q r == F2Q mr e1)%Q.
Proof.
  destruct r as [[]|[]| |[] m2 e2]; cbn [rounded SFnn SF2Q];
    try discriminate; try tauto.
  - intros -> _. symmetry. apply F2Q_0.
  - intros (H1 & H2 & ->) _. rewrite F2Q_shift by lia.
    replace (e1 + (e2 - e1)) with e2 by lia. reflexivity.
Qed.

(** A binary64 value above the exact value is above the rounded one, and
    the rounding does not overflow. *)
Lemma round_upper (mx ex : Z) (lx : location) (mh : positive) (eh : Z) :
  0 <= mx -> ex <= fexp prec emax (Zdigits2 mx + ex) ->
  bounded prec emax mh eh = true ->
  (F2Q mx ex <= F2Q (Zpos mh) eh)%Q ->
  (lx <> loc_Exact -> (F2Q mx ex < F2Q (Zpos mh) eh)%Q) ->
  let r := binary_round_aux prec emax false mx ex lx in
  SFnn r = true /\ (SF2Q r <= F2Q (Zpos mh) eh)%Q.
Proof.
  intros Hmx Hex Hb Hle Hlt r.
  destruct (binary_round_aux_rounded mx ex lx Hmx Hex) as (mr & Hmr & Hr).
  fold r in Hr.
  set (e1 := fexp prec emax (Zdigits2 mx + ex)) in *.
  set (m1 := mx / 2 ^ (e1 - ex)) in *.
  destruct (bounded_canonical mh eh Hb) as [Hc Heh].
  assert (He : e1 <= eh).
  { destruct (Z.eq_dec mx 0) as [Hz|Hnz].
    - assert (He1 : e1 = Z.max (Zdigits2 mx + ex - 53) (-1074)) by apply fexp_eq.
      rewrite Hz in He1. simpl in He1. rewrite fexp_eq in Hc.
      fold e1 in Hex. lia.
    - destruct (Z.le_gt_cases (Zdigits2 mx + ex) (Zdigits2 (Zpos mh) + eh))
        as [Hmag|Hmag].
      + rewrite Hc. apply fexp_mono. assumption.
      + exfalso. apply (Qlt_irrefl (F2Q (Zpos mh) eh)).
        eapply Qlt_le_trans; [apply F2Q_lt_pow; lia|].
        eapply Qle_trans; [|exact Hle].
        eapply Qle_trans; [|apply F2Q_ge_pow; lia].
        apply F2Q_pow_le. lia. }
  set (k := e1 - ex) in *.
  assert (Hk : 0 <= k) by (unfold k; lia).
  pose proof (pow2_pos k Hk) as Hpk.
  set (H := Zpos mh * 2 ^ (eh - e1)).
  assert (HH : (F2Q (Zpos mh) eh == F2Q H e1)%Q).
  { unfold H. rewrite F2Q_shift by lia.
    replace (e1 + (eh - e1)) with eh by lia. reflexivity. }
  assert (Hsplit : Zpos mh * 2 ^ (eh - ex) = H * 2 ^ k).
  { unfold H, k. rewrite <- Z.mul_assoc, <- Z.pow_add_r by lia.
    replace (eh - e1 + (e1 - ex)) with (eh - ex) by lia. reflexivity. }
  assert (Hle' : mx <= H * 2 ^ k).
  { rewrite <- Hsplit. apply F2Q_le_align; [lia|exact Hle]. }
  assert (Hm1 : m1 <= H).
  { apply Z.div_le_upper_bound; [assumption|]. lia. }
  assert (Hmr' : mr <= H).
  { destruct Hmr as [->|[-> Hn]]; [assumption|].
    destruct (Z.eq_dec m1 H) as [Heq|Hne]; [|lia].
    exfalso.
    assert (Hdm : m1 * 2 ^ k <= mx)
      by (rewrite Z.mul_comm; apply Z.mul_div_le; assumption).
    assert (Hmx' : mx = m1 * 2 ^ k) by (rewrite Heq in *; lia).
    destruct lx as [|c]; [apply Hn; split; [reflexivity|exact Hmx']|].
    assert (Hs : (F2Q mx ex < F2Q (Zpos mh) eh)%Q) by (apply Hlt; discriminate).
    apply F2Q_lt_align in Hs; [|lia]. rewrite Hsplit in Hs. lia. }
  assert (Hval : (F2Q mr e1 <= F2Q (Zpos mh) eh)%Q).
  { rewrite HH. apply F2Q_le. assumption. }
  assert (Hnn : SFnn r = true).
  { destruct r as [[]|[]| |[] m2 e2]; cbn [rounded SFnn] in *; try tauto.
    exfalso. apply (Qlt_irrefl (F2Q 1 1024)).
    eapply Qle_lt_trans; [exact Hr|].
    eapply Qle_lt_trans; [exact Hval|]. apply bounded_lt_overflow. assumption. }
  split; [exact Hnn|]. rewrite (rounded_SF2Q r mr e1 Hr Hnn). exact Hval.
Qed.

(** A binary64 value below the truncated mantissa is below the rounded
    value, unless the rounding overflows. *)
Lemma round_lower (mx ex : Z) (lx : location) (ml : positive) (el : Z) :
  0 <= mx -> ex <= fexp prec emax (Zdigits2 mx + ex) ->
  bounded prec emax ml el = true ->
  (F2Q (Zpos ml) el <= F2Q mx ex)%Q ->
  let r := binary_round_aux prec emax false mx ex lx in
  r = S754_infinity false \/
  (SFnn r = true /\ (F2Q (Zpos ml) el <= SF2Q r)%Q).
Proof.
  intros Hmx Hex Hb Hle r.
  destruct (binary_round_aux_rounded mx ex lx Hmx Hex) as (mr & Hmr & Hr).
  fold r in Hr.
  set (e1 := fexp prec emax (Zdigits2 mx + ex)) in *.
  set (m1 := mx / 2 ^ (e1 - ex)) in *.
  destruct (bounded_canonical ml el Hb) as [Hc Hel].
  assert (Hpos : 0 < mx).
  { destruct (Z.eq_dec mx 0) as [Hz|Hnz]; [|lia]. exfalso.
    apply (Qlt_irrefl 0). eapply Qlt_le_trans; [apply (F2Q_pos (Zpos ml) el); lia|].
    rewrite Hz, F2Q_0 in Hle. exact Hle. }
  set (k := e1 - ex) in *.
  assert (Hk : 0 <= k) by (unfold k; lia).
  pose proof (pow2_pos k Hk) as Hpk.
  assert (Hval1 : (F2Q (Zpos ml) el <= F2Q m1 e1)%Q).
  { destruct (Z.le_gt_cases e1 el) as [Hee|Hee].
    - set (L := Zpos ml * 2 ^ (el - e1)).
      assert (HL : (F2Q (Zpos ml) el == F2Q L e1)%Q).
      { unfold L. rewrite F2Q_shift by lia.
        replace (e1 + (el - e1)) with el by lia. reflexivity. }
      assert (Hsplit : Zpos ml * 2 ^ (el - ex) = 2 ^ k * L).
      { unfold L, k. rewrite (Z.mul_comm (2 ^ (e1 - ex))), <- Z.mul_assoc.
        rewrite <- Z.pow_add_r by lia.
        replace (el - e1 + (e1 - ex)) with (el - ex) by lia. reflexivity. }
      rewrite HL. apply F2Q_le. apply Z.div_le_lower_bound; [assumption|].
      rewrite <- Hsplit. apply F2Q_le_align_l; [lia|exact Hle].
    - assert (He1 : e1 = Z.max (Zdigits2 mx + ex - 53) (-1074)) by apply fexp_eq.
      rewrite fexp_eq in Hc.
      destruct (Zdigits2_bounds mx Hpos) as (Hd & Hlo & _).
      assert (H52 : 2 ^ 52 <= m1).
      { apply Z.div_le_lower_bound; [assumption|].
        rewrite <- Z.pow_add_r by lia.
        replace (k + 52) with (Zdigits2 mx - 1) by (unfold k; lia). exact Hlo. }
      apply Qlt_le_weak.
      eapply Qlt_le_trans; [apply F2Q_lt_pow; lia|].
      apply Qle_trans with (F2Q (1 * 2 ^ 52) e1).
      + rewrite F2Q_shift by lia. apply F2Q_pow_le. lia.
      + apply F2Q_le. lia. }
  assert (Hm1mr : m1 <= mr) by (destruct Hmr as [->|[-> _]]; lia).
  assert (Hval : (F2Q (Zpos ml) el <= F2Q mr e1)%Q).
  { eapply Qle_trans; [exact Hval1|]. apply F2Q_le. assumption. }
  destruct (SFnn r) eqn:Hnn.
  - right. split; [reflexivity|].
    rewrite (rounded_SF2Q r mr e1 Hr Hnn). exact Hval.
  - left. destruct r as [[]|[]| |[] m2 e2]; cbn [rounded SFnn] in *;
      try tauto; discriminate.
Qed.

(** *** The four operations on non-negative finite values *)

Lemma F2Q_mul (a e b f : Z) : (F2Q (a * b) (e + f) == F2Q a e * F2Q b f)%Q.
Proof.
  unfold F2Q. rewrite inject_Z_mult, Qpower_plus by discriminate. ring.
Qed.

Lemma F2Q_add (a b e : Z) : (F2Q (a + b) e == F2Q a e + F2Q b e)%Q.
Proof. unfold F2Q. rewrite inject_Z_plus. ring. Qed.

Lemma F2Q_sub (a b e : Z) : (F2Q (a - b) e == F2Q a e - F2Q b e)%Q.
Proof.
  unfold F2Q, Z.sub. rewrite inject_Z_plus, inject_Z_opp. ring.
Qed.

Lemma Zdigits2_shift (m j : Z) :
  0 < m -> 0 <= j -> Zdigits2 (m * 2 ^ j) = Zdigits2 m + j.
Proof.
  intros Hm Hj. destruct (Zdigits2_bounds m Hm) as (Hd & Hlo & Hhi).
  pose proof (pow2_pos j Hj) as Hp.
  apply Zdigits2_unique; [|nia].
  replace (Zdigits2 m + j - 1) with (Zdigits2 m - 1 + j) by lia.
  rewrite !Z.pow_add_r by lia. nia.
Qed.

Lemma iter_xO_spec (m d : positive) :
  Zpos (Pos.iter xO m d) = Zpos m * 2 ^ Zpos d.
Proof.
  induction d as [|d IH] using Pos.peano_ind.
  - simpl. lia.
  - rewrite Pos.iter_succ, Pos2Z.inj_succ, Z.pow_succ_r by lia.
    change (Zpos (Pos.iter xO m d)~0) with (2 * Zpos (Pos.iter xO m d)).
    rewrite IH. ring.
Qed.

Lemma shl_align_spec (m : positive) (e e' : Z) :
  let r := shl_align m e e' in
  snd r = Z.min e e' /\ Zpos (fst r) = Zpos m * 2 ^ (e - snd r).
Proof.
  unfold shl_align. destruct (e' - e) as [|d|d] eqn:Hd; simpl.
  - split; [lia|]. rewrite Z.sub_diag. simpl. lia.
  - split; [lia|]. rewrite Z.sub_diag. simpl. lia.
  - split; [lia|]. rewrite iter_xO_spec.
    replace (e - e') with (Zpos d) by lia. reflexivity.
Qed.

(** [binary_round] on a positive integer mantissa. *)
Lemma binary_round_pre (m : positive) (e : Z) :
  exists (mz : positive) (ez : Z),
    binary_round prec emax false m e
    = binary_round_aux prec emax false (Zpos mz) ez loc_Exact /\
    ez <= fexp prec emax (Zdigits2 (Zpos mz) + ez) /\
    (F2Q (Zpos mz) ez == F2Q (Zpos m) e)%Q.
Proof.
  unfold binary_round.
  set (t := fexp prec emax (Zpos (digits2_pos m) + e)).
  destruct (shl_align_spec m e t) as [H1 H2].
  destruct (shl_align m e t) as [mz ez]. cbn [fst snd] in H1, H2.
  exists mz, ez. split; [reflexivity|].
  assert (Hez : ez <= e) by lia.
  split.
  - rewrite H2, Zdigits2_shift by lia.
    change (Zdigits2 (Zpos m)) with (Zpos (digits2_pos m)).
    replace (Zpos (digits2_pos m) + (e - ez) + ez) with (Zpos (digits2_pos m) + e)
      by lia.
    fold t. lia.
  - rewrite H2, F2Q_shift by lia.
    replace (ez + (e - ez)) with e by lia. reflexivity.
Qed.

Lemma binary_round_upper (m : positive) (e : Z) (mh : positive) (eh : Z) :
  bounded prec emax mh eh = true ->
  (F2Q (Zpos m) e <= F2Q (Zpos mh) eh)%Q ->
  let r := binary_round prec emax false m e in
  SFnn r = true /\ (SF2Q r <= F2Q (Zpos mh) eh)%Q.
Proof.
  intros Hb Hle. destruct (binary_round_pre m e) as (mz & ez & -> & Hpre & Hv).
  apply round_upper; try assumption; try lia.
  - rewrite Hv. exact Hle.
  - intros H. exfalso. apply H. reflexivity.
Qed.

Lemma binary_round_lower (m : positive) (e : Z) (ml : positive) (el : Z) :
  bounded prec emax ml el = true ->
  (F2Q (Zpos ml) el <= F2Q (Zpos m) e)%Q ->
  let r := binary_round prec emax false m e in
  r = S754_infinity false \/
  (SFnn r = true /\ (F2Q (Zpos ml) el <= SF2Q r)%Q).
Proof.
  intros Hb Hle. destruct (binary_round_pre m e) as (mz & ez & -> & Hpre & Hv).
  apply round_lower; try assumption; try lia.
  rewrite Hv. exact Hle.
Qed.

(** The same brackets with a bound that may be zero. *)

Lemma SFnn_nonneg (x : spec_float) : SFnn x = true -> (0 <= SF2Q x)%Q.
Proof.
  destruct x as [[]|[]| |[] m e]; cbn [SFnn SF2Q]; try discriminate;
    intros _; try apply Qle_refl.
  apply Qlt_le_weak, F2Q_pos. lia.
Qed.

Lemma rounded_cases (r : spec_float) (mr e1 : Z) :
  rounded r mr e1 -> SFnn r = true \/ r = S754_infinity false.
Proof.
  destruct r as [[]|[]| |[] m e]; cbn [rounded SFnn]; tauto.
Qed.

Lemma round_upper_good (mx ex : Z) (lx : location) (hi : spec_float) :
  0 <= mx -> ex <= fexp prec emax (Zdigits2 mx + ex) ->
  nonneg_valid hi ->
  (F2Q mx ex <= SF2Q hi)%Q ->
  (lx <> loc_Exact -> (F2Q mx ex < SF2Q hi)%Q) ->
  let r := binary_round_aux prec emax false mx ex lx in
  SFnn r = true /\ (SF2Q r <= SF2Q hi)%Q.
Proof.
  intros Hmx Hex [Hnn Hv] Hle Hlt r.
  destruct hi as [s|[]| |[] mh eh]; cbn [SFnn] in Hnn; try discriminate.
  - cbn [SF2Q] in *.
    assert (Hz : mx = 0).
    { destruct (Z.eq_dec mx 0) as [|Hnz]; [assumption|exfalso].
      apply (Qlt_irrefl 0). eapply Qlt_le_trans; [|exact Hle].
      apply F2Q_pos. lia. }
    destruct (binary_round_aux_rounded mx ex lx Hmx Hex) as (mr & Hmr & Hr).
    fold r in Hr.
    assert (Hm1 : mx / 2 ^ (fexp prec emax (Zdigits2 mx + ex) - ex) = 0).
    { rewrite Hz in Hex |- *. apply Z.div_0_l.
      pose proof (pow2_pos (fexp prec emax (Zdigits2 0 + ex) - ex)). lia. }
    rewrite Hm1 in Hmr.
    assert (Hmr0 : mr = 0).
    { destruct Hmr as [|[_ Hn]]; [assumption|exfalso]. apply Hn.
      split; [|lia].
      destruct lx as [|c]; [reflexivity|exfalso].
      apply (Qlt_irrefl 0). eapply Qle_lt_trans; [|apply Hlt; discriminate].
      rewrite Hz, F2Q_0. apply Qle_refl. }
    assert (Hsn : SFnn r = true).
    { destruct (rounded_cases r mr _ Hr) as [|Hinf]; [assumption|exfalso].
      rewrite Hinf, Hmr0 in Hr. cbn [rounded] in Hr.
      rewrite F2Q_0 in Hr. apply (Qlt_irrefl 0).
      eapply Qlt_le_trans; [|exact Hr]. apply F2Q_pos. lia. }
    split; [exact Hsn|].
    rewrite (rounded_SF2Q r mr _ Hr Hsn), Hmr0, F2Q_0. apply Qle_refl.
  - apply round_upper; assumption.
Qed.

Lemma round_lower_good (mx ex : Z) (lx : location) (lo : spec_float) :
  0 <= mx -> ex <= fexp prec emax (Zdigits2 mx + ex) ->
  nonneg_valid lo ->
  (SF2Q lo <= F2Q mx ex)%Q ->
  let r := binary_round_aux prec emax false mx ex lx in
  r = S754_infinity false \/
  (SFnn r = true /\ (SF2Q lo <= SF2Q r)%Q).
Proof.
  intros Hmx Hex [Hnn Hv] Hle r.
  destruct lo as [s|[]| |[] ml el]; cbn [SFnn] in Hnn; try discriminate.
  - cbn [SF2Q].
    destruct (binary_round_aux_rounded mx ex lx Hmx Hex) as (mr & Hmr & Hr).
    fold r in Hr.
    destruct (rounded_cases r mr _ Hr) as [Hsn|Hinf]; [right|left; assumption].
    split; [assumption|]. apply SFnn_nonneg. assumption.
  - apply round_lower; assumption.
Qed.

Lemma binary_normalize_upper (M e : Z) (hi : spec_float) :
  0 <= M -> nonneg_valid hi -> (F2Q M e <= SF2Q hi)%Q ->
  let r := binary_normalize prec emax M e false in
  SFnn r = true /\ (SF2Q r <= SF2Q hi)%Q.
Proof.
  intros HM Hhi Hle. destruct M as [|m|m]; [| |lia]; cbn [binary_normalize].
  - split; [reflexivity|]. apply SFnn_nonneg, Hhi.
  - destruct (binary_round_pre m e) as (mz & ez & -> & Hpre & Hv).
    apply round_upper_good; try assumption; try lia.
    + rewrite Hv. exact Hle.
    + intros H. exfalso. apply H. reflexivity.
Qed.

Lemma binary_normalize_lower (M e : Z) (lo : spec_float) :
  0 <= M -> nonneg_valid lo -> (SF2Q lo <= F2Q M e)%Q ->
  let r := binary_normalize prec emax M e false in
  r = S754_infinity false \/ (SFnn r = true /\ (SF2Q lo <= SF2Q r)%Q).
Proof.
  intros HM Hlo Hle. destruct M as [|m|m]; [| |lia]; cbn [binary_normalize].
  - right. split; [reflexivity|]. cbn [SF2Q]. rewrite F2Q_0 in Hle. exact Hle.
  - destruct (binary_round_pre m e) as (mz & ez & -> & Hpre & Hv).
    apply round_lower_good; try assumption; try lia.
    rewrite Hv. exact Hle.
Qed.

(** The exact sum and difference of two positive finite values. *)
Lemma aligned_value (m : positive) (e ez : Z) :
  ez <= e -> (F2Q (Zpos (fst (shl_align m e ez))) ez == F2Q (Zpos m) e)%Q.
Proof.
  intros H. destruct (shl_align_spec m e ez) as [H1 H2].
  rewrite H2, H1. replace (Z.min e ez) with ez by lia.
  rewrite F2Q_shift by lia. replace (ez + (e - ez)) with e by lia. reflexivity.
Qed.

Lemma SFadd_finite (mx : positive) (ex : Z) (my : positive) (ey : Z) :
  exists M, 0 < M /\
    SF64add (S754_finite false mx ex) (S754_finite false my ey)
    = binary_normalize prec emax M (Z.min ex ey) false /\
    (F2Q M (Z.min ex ey) == F2Q (Zpos mx) ex + F2Q (Zpos my) ey)%Q.
Proof.
  eexists. split; [|split; [reflexivity|]].
  - cbn [cond_Zopp]. lia.
  - cbn [cond_Zopp]. rewrite F2Q_add, !aligned_value by lia. reflexivity.
Qed.

Lemma SFsub_finite (mx : positive) (ex : Z) (my : positive) (ey : Z) :
  exists M,
    SF64sub (S754_finite false mx ex) (S754_finite false my ey)
    = binary_normalize prec emax M (Z.min ex ey) false /\
    (F2Q M (Z.min ex ey) == F2Q (Zpos mx) ex - F2Q (Zpos my) ey)%Q.
Proof.
  eexists. split; [reflexivity|].
  cbn [cond_Zopp]. rewrite F2Q_sub, !aligned_value by lia. reflexivity.
Qed.

Lemma F2Q_nonneg_inv (M e : Z) : (0 <= F2Q M e)%Q -> 0 <= M.
Proof. intros H. rewrite <- (F2Q_0 e) in H. apply F2Q_le in H. exact H. Qed.

Lemma SF64add_upper (x y hi : spec_float) :
  nonneg_valid x -> nonneg_valid y -> nonneg_valid hi ->
  (SF2Q x + SF2Q y <= SF2Q hi)%Q ->
  SFnn (SF64add x y) = true /\ (SF2Q (SF64add x y) <= SF2Q hi)%Q.
Proof.
  intros [Hx _] [Hy _] Hhi Hle.
  destruct x as [sx|[]| |[] mx ex]; cbn [SFnn] in Hx; try discriminate;
    destruct y as [sy|[]| |[] my ey]; cbn [SFnn] in Hy; try discriminate.
  - destruct sx, sy; (split; [reflexivity|]); cbn [SF2Q SF64add SFadd];
      apply SFnn_nonneg, Hhi.
  - split; [reflexivity|]. cbn [SF64add SFadd].
    cbn [SF2Q] in Hle |- *. rewrite Qplus_0_l in Hle. exact Hle.
  - split; [reflexivity|]. cbn [SF64add SFadd].
    cbn [SF2Q] in Hle |- *. rewrite Qplus_0_r in Hle. exact Hle.
  - destruct (SFadd_finite mx ex my ey) as (M & HM & -> & Hv).
    apply binary_normalize_upper; [lia|assumption|].
    rewrite Hv. exact Hle.
Qed.

Lemma SF64add_lower (x y lo : spec_float) :
  nonneg_valid x -> nonneg_valid y -> nonneg_valid lo ->
  (SF2Q lo <= SF2Q x + SF2Q y)%Q ->
  SF64add x y = S754_infinity false \/
  (SFnn (SF64add x y) = true /\ (SF2Q lo <= SF2Q (SF64add x y))%Q).
Proof.
  intros [Hx _] [Hy _] Hlo Hle.
  destruct x as [sx|[]| |[] mx ex]; cbn [SFnn] in Hx; try discriminate;
    destruct y as [sy|[]| |[] my ey]; cbn [SFnn] in Hy; try discriminate.
  - right. cbn [SF2Q] in Hle. rewrite Qplus_0_l in Hle.
    destruct sx, sy; (split; [reflexivity|]); exact Hle.
  - right. split; [reflexivity|]. cbn [SF64add SFadd].
    cbn [SF2Q] in Hle |- *. rewrite Qplus_0_l in Hle. exact Hle.
  - right. split; [reflexivity|]. cbn [SF64add SFadd].
    cbn [SF2Q] in Hle |- *. rewrite Qplus_0_r in Hle. exact Hle.
  - destruct (SFadd_finite mx ex my ey) as (M & HM & -> & Hv).
    apply binary_normalize_lower; [lia|assumption|].
    rewrite Hv. exact Hle.
Qed.

Lemma SF64sub_upper (x y hi : spec_float) :
  nonneg_valid x -> nonneg_valid y -> nonneg_valid hi ->
  (SF2Q y <= SF2Q x)%Q ->
  (SF2Q x - SF2Q y <= SF2Q hi)%Q ->
  SFnn (SF64sub x y) = true /\ (SF2Q (SF64sub x y) <= SF2Q hi)%Q.
Proof.
  intros [Hx _] [Hy _] Hhi Hyx Hle.
  destruct x as [sx|[]| |[] mx ex]; cbn [SFnn] in Hx; try discriminate;
    destruct y as [sy|[]| |[] my ey]; cbn [SFnn] in Hy; try discriminate.
  - destruct sx, sy; (split; [reflexivity|]); cbn [SF2Q SF64sub SFsub];
      apply SFnn_nonneg, Hhi.
  - exfalso. cbn [SF2Q] in Hyx. apply (Qlt_irrefl 0).
    eapply Qlt_le_trans; [|exact Hyx]. apply F2Q_pos. lia.
  - split; [reflexivity|]. cbn [SF64sub SFsub].
    cbn [SF2Q] in Hle |- *. unfold Qminus in Hle.
    change (- 0)%Q with 0%Q in Hle. rewrite Qplus_0_r in Hle. exact Hle.
  - destruct (SFsub_finite mx ex my ey) as (M & -> & Hv).
    cbn [SF2Q] in Hyx, Hle.
    apply binary_normalize_upper; [|assumption|rewrite Hv; exact Hle].
    apply (F2Q_nonneg_inv M (Z.min ex ey)). rewrite Hv.
    unfold Qminus. rewrite <- (Qplus_opp_r (F2Q (Zpos my) ey)).
    apply Qplus_le_l. exact Hyx.
Qed.

Lemma SF64sub_lower (x y lo : spec_float) :
  nonneg_valid x -> nonneg_valid y -> nonneg_valid lo ->
  (SF2Q y <= SF2Q x)%Q ->
  (SF2Q lo <= SF2Q x - SF2Q y)%Q ->
  SF64sub x y = S754_infinity false \/
  (SFnn (SF64sub x y) = true /\ (SF2Q lo <= SF2Q (SF64sub x y))%Q).
Proof.
  intros [Hx _] [Hy _] Hlo Hyx Hle.
  destruct x as [sx|[]| |[] mx ex]; cbn [SFnn] in Hx; try discriminate;
    destruct y as [sy|[]| |[] my ey]; cbn [SFnn] in Hy; try discriminate.
  - right. cbn [SF2Q] in Hle. 
    assert (Hl0 : (SF2Q lo <= 0)%Q) by (eapply Qle_trans; [exact Hle|]; discriminate).
    destruct sx, sy; (split; [reflexivity|]); exact Hl0.
  - exfalso. cbn [SF2Q] in Hyx. apply (Qlt_irrefl 0).
    eapply Qlt_le_trans; [|exact Hyx]. apply F2Q_pos. lia.
  - right. split; [reflexivity|]. cbn [SF64sub SFsub].
    cbn [SF2Q] in Hle |- *. unfold Qminus in Hle.
    change (- 0)%Q with 0%Q in Hle. rewrite Qplus_0_r in Hle. exact Hle.
  - destruct (SFsub_finite mx ex my ey) as (M & -> & Hv).
    cbn [SF2Q] in Hyx, Hle.
    apply binary_normalize_lower; [|assumption|rewrite Hv; exact Hle].
    apply (F2Q_nonneg_inv M (Z.min ex ey)). rewrite Hv.
    unfold Qminus. rewrite <- (Qplus_opp_r (F2Q (Zpos my) ey)).
    apply Qplus_le_l. exact Hyx.
Qed.

(** The product of two canonical mantissas has digits to spare. *)

Lemma Zdigits2_mul_ge (a b : Z) :
  0 < a -> 0 < b -> Zdigits2 a + Zdigits2 b - 1 <= Zdigits2 (a * b).
Proof.
  intros Ha Hb.
  destruct (Zdigits2_bounds a Ha) as (Hda & Hla & _).
  destruct (Zdigits2_bounds b Hb) as (Hdb & Hlb & _).
  assert (Hab : 0 < a * b) by nia.
  destruct (Zdigits2_bounds (a * b) Hab) as (Hd & _ & Hh).
  assert (Hlow : 2 ^ (Zdigits2 a + Zdigits2 b - 2) <= a * b).
  { replace (Zdigits2 a + Zdigits2 b - 2)
      with ((Zdigits2 a - 1) + (Zdigits2 b - 1)) by lia.
    rewrite Z.pow_add_r by lia.
    pose proof (pow2_pos (Zdigits2 a - 1)). pose proof (pow2_pos (Zdigits2 b - 1)).
    nia. }
  assert (Hlt : 2 ^ (Zdigits2 a + Zdigits2 b - 2) < 2 ^ Zdigits2 (a * b)) by lia.
  apply Z.pow_lt_mono_r_iff in Hlt; lia.
Qed.

Lemma SF64mul_upper (x y hi : spec_float) :
  nonneg_valid x -> nonneg_valid y -> nonneg_valid hi ->
  (SF2Q x * SF2Q y <= SF2Q hi)%Q ->
  SFnn (SF64mul x y) = true /\ (SF2Q (SF64mul x y) <= SF2Q hi)%Q.
Proof.
  intros [Hx Hvx] [Hy Hvy] Hhi Hle.
  destruct x as [sx|[]| |[] mx ex]; cbn [SFnn] in Hx; try discriminate;
    destruct y as [sy|[]| |[] my ey]; cbn [SFnn] in Hy; try discriminate;
    try (split; [reflexivity|]; cbn [SF2Q SF64mul SFmul];
         apply SFnn_nonneg, Hhi).
  cbn [SF2Q] in Hle. unfold SF64mul, SFmul. cbn [xorb].
  cbn [valid_binary] in Hvx, Hvy.
  destruct (bounded_canonical mx ex Hvx) as [Hcx _].
  destruct (bounded_canonical my ey Hvy) as [Hcy _].
  change (Zpos (mx * my)) with (Zpos mx * Zpos my).
  apply round_upper_good; try assumption.
  - lia.
  - pose proof (Zdigits2_mul_ge (Zpos mx) (Zpos my)) as Hd.
    destruct (Zdigits2_bounds (Zpos mx)) as (Hdx & _); [lia|].
    destruct (Zdigits2_bounds (Zpos my)) as (Hdy & _); [lia|].
    rewrite fexp_eq in Hcx, Hcy |- *. lia.
  - rewrite F2Q_mul. exact Hle.
  - intros H. exfalso. apply H. reflexivity.
Qed.

(** Division: the quotient mantissa and what is left of the dividend. *)
Lemma new_location_exact (nb k : Z) :
  new_location nb k <> loc_Exact -> k <> 0.
Proof.
  unfold new_location, new_location_even, new_location_odd.
  intros H Hk. apply H. rewrite Hk. simpl. destruct (Z.even nb); reflexivity.
Qed.

Lemma SFdiv_core_spec (mx : positive) (ex : Z) (my : positive) (ey : Z) :
  exists q e' lz,
    SFdiv_core_binary prec emax (Zpos mx) ex (Zpos my) ey = (q, e', lz) /\
    0 <= q /\ e' <= fexp prec emax (Zdigits2 q + e') /\
    (F2Q q e' * F2Q (Zpos my) ey <= F2Q (Zpos mx) ex)%Q /\
    (lz <> loc_Exact -> (F2Q q e' * F2Q (Zpos my) ey < F2Q (Zpos mx) ex)%Q).
Proof.
  unfold SFdiv_core_binary.
  set (d1 := Zdigits2 (Zpos mx)). set (d2 := Zdigits2 (Zpos my)).
  set (T := d1 + ex - (d2 + ey)).
  set (e' := Z.min (fexp prec emax T) (ex - ey)).
  set (s := ex - ey - e').
  assert (Hs : 0 <= s) by (unfold s, e'; lia).
  set (m' := match s with Zpos _ => Z.shiftl (Zpos mx) s | 0 => Zpos mx | Zneg _ => 0 end).
  assert (Hm' : m' = Zpos mx * 2 ^ s).
  { unfold m'. destruct s as [|p|p]; [simpl; lia| |lia].
    apply Z.shiftl_mul_pow2. lia. }
  clearbody m'.
  pose proof (Z_div_mod m' (Zpos my) eq_refl) as Hdm.
  destruct (Z.div_eucl m' (Zpos my)) as [q r]. destruct Hdm as [Hdm Hr].
  exists q, e', (new_location (Zpos my) r). split; [reflexivity|].
  pose proof (pow2_pos s Hs) as Hps.
  assert (Hq : 0 <= q) by nia.
  assert (Hval : (F2Q m' (e' + ey) == F2Q (Zpos mx) ex)%Q).
  { rewrite Hm', F2Q_shift by lia.
    replace (e' + ey + s) with ex by (unfold s; lia). reflexivity. }
  split; [exact Hq|]. split; [|split].
  - destruct (Zdigits2_bounds (Zpos mx)) as (Hd1 & Hl1 & Hh1); [lia|].
    destruct (Zdigits2_bounds (Zpos my)) as (Hd2 & Hl2 & Hh2); [lia|].
    fold d1 in Hd1, Hl1, Hh1. fold d2 in Hd2, Hl2, Hh2.
    assert (Hlow : 2 ^ (d1 + s - 1) <= m').
    { rewrite Hm'. replace (d1 + s - 1) with (d1 - 1 + s) by lia.
      rewrite Z.pow_add_r by lia. nia. }
    assert (Hfe : e' <= fexp prec emax T) by (unfold e'; lia).
    destruct (Z.eq_dec q 0) as [Hq0|Hq0].
    + rewrite Hq0, Z.mul_0_r, Z.add_0_l in Hdm.
      assert (Hlt : 2 ^ (d1 + s - 1) < 2 ^ d2) by lia.
      apply Z.pow_lt_mono_r_iff in Hlt; [|lia|lia].
      assert (He' : T <= e') by (unfold T, s in *; lia).
      rewrite Hq0. rewrite fexp_eq in Hfe |- *. simpl. lia.
    + assert (Hqpos : 0 < q) by lia.
      destruct (Zdigits2_bounds q Hqpos) as (Hdq & _ & Hhq).
      assert (Hup : m' < 2 ^ (d2 + Zdigits2 q)).
      { rewrite Z.pow_add_r by lia.
        pose proof (pow2_pos d2). nia. }
      assert (Hlt : 2 ^ (d1 + s - 1) < 2 ^ (d2 + Zdigits2 q)) by lia.
      apply Z.pow_lt_mono_r_iff in Hlt; [|lia|lia].
      eapply Z.le_trans; [exact Hfe|]. apply fexp_mono.
      unfold T, s in *. lia.
  - rewrite <- Hval, <- F2Q_mul. apply F2Q_le. nia.
  - intros Hl. apply new_location_exact in Hl.
    rewrite <- Hval, <- F2Q_mul. apply F2Q_lt. nia.
Qed.

Lemma SF64div_upper (x y hi : spec_float) :
  nonneg_valid x -> nonneg_valid y -> nonneg_valid hi ->
  (0 < SF2Q y)%Q ->
  (SF2Q x <= SF2Q hi * SF2Q y)%Q ->
  SFnn (SF64div x y) = true /\ (SF2Q (SF64div x y) <= SF2Q hi)%Q.
Proof.
  intros [Hx Hvx] [Hy Hvy] Hhi Hypos Hle.
  destruct y as [sy|[]| |[] my ey]; cbn [SFnn] in Hy; try discriminate.
  destruct x as [sx|[]| |[] mx ex]; cbn [SFnn] in Hx; try discriminate.
  { split; [reflexivity|]. cbn [SF2Q SF64div SFdiv]. apply SFnn_nonneg, Hhi. }
  cbn [SF2Q] in Hle, Hypos. unfold SF64div, SFdiv. cbn [xorb].
  destruct (SFdiv_core_spec mx ex my ey) as (q & e' & lz & -> & Hq & Hpre & Hv & Hs).
  apply round_upper_good; try assumption.
  - apply Qmult_le_r with (F2Q (Zpos my) ey); [assumption|].
    eapply Qle_trans; [exact Hv|exact Hle].
  - intros Hl. apply Qmult_lt_r with (F2Q (Zpos my) ey); [assumption|].
    eapply Qlt_le_trans; [exact (Hs Hl)|exact Hle].
Qed.

(** The comparisons of two non-negative binary64 values are those of
    their rational values. *)
Lemma SFltb_Qlt (x y : spec_float) :
  nonneg_valid x -> nonneg_valid y -> SFltb x y = true -> (SF2Q x < SF2Q y)%Q.
Proof.
  intros [Hx Hvx] [Hy Hvy]. unfold SFltb.
  destruct x as [sx|[]| |[] mx ex]; cbn [SFnn] in Hx; try discriminate;
    destruct y as [sy|[]| |[] my ey]; cbn [SFnn] in Hy; try discriminate;
    cbn [SFcompare SF2Q]; try discriminate.
  - intros _. apply F2Q_pos. lia.
  - cbn [valid_binary] in Hvx, Hvy.
    destruct (bounded_canonical mx ex Hvx) as [Hcx _].
    destruct (bounded_canonical my ey Hvy) as [Hcy _].
    destruct (Z.compare_spec ex ey) as [Heq|Hlt|Hgt]; try discriminate.
    + change (Pos.compare_cont Eq mx my) with (Pos.compare mx my).
      destruct (Pos.compare_spec mx my) as [|Hm|]; try discriminate.
      intros _. subst ey. apply F2Q_lt. lia.
    + intros _. rewrite fexp_eq in Hcx, Hcy.
      eapply Qlt_le_trans; [apply F2Q_lt_pow; lia|].
      eapply Qle_trans; [|apply F2Q_ge_pow; lia].
      apply F2Q_pow_le. lia.
Qed.

Lemma SFcompare_good (x y : spec_float) :
  nonneg_valid x -> nonneg_valid y -> SFcompare x y <> None.
Proof.
  intros [Hx _] [Hy _].
  destruct x as [sx|[]| |[] mx ex]; cbn [SFnn] in Hx; try discriminate;
    destruct y as [sy|[]| |[] my ey]; cbn [SFnn] in Hy; try discriminate;
    cbn [SFcompare]; discriminate.
Qed.

End Rounding.

(** ** The same brackets on the primitive operations *)

Lemma nnf_good (x : float) : nnf x = true -> nonneg_valid (Prim2SF x).
Proof. intros H. split; [exact H|apply Prim2SF_valid]. Qed.

Lemma Qval_nonneg (x : float) : nnf x = true -> (0 <= Qval x)%Q.
Proof. apply SFnn_nonneg. Qed.

Lemma sub_upper (x y hi : float) :
  nnf x = true -> nnf y = true -> nnf hi = true ->
  (Qval y <= Qval x)%Q -> (Qval x - Qval y <= Qval hi)%Q ->
  nnf (x - y) = true /\ (Qval (x - y) <= Qval hi)%Q.
Proof.
  intros Hx Hy Hh Hyx Hle. unfold nnf, Qval. rewrite sub_spec.
  apply SF64sub_upper; auto using nnf_good.
Qed.

Lemma sub_lower (x y lo : float) :
  nnf x = true -> nnf y = true -> nnf lo = true ->
  (Qval y <= Qval x)%Q -> (Qval lo <= Qval x - Qval y)%Q ->
  nnf (x - y) = true /\ (Qval lo <= Qval (x - y))%Q.
Proof.
  intros Hx Hy Hl Hyx Hle.
  assert (Hup : nnf (x - y) = true).
  { apply (sub_upper x y x); try assumption.
    pose proof (Qval_nonneg y Hy). lra. }
  split; [exact Hup|].
  unfold nnf, Qval in *. rewrite sub_spec in *.
  destruct (SF64sub_lower (Prim2SF x) (Prim2SF y) (Prim2SF lo))
    as [Hinf|[_ H]]; auto using nnf_good.
  rewrite Hinf in Hup. discriminate Hup.
Qed.

Lemma add_range (x y lo hi : float) :
  nnf x = true -> nnf y = true -> nnf lo = true -> nnf hi = true ->
  (Qval lo <= Qval x + Qval y)%Q -> (Qval x + Qval y <= Qval hi)%Q ->
  nnf (x + y) = true /\ (Qval lo <= Qval (x + y) <= Qval hi)%Q.
Proof.
  intros Hx Hy Hl Hh Hlo Hhi. unfold nnf, Qval in *. rewrite add_spec.
  destruct (SF64add_upper (Prim2SF x) (Prim2SF y) (Prim2SF hi))
    as [Hnn Hup]; auto using nnf_good.
  split; [exact Hnn|]. split; [|exact Hup].
  destruct (SF64add_lower (Prim2SF x) (Prim2SF y) (Prim2SF lo))
    as [Hinf|[_ H]]; auto using nnf_good.
  rewrite Hinf in Hnn. discriminate Hnn.
Qed.

Lemma mul_upper (x y hi : float) :
  nnf x = true -> nnf y = true -> nnf hi = true ->
  (Qval x * Qval y <= Qval hi)%Q ->
  nnf (x * y) = true /\ (Qval (x * y) <= Qval hi)%Q.
Proof.
  intros Hx Hy Hh Hle. unfold nnf, Qval. rewrite mul_spec.
  apply SF64mul_upper; auto using nnf_good.
Qed.

Lemma div_upper (x y hi : float) :
  nnf x = true -> nnf y = true -> nnf hi = true ->
  (0 < Qval y)%Q -> (Qval x <= Qval hi * Qval y)%Q ->
  nnf (x / y) = true /\ (Qval (x / y) <= Qval hi)%Q.
Proof.
  intros Hx Hy Hh Hpos Hle. unfold nnf, Qval. rewrite div_spec.
  apply SF64div_upper; auto using nnf_good.
Qed.

Lemma ltb_Qlt (x y : float) :
  nnf x = true -> nnf y = true -> (x <? y)%float = true -> (Qval x < Qval y)%Q.
Proof.
  intros Hx Hy. rewrite FloatAxioms.ltb_spec.
  apply SFltb_Qlt; auto using nnf_good.
Qed.

Lemma Qle_leb (x y : float) :
  nnf x = true -> nnf y = true -> (Qval x <= Qval y)%Q -> (x <=? y)%float = true.
Proof.
  intros Hx Hy Hle. rewrite FloatAxioms.leb_spec. unfold SFleb.
  pose proof (SFcompare_good _ _ (nnf_good x Hx) (nnf_good y Hy)) as Hc.
  destruct (SFcompare (Prim2SF x) (Prim2SF y)) as [[]|] eqn:E;
    try reflexivity; [|congruence].
  exfalso. assert (Hlt : SFltb (Prim2SF y) (Prim2SF x) = true).
  { unfold SFltb. rewrite SFcompare_antisym, E. reflexivity. }
  apply SFltb_Qlt in Hlt; auto using nnf_good. fold (Qval x) (Qval y) in Hlt. lra.
Qed.

(** Two numbers that are not ordered one way are ordered the other. *)
Lemma not_leb_ltb (x y : number) :
  is_nan x = false -> is_nan y = false ->
  (x <=? y) = false -> (y <? x) = true.
Proof.
  rewrite !is_nan_spec. intros Hx Hy.
  rewrite FloatAxioms.leb_spec, FloatAxioms.ltb_spec. unfold SFleb, SFltb.
  rewrite (SFcompare_antisym (Prim2SF x) (Prim2SF y)).
  destruct (SFcompare (Prim2SF x) (Prim2SF y)) as [[]|] eqn:E;
    simpl; try discriminate; try reflexivity.
  exfalso. destruct (Prim2SF x) as [[]|[]| |[] mx ex],
    (Prim2SF y) as [[]|[]| |[] my ey]; simpl in *; congruence.
Qed.

(** A number strictly between two non-negative finite ones is one too. *)
Lemma between_nnf (lo hi x : number) :
  nnf lo = true -> nnf hi = true ->
  (lo <? x) = true -> (x <? hi) = true -> nnf x = true.
Proof.
  unfold nnf. rewrite !FloatAxioms.ltb_spec. unfold SFltb.
  destruct (Prim2SF lo) as [[]|[]| |[] ml el]; simpl; try discriminate;
    destruct (Prim2SF x) as [[]|[]| |[] mx ex]; simpl; try discriminate;
    try reflexivity;
    destruct (Prim2SF hi) as [[]|[]| |[] mh eh]; simpl; discriminate.
Qed.

(** Not-a-number goes through the four operations. *)
Lemma is_nan_sub_l (x y : number) : is_nan x = true -> is_nan (x - y) = true.
Proof.
  rewrite !is_nan_spec, sub_spec.
  destruct (Prim2SF x) as [[]|[]| |[] mx ex]; try discriminate. reflexivity.
Qed.

Lemma is_nan_div_l (x y : number) : is_nan x = true -> is_nan (x / y) = true.
Proof.
  rewrite !is_nan_spec, div_spec.
  destruct (Prim2SF x) as [[]|[]| |[] mx ex]; try discriminate. reflexivity.
Qed.

Lemma is_nan_mul_l (x y : number) : is_nan x = true -> is_nan (x * y) = true.
Proof.
  rewrite !is_nan_spec, mul_spec.
  destruct (Prim2SF x) as [[]|[]| |[] mx ex]; try discriminate. reflexivity.
Qed.

Lemma is_nan_add_r (x y : number) : is_nan y = true -> is_nan (x + y) = true.
Proof.
  rewrite !is_nan_spec, add_spec.
  destruct (Prim2SF y) as [[]|[]| |[] my ey]; try discriminate.
  destruct (Prim2SF x) as [[]|[]| |[] mx ex]; reflexivity.
Qed.

Lemma is_nan_leb_l (x y : number) : is_nan x = true -> (x <=? y) = false.
Proof.
  rewrite is_nan_spec, FloatAxioms.leb_spec.
  destruct (Prim2SF x) as [[]|[]| |[] mx ex]; try discriminate. reflexivity.
Qed.

Lemma is_nan_leb_r (x y : number) : is_nan y = true -> (x <=? y) = false.
Proof.
  rewrite is_nan_spec, FloatAxioms.leb_spec.
  destruct (Prim2SF y) as [[]|[]| |[] my ey]; try discriminate.
  destruct (Prim2SF x) as [[]|[]| |[] mx ex]; reflexivity.
Qed.

(** ** Beta1Resolver *)

Lemma calculateBeta1_low (fc : number) :
  JS.le fc 4000 = true -> calculateBeta1 fc = 0.85.
Proof. intros H. unfold calculateBeta1. rewrite H. reflexivity. Qed.

Lemma calculateBeta1_high (fc : number) :
  JS.ge fc 8000 = true -> calculateBeta1 fc = 0.65.
Proof.
  intros H. unfold calculateBeta1, JS.le, JS.ge in *.
  rewrite (leb_above_not_below fc 4000 8000), H by (reflexivity || assumption).
  reflexivity.
Qed.

Lemma calculateBeta1_between (fc : number) :
  JS.lt 4000 fc = true -> JS.lt fc 8000 = true ->
  calculateBeta1 fc = beta1_interpolation fc.
Proof.
  unfold JS.lt, calculateBeta1, JS.le, JS.ge. intros Hlo Hhi.
  rewrite (ltb_leb_false _ _ Hlo), (ltb_leb_false _ _ Hhi). reflexivity.
Qed.

(** C3, as stated, fails at [fc = 5000]: the source returns the binary64
    value [0.8], the interpolation written with [0.20] evaluates one unit in
    the last place lower, to [0.79999999999999993]. *)
Lemma C3_counterexample : ~ C3_claim 5000.
Proof.
  intros (_ & _ & H).
  specialize (H eq_refl eq_refl).
  apply (f_equal (fun x => x =? 0.8)) in H.
  vm_compute in H. discriminate H.
Qed.

(** C3 (amended): [calculateBeta1] returns [0.85] for [fc <= 4000], [0.65]
    for [fc >= 8000], and between the two the interpolation
    [0.85 - ((fc - 4000)/4000) * (0.85 - 0.65)], whose last factor is the
    binary64 difference [0.19999999999999996] and not [0.20]; [fc = 4000]
    and [fc = 8000] give exactly [0.85] and [0.65]. *)
Theorem C3_calculateBeta1_piecewise (fc : number) :
  (JS.le fc 4000 = true -> calculateBeta1 fc = 0.85) /\
  (JS.ge fc 8000 = true -> calculateBeta1 fc = 0.65) /\
  (JS.lt 4000 fc = true -> JS.lt fc 8000 = true ->
   calculateBeta1 fc = 0.85 - ((fc - 4000) / 4000) * (0.85 - 0.65)) /\
  calculateBeta1 4000 = 0.85 /\
  calculateBeta1 8000 = 0.65 /\
  0.85 - 0.65 = 0.19999999999999996.
Proof.
  split; [apply calculateBeta1_low|].
  split; [apply calculateBeta1_high|].
  split; [apply calculateBeta1_between|].
  repeat split; reflexivity.
Qed.

Lemma C3_calculateBeta1_piecewise_witness :
  calculateBeta1 3000 = 0.85 /\
  calculateBeta1 10000 = 0.65 /\
  calculateBeta1 5000 = 0.85 - ((5000 - 4000) / 4000) * (0.85 - 0.65).
Proof.
  split; [apply (C3_calculateBeta1_piecewise 3000); reflexivity|].
  split; [apply (C3_calculateBeta1_piecewise 10000); reflexivity|].
  apply (C3_calculateBeta1_piecewise 5000); reflexivity.
Defined.

(** *** The range of [calculateBeta1] *)

Lemma calculateBeta1_transition (fc : number) :
  (4000 <? fc) = true -> (fc <? 8000) = true ->
  (0.65 <=? beta1_interpolation fc) = true /\
  (beta1_interpolation fc <=? 0.85) = true.
Proof.
  intros Hlo Hhi. unfold beta1_interpolation.
  assert (Hfc : nnf fc = true) by (apply (between_nnf 4000 8000); auto).
  apply ltb_Qlt in Hlo; [|reflexivity|assumption].
  apply ltb_Qlt in Hhi; [|assumption|reflexivity].
  assert (E1 : (Qval 8000 - Qval 4000 == Qval 4000)%Q)
    by (apply Qeq_bool_iff; vm_compute; reflexivity).
  assert (E2 : (Qval 0.85 - Qval (0.85 - 0.65) == Qval 0.65)%Q)
    by (apply Qeq_bool_iff; vm_compute; reflexivity).
  assert (E3 : (Qval 1 == 1)%Q)
    by (apply Qeq_bool_iff; vm_compute; reflexivity).
  assert (P1 : (0 < Qval 4000)%Q) by (vm_compute; reflexivity).
  assert (P2 : (0 <= Qval (0.85 - 0.65))%Q) by (vm_compute; discriminate).
  assert (P3 : (0 <= Qval 0.65)%Q) by (vm_compute; discriminate).
  assert (S1 : nnf (fc - 4000) = true /\
               (Qval (fc - 4000) <= Qval 4000)%Q).
  { apply sub_upper; try reflexivity; try assumption; lra. }
  destruct S1 as [Nu Hu].
  assert (S2 : nnf ((fc - 4000) / 4000) = true /\
               (Qval ((fc - 4000) / 4000) <= Qval 1)%Q).
  { apply div_upper; try reflexivity; try assumption.
    rewrite E3, Qmult_1_l. exact Hu. }
  destruct S2 as [Nv Hv]. rewrite E3 in Hv.
  assert (S3 : nnf ((fc - 4000) / 4000 * (0.85 - 0.65)) = true /\
               (Qval ((fc - 4000) / 4000 * (0.85 - 0.65))
                <= Qval (0.85 - 0.65))%Q).
  { apply mul_upper; try reflexivity; try assumption.
    rewrite <- (Qmult_1_l (Qval (0.85 - 0.65))) at 2.
    apply Qmult_le_compat_r; assumption. }
  destruct S3 as [Nt Ht].
  pose proof (Qval_nonneg _ Nt) as Ht0.
  assert (S4 : nnf (0.85 - (fc - 4000) / 4000 * (0.85 - 0.65)) = true /\
               (Qval 0.65
                <= Qval (0.85 - (fc - 4000) / 4000 * (0.85 - 0.65)))%Q).
  { apply sub_lower; try reflexivity; try assumption; lra. }
  assert (S5 : nnf (0.85 - (fc - 4000) / 4000 * (0.85 - 0.65)) = true /\
               (Qval (0.85 - (fc - 4000) / 4000 * (0.85 - 0.65))
                <= Qval 0.85)%Q).
  { apply sub_upper; try reflexivity; try assumption; lra. }
  destruct S4 as [Nb Hb1]. destruct S5 as [_ Hb2].
  split; apply Qle_leb; try reflexivity; assumption.
Qed.

(** For every strength that is a number, [beta1] is between [0.65] and
    [0.85]. *)
Lemma calculateBeta1_range (fc : number) :
  is_nan fc = false ->
  JS.le 0.65 (calculateBeta1 fc) = true /\
  JS.le (calculateBeta1 fc) 0.85 = true.
Proof.
  intros Hn. unfold calculateBeta1, JS.le, JS.ge.
  destruct (fc <=? 4000) eqn:H4; [split; reflexivity|].
  destruct (8000 <=? fc) eqn:H8; [split; reflexivity|].
  apply calculateBeta1_transition; apply not_leb_ltb; auto.
Qed.

Lemma calculateBeta1_pos (fc : number) :
  is_nan fc = false -> (0 <? calculateBeta1 fc) = true.
Proof.
  intros Hn. destruct (calculateBeta1_range fc Hn) as [H _].
  apply (ltb_leb_trans 0 0.65); [reflexivity|exact H].
Qed.

(** ** StrainAndPhiResolver *)

(** C4: [calculatePhi] is [0.90] from [0.005] upwards, [0.65] up to [0.002]
    and the interpolation strictly in between; the two boundary values take
    the constant branches. *)
Theorem C4_calculatePhi_piecewise (epsilonT : number) :
  (JS.ge epsilonT 0.005 = true -> calculatePhi epsilonT = 0.90) /\
  (JS.le epsilonT 0.002 = true -> calculatePhi epsilonT = 0.65) /\
  (JS.lt 0.002 epsilonT = true -> JS.lt epsilonT 0.005 = true ->
   calculatePhi epsilonT
   = 0.65 + (epsilonT - 0.002) / (0.005 - 0.002) * (0.90 - 0.65)) /\
  calculatePhi 0.005 = 0.90 /\
  calculatePhi 0.002 = 0.65.
Proof.
  unfold calculatePhi, EPSILON_Y_MIN, JS.ge, JS.le, JS.lt.
  split; [intros H; rewrite H; reflexivity|].
  split.
  { intros H.
    rewrite (leb_below_not_above epsilonT 0.002 0.005), H
      by (reflexivity || assumption).
    reflexivity. }
  split.
  { intros Hlo Hhi.
    rewrite (ltb_leb_false _ _ Hlo), (ltb_leb_false _ _ Hhi). reflexivity. }
  split; reflexivity.
Qed.

Lemma C4_calculatePhi_piecewise_witness :
  calculatePhi 0.0087977848101265833 = 0.90 /\
  calculatePhi (-0.003) = 0.65 /\
  calculatePhi 0.0035 = 0.65 + (0.0035 - 0.002) / (0.005 - 0.002) * (0.90 - 0.65).
Proof.
  split; [apply (C4_calculatePhi_piecewise 0.0087977848101265833); reflexivity|].
  split; [apply (C4_calculatePhi_piecewise (-0.003)); reflexivity|].
  apply (C4_calculatePhi_piecewise 0.0035); reflexivity.
Defined.

(** *** The range of [calculatePhi] *)

Lemma calculatePhi_transition (e : number) :
  (0.002 <? e) = true -> (e <? 0.005) = true ->
  let phi := 0.65 + (e - 0.002) / (0.005 - 0.002) * (0.9 - 0.65) in
  (0.65 <=? phi) = true /\ (phi <=? 0.9) = true.
Proof.
  intros Hlo Hhi phi.
  assert (He : nnf e = true) by (apply (between_nnf 0.002 0.005); auto).
  apply ltb_Qlt in Hlo; [|reflexivity|assumption].
  apply ltb_Qlt in Hhi; [|assumption|reflexivity].
  assert (E1 : (Qval 0.005 - Qval 0.002 == Qval (0.005 - 0.002))%Q)
    by (apply Qeq_bool_iff; vm_compute; reflexivity).
  assert (E2 : (Qval 0.65 + Qval (0.9 - 0.65) == Qval 0.9)%Q)
    by (apply Qeq_bool_iff; vm_compute; reflexivity).
  assert (E3 : (Qval 1 == 1)%Q)
    by (apply Qeq_bool_iff; vm_compute; reflexivity).
  assert (P1 : (0 < Qval (0.005 - 0.002))%Q) by (vm_compute; reflexivity).
  assert (P2 : (0 <= Qval (0.9 - 0.65))%Q) by (vm_compute; discriminate).
  assert (S1 : nnf (e - 0.002) = true /\
               (Qval (e - 0.002) <= Qval (0.005 - 0.002))%Q).
  { apply sub_upper; try reflexivity; try assumption; lra. }
  destruct S1 as [Ns Hs].
  assert (S2 : nnf ((e - 0.002) / (0.005 - 0.002)) = true /\
               (Qval ((e - 0.002) / (0.005 - 0.002)) <= Qval 1)%Q).
  { apply div_upper; try reflexivity; try assumption.
    rewrite E3, Qmult_1_l. exact Hs. }
  destruct S2 as [Nq Hq]. rewrite E3 in Hq.
  assert (S3 : nnf ((e - 0.002) / (0.005 - 0.002) * (0.9 - 0.65)) = true /\
               (Qval ((e - 0.002) / (0.005 - 0.002) * (0.9 - 0.65))
                <= Qval (0.9 - 0.65))%Q).
  { apply mul_upper; try reflexivity; try assumption.
    rewrite <- (Qmult_1_l (Qval (0.9 - 0.65))) at 2.
    apply Qmult_le_compat_r; assumption. }
  destruct S3 as [Np Hp].
  pose proof (Qval_nonneg _ Np) as Hp0.
  assert (S4 : nnf phi = true /\ (Qval 0.65 <= Qval phi <= Qval 0.9)%Q).
  { apply add_range; try reflexivity; try assumption; lra. }
  destruct S4 as [Nphi [Hphi1 Hphi2]].
  split; apply Qle_leb; try reflexivity; assumption.
Qed.

Lemma calculatePhi_range (e : number) :
  is_nan e = false ->
  JS.le 0.65 (calculatePhi e) = true /\ JS.le (calculatePhi e) 0.9 = true.
Proof.
  intros Hn. unfold calculatePhi, EPSILON_Y_MIN, JS.le, JS.ge.
  destruct (0.005 <=? e) eqn:H5; [split; reflexivity|].
  destruct (e <=? 0.002) eqn:H2; [split; reflexivity|].
  apply calculatePhi_transition; apply not_leb_ltb; auto.
Qed.

Lemma calculatePhi_nan (e : number) :
  is_nan e = true -> is_nan (calculatePhi e) = true.
Proof.
  intros Hn. unfold calculatePhi, JS.le, JS.ge.
  rewrite (is_nan_leb_r _ _ Hn), (is_nan_leb_l _ _ Hn).
  apply is_nan_add_r, is_nan_mul_l, is_nan_div_l, is_nan_sub_l, Hn.
Qed.

(** C8, as stated, fails when the concrete strength field is cleared:
    [a] and [c] are infinite, the strain is not a number and neither is
    [phi]. *)
Lemma C8_counterexample :
  ~ (JS.le 0.65 (BeamResults.phi (calculateBeamStrength no_concrete)) = true /\
     JS.le (BeamResults.phi (calculateBeamStrength no_concrete)) 0.90 = true).
Proof. intros [H _]. vm_compute in H. discriminate H. Qed.

(** C8 (amended): whenever the tensile strain of the result is a number,
    [phi] lies in the closed interval [0.65, 0.90]; when it is not a number
    (zero [fc] or [b], or zero [As] and [d]), [phi] is not a number either. *)
Theorem C8_phi_range (input : BeamInput.t) :
  let r := calculateBeamStrength input in
  (is_nan (BeamResults.epsilonT r) = false ->
   JS.le 0.65 (BeamResults.phi r) = true /\
   JS.le (BeamResults.phi r) 0.90 = true) /\
  (is_nan (BeamResults.epsilonT r) = true ->
   is_nan (BeamResults.phi r) = true).
Proof.
  cbv zeta. split.
  - apply calculatePhi_range.
  - apply calculatePhi_nan.
Qed.

Lemma C8_phi_range_witness :
  JS.le 0.65 (BeamResults.phi (calculateBeamStrength scenario1)) = true /\
  JS.le (BeamResults.phi (calculateBeamStrength scenario1)) 0.90 = true /\
  is_nan (BeamResults.phi (calculateBeamStrength no_concrete)) = true.
Proof.
  destruct (C8_phi_range scenario1) as [H1 _].
  destruct (C8_phi_range no_concrete) as [_ H2].
  split; [apply H1; reflexivity|].
  split; [apply H1; reflexivity|apply H2; reflexivity].
Defined.

(** ** ReinforcementLimits *)

(** C5: the three limits are the stated expressions of [fc] and [fy], with
    [beta1] from [calculateBeta1] and [max] the larger of its two arguments
    whenever both are numbers (and not a number otherwise). *)
Theorem C5_reinforcement_limits (fc fy : number) :
  calculateRhoMin fc fy = JS.Math_max (3 * JS.Math_sqrt fc / fy) (200 / fy) /\
  (is_nan (3 * JS.Math_sqrt fc / fy) = false -> is_nan (200 / fy) = false ->
   (calculateRhoMin fc fy = 3 * JS.Math_sqrt fc / fy \/
    calculateRhoMin fc fy = 200 / fy) /\
   JS.le (3 * JS.Math_sqrt fc / fy) (calculateRhoMin fc fy) = true /\
   JS.le (200 / fy) (calculateRhoMin fc fy) = true) /\
  (is_nan (3 * JS.Math_sqrt fc / fy) || is_nan (200 / fy) = true ->
   calculateRhoMin fc fy = nan) /\
  calculateRhoBalanced fc fy
  = (0.85 * fc * calculateBeta1 fc / fy) * (0.003 / (0.003 + fy / 29000000)) /\
  calculateRhoMax fc fy = 0.75 * calculateRhoBalanced fc fy.
Proof.
  split; [reflexivity|].
  split; [|split; [|split; reflexivity]].
  - intros H1 H2. unfold calculateRhoMin. apply Math_max_is_max; assumption.
  - unfold calculateRhoMin. apply Math_max_nan.
Qed.

Lemma C5_reinforcement_limits_witness :
  calculateRhoMin 4000 60000 = 200 / 60000 /\
  calculateRhoMin 6000 60000 = 3 * JS.Math_sqrt 6000 / 60000 /\
  JS.le (3 * JS.Math_sqrt 4000 / 60000) (calculateRhoMin 4000 60000) = true.
Proof.
  split; [vm_compute; reflexivity|].
  split; [vm_compute; reflexivity|].
  apply (C5_reinforcement_limits 4000 60000); reflexivity.
Defined.

(** ** MomentCapacityEngine *)

(** C1: every numeric field of the result is the stated closed form of the
    input and of the fields before it. *)
Theorem C1_pipeline (input : BeamInput.t) :
  let b := BeamInput.b input in
  let d := BeamInput.d input in
  let fc := BeamInput.fc input in
  let fy := BeamInput.fy input in
  let As := BeamInput.As input in
  let r := calculateBeamStrength input in
  BeamResults.rho r = As / (b * d) /\
  BeamResults.a r = As * fy / (0.85 * fc * b) /\
  BeamResults.c r = BeamResults.a r / calculateBeta1 fc /\
  BeamResults.epsilonC r = 0.003 /\
  BeamResults.epsilonT r = 0.003 * (d - BeamResults.c r) / BeamResults.c r /\
  BeamResults.Mn r = As * fy * (d - BeamResults.a r / 2) / 12 /\
  BeamResults.phi r = calculatePhi (BeamResults.epsilonT r) /\
  BeamResults.phiMn r = BeamResults.phi r * BeamResults.Mn r.
Proof. cbv zeta. repeat split. Qed.

(** C2: the three boolean fields are the stated comparisons of the fields of
    the same record. *)
Theorem C2_checks (input : BeamInput.t) :
  let r := calculateBeamStrength input in
  BeamResults.isUnderReinforced r
  = JS.le (BeamResults.rho r) (BeamResults.rhoMax r) /\
  BeamResults.meetsMinSteel r
  = JS.ge (BeamResults.rho r) (BeamResults.rhoMin r) /\
  BeamResults.isValid r
  = BeamResults.isUnderReinforced r && BeamResults.meetsMinSteel r
    && JS.lt (BeamInput.d input) (BeamInput.h input)
    && JS.gt (BeamInput.As input) 0.
Proof. cbv zeta. repeat split. Qed.

(** *** Scenario 1 *)

(** C6, as stated, fails: the stress block is about 4.65 in deep, not 3.10,
    and the design moment is not between 280 and 300. *)
Lemma C6_counterexample :
  scenario1_expected (calculateBeamStrength scenario1) = false /\
  approx2 (BeamResults.a (calculateBeamStrength scenario1)) 3.10 = false /\
  (BeamResults.phiMn (calculateBeamStrength scenario1) <=? 300) = false.
Proof. repeat split; vm_compute; reflexivity. Qed.

(** C6 (amended): on scenario 1 the stress block depth is
    [189600 / 40800], about 4.647; the strain is above [0.005], so the
    section is tension-controlled with [phi = 0.90]; [phiMn] is
    [0.90 * Mn]; and the section is valid. *)
Theorem C6_scenario1 :
  let r := calculateBeamStrength scenario1 in
  BeamResults.a r = 4.6470588235294121 /\
  approx2 (BeamResults.a r) 4.647 = true /\
  JS.ge (BeamResults.epsilonT r) 0.005 = true /\
  BeamResults.phi r = 0.90 /\
  BeamResults.phiMn r = 0.90 * BeamResults.Mn r /\
  BeamResults.isValid r = true.
Proof. cbv zeta. repeat split; vm_compute; reflexivity. Qed.

(** The record the source returns on scenario 1, field by field. *)
Example scenario1_result :
  calculateBeamStrength scenario1
  = {| BeamResults.rho := 0.012248062015503876;
       BeamResults.rhoMin := 0.0033333333333333335;
       BeamResults.rhoMax := 0.021380102040816328;
       BeamResults.rhoBalanced := 0.028506802721088437;
       BeamResults.a := 4.6470588235294121;
       BeamResults.c := 5.4671280276816612;
       BeamResults.Mn := 302988.23529411765;
       BeamResults.phiMn := 272689.4117647059;
       BeamResults.phi := 0.90000000000000002;
       BeamResults.isUnderReinforced := true;
       BeamResults.meetsMinSteel := true;
       BeamResults.isValid := true;
       BeamResults.epsilonT := 0.0087977848101265833;
       BeamResults.epsilonC := 0.0030000000000000001 |}.
Proof. vm_compute. reflexivity. Qed.

(** *** Degenerate inputs *)

(** C9: the evaluation always yields a record, and a zero divisor shows as
    an infinite or not-a-number field: [rho] when [b] or [d] is zero, [a]
    when [fc] or [b] is zero, [epsilonT] when the neutral axis depth [c] is
    zero. *)
Theorem C9_total_degenerate (input : BeamInput.t) :
  let r := calculateBeamStrength input in
  (exists rho rhoMin rhoMax rhoBalanced a c Mn phiMn phi
          isUnderReinforced meetsMinSteel isValid epsilonT epsilonC,
      r = BeamResults.mk rho rhoMin rhoMax rhoBalanced a c Mn phiMn phi
            isUnderReinforced meetsMinSteel isValid epsilonT epsilonC) /\
  (is_zero (BeamInput.b input) || is_zero (BeamInput.d input) = true ->
   is_finite (BeamResults.rho r) = false) /\
  (is_zero (BeamInput.fc input) || is_zero (BeamInput.b input) = true ->
   is_finite (BeamResults.a r) = false) /\
  (is_zero (BeamResults.c r) = true ->
   is_finite (BeamResults.epsilonT r) = false).
Proof.
  cbv zeta. split; [|split; [|split]].
  - unfold calculateBeamStrength. repeat eexists.
  - intros H. apply orb_true_iff in H. simpl.
    apply div_zero_or_nan_not_finite.
    destruct H as [H|H]; apply is_zero_zero_or_nan in H.
    + now apply zero_or_nan_mul_l.
    + now apply zero_or_nan_mul_r.
  - intros H. apply orb_true_iff in H. simpl.
    apply div_zero_or_nan_not_finite.
    destruct H as [H|H]; apply is_zero_zero_or_nan in H.
    + apply zero_or_nan_mul_l. now apply zero_or_nan_mul_r.
    + now apply zero_or_nan_mul_r.
  - intros H. simpl in *.
    apply div_zero_or_nan_not_finite. now apply is_zero_zero_or_nan.
Qed.

Lemma C9_total_degenerate_witness :
  is_finite (BeamResults.rho
      (calculateBeamStrength (BeamInput.mk 0 24 21.5 4000 60000 3.16 4))) = false /\
  is_finite (BeamResults.a
      (calculateBeamStrength (BeamInput.mk 12 24 21.5 0 60000 3.16 4))) = false /\
  is_finite (BeamResults.epsilonT
      (calculateBeamStrength (BeamInput.mk 12 24 21.5 4000 60000 0 4))) = false.
Proof.
  pose proof (C9_total_degenerate (BeamInput.mk 0 24 21.5 4000 60000 3.16 4))
    as (_ & H1 & _ & _).
  pose proof (C9_total_degenerate (BeamInput.mk 12 24 21.5 0 60000 3.16 4))
    as (_ & _ & H2 & _).
  pose proof (C9_total_degenerate (BeamInput.mk 12 24 21.5 4000 60000 0 4))
    as (_ & _ & _ & H3).
  split; [apply H1; reflexivity|].
  split; [apply H2; reflexivity|apply H3; reflexivity].
Defined.

(** *** No steel *)

Lemma div_zero_pos (x y : number) :
  is_zero x = true -> (0 <? y) = true -> is_zero (x / y) = true.
Proof.
  rewrite !is_zero_spec, FloatAxioms.ltb_spec, div_spec.
  change (Prim2SF 0) with (S754_zero false).
  destruct (Prim2SF x) as [[]|[]| |[] mx ex]; try discriminate;
    destruct (Prim2SF y) as [[]|[]| |[] my ey]; try discriminate; reflexivity.
Qed.

Lemma mul_zero_finite (x y : number) :
  is_zero x = true -> is_finite y = true -> is_zero (x * y) = true.
Proof.
  rewrite !is_zero_spec, is_finite_spec, mul_spec.
  destruct (Prim2SF x) as [[]|[]| |[] mx ex]; try discriminate;
    destruct (Prim2SF y) as [[]|[]| |[] my ey]; try discriminate; reflexivity.
Qed.

Lemma mul_finite_zero (x y : number) :
  is_finite x = true -> is_zero y = true -> is_zero (x * y) = true.
Proof.
  rewrite !is_zero_spec, is_finite_spec, mul_spec.
  destruct (Prim2SF x) as [[]|[]| |[] mx ex]; try discriminate;
    destruct (Prim2SF y) as [[]|[]| |[] my ey]; try discriminate; reflexivity.
Qed.

Lemma sub_zero_r (x y : number) :
  (0 <? x) = true -> is_zero y = true -> x - y = x.
Proof.
  rewrite is_zero_spec, FloatAxioms.ltb_spec.
  change (Prim2SF 0) with (S754_zero false).
  intros Hx Hy. apply Prim2SF_inj. rewrite sub_spec.
  destruct (Prim2SF x) as [[]|[]| |[] mx ex]; try discriminate;
    destruct (Prim2SF y) as [[]|[]| |[] my ey]; try discriminate; reflexivity.
Qed.

Lemma div_pos_zero (x y : number) :
  (0 <? x) = true -> is_zero y = true -> is_infinity (x / y) = true.
Proof.
  rewrite is_zero_spec, is_infinity_spec, FloatAxioms.ltb_spec, div_spec.
  change (Prim2SF 0) with (S754_zero false).
  destruct (Prim2SF x) as [[]|[]| |[] mx ex]; try discriminate;
    destruct (Prim2SF y) as [[]|[]| |[] my ey]; try discriminate; reflexivity.
Qed.

Lemma ltb_zero_not_nan (x : number) : (0 <? x) = true -> is_nan x = false.
Proof.
  rewrite is_nan_spec, FloatAxioms.ltb_spec.
  destruct (Prim2SF x) as [[]|[]| |[] mx ex]; try discriminate; reflexivity.
Qed.

Lemma is_zero_not_gt (x : number) : is_zero x = true -> JS.gt x 0 = false.
Proof.
  unfold JS.gt. rewrite is_zero_spec, FloatAxioms.ltb_spec.
  change (Prim2SF 0) with (S754_zero false).
  destruct (Prim2SF x) as [[]|[]| |[] mx ex]; try discriminate; reflexivity.
Qed.

(** An infinite strain takes one of the two constant branches. *)
Lemma calculatePhi_infinity (e : number) :
  is_infinity e = true -> calculatePhi e = 0.9 \/ calculatePhi e = 0.65.
Proof.
  rewrite is_infinity_spec. unfold calculatePhi, JS.ge, JS.le, EPSILON_Y_MIN.
  rewrite !FloatAxioms.leb_spec.
  destruct (Prim2SF e) as [[]|[]| |[] m ex]; try discriminate; intros _.
  - right. reflexivity.
  - left. reflexivity.
Qed.

(** C10, as stated, fails when [b * d] underflows: with [b = d = 1e-200]
    the ratio [rho] is [0 / 0], not a number. *)
Lemma C10_counterexample : ~ C10_claim no_steel_tiny.
Proof.
  intros H. destruct (H eq_refl eq_refl eq_refl eq_refl eq_refl) as [Hrho _].
  vm_compute in Hrho. discriminate Hrho.
Qed.

(** C10 (amended): with no steel, positive [b], [d], [fc], [fy], finite
    [fy] and [d], and products [b * d], [0.85 * fc * b] and [0.003 * d]
    that do not underflow to zero, the result has [rho], [a], [Mn] and
    [phiMn] zero and is not valid. *)
Theorem C10_no_steel (input : BeamInput.t) :
  let b := BeamInput.b input in
  let d := BeamInput.d input in
  let fc := BeamInput.fc input in
  let fy := BeamInput.fy input in
  let r := calculateBeamStrength input in
  is_zero (BeamInput.As input) = true ->
  JS.gt b 0 = true -> JS.gt d 0 = true ->
  JS.gt fc 0 = true -> JS.gt fy 0 = true ->
  is_finite fy = true -> is_finite d = true ->
  JS.gt (b * d) 0 = true ->
  JS.gt (0.85 * fc * b) 0 = true ->
  JS.gt (0.003 * d) 0 = true ->
  is_zero (BeamResults.rho r) = true /\ is_zero (BeamResults.a r) = true /\
  is_zero (BeamResults.Mn r) = true /\ is_zero (BeamResults.phiMn r) = true /\
  BeamResults.isValid r = false.
Proof.
  cbv zeta. unfold JS.gt.
  destruct input as [b h d fc fy As numBars]. cbn [BeamInput.As BeamInput.b
    BeamInput.d BeamInput.fc BeamInput.fy].
  intros HAs Hb Hd Hfc Hfy Ffy Fd Hbd Hfcb Hed.
  unfold calculateBeamStrength.
  cbn [BeamInput.As BeamInput.b BeamInput.d BeamInput.fc BeamInput.fy
       BeamInput.h BeamResults.rho BeamResults.a BeamResults.Mn
       BeamResults.phiMn BeamResults.isValid].
  assert (HAf : is_zero (As * fy) = true) by (apply mul_zero_finite; assumption).
  assert (Ha : is_zero (As * fy / (0.85 * fc * b)) = true)
    by (apply div_zero_pos; assumption).
  assert (Hc : is_zero (As * fy / (0.85 * fc * b) / calculateBeta1 fc) = true).
  { apply div_zero_pos; [assumption|].
    apply calculateBeta1_pos, ltb_zero_not_nan, Hfc. }
  assert (Ha2 : is_zero (As * fy / (0.85 * fc * b) / 2) = true)
    by (apply div_zero_pos; [assumption|reflexivity]).
  assert (HMn : is_zero (As * fy * (d - As * fy / (0.85 * fc * b) / 2) / 12) = true).
  { apply div_zero_pos; [|reflexivity].
    rewrite (sub_zero_r d _ Hd Ha2). apply mul_zero_finite; assumption. }
  split; [apply div_zero_pos; assumption|].
  split; [exact Ha|].
  split; [exact HMn|].
  split.
  - apply mul_finite_zero; [|exact HMn].
    rewrite (sub_zero_r d _ Hd Hc).
    destruct (calculatePhi_infinity (EPSILON_C_MAX * d
                / (As * fy / (0.85 * fc * b) / calculateBeta1 fc)))
      as [-> | ->]; try reflexivity.
    apply div_pos_zero; assumption.
  - rewrite (is_zero_not_gt As HAs). apply andb_false_r.
Qed.

Lemma C10_no_steel_witness :
  let r := calculateBeamStrength no_steel in
  is_zero (BeamResults.rho r) = true /\ is_zero (BeamResults.a r) = true /\
  is_zero (BeamResults.Mn r) = true /\ is_zero (BeamResults.phiMn r) = true /\
  BeamResults.isValid r = false.
Proof. apply (C10_no_steel no_steel); reflexivity. Defined.

(** ** BarAreaTable *)

Lemma getBarArea_unlisted (barSize : number) :
  ~ In barSize getAvailableBarSizes -> getBarArea barSize = 0.
Proof.
  intros Hnot. unfold getBarArea, barAreas, lookup.
  repeat match goal with
  | |- context [barSize =? ?k] =>
      let E := fresh "E" in
      destruct (barSize =? k) eqn:E;
      [ exfalso; apply Hnot;
        eapply eqb_finite_eq in E; [|reflexivity];
        rewrite E; unfold getAvailableBarSizes; simpl; tauto
      | ]
  end.
  reflexivity.
Qed.

(** C7: the catalog maps the eleven sizes to their areas and every other
    number to [0]; the list of sizes is the eleven sizes in strictly
    ascending order. *)
Theorem C7_bar_catalog :
  getBarArea 3 = 0.11 /\ getBarArea 4 = 0.20 /\ getBarArea 5 = 0.31 /\
  getBarArea 6 = 0.44 /\ getBarArea 7 = 0.60 /\ getBarArea 8 = 0.79 /\
  getBarArea 9 = 1.00 /\ getBarArea 10 = 1.27 /\ getBarArea 11 = 1.56 /\
  getBarArea 14 = 2.25 /\ getBarArea 18 = 4.00 /\
  (forall barSize : number,
      ~ In barSize [3; 4; 5; 6; 7; 8; 9; 10; 11; 14; 18] ->
      getBarArea barSize = 0) /\
  getBarArea 99 = 0 /\
  getAvailableBarSizes = [3; 4; 5; 6; 7; 8; 9; 10; 11; 14; 18] /\
  strictly_ascending getAvailableBarSizes = true.
Proof.
  repeat (split; [reflexivity|]).
  split; [exact getBarArea_unlisted|].
  split; [reflexivity|].
  split; reflexivity.
Qed.

Lemma float_neq (x y : number) :
  (x =? y) = false -> (y =? y) = true -> x <> y.
Proof. intros H1 H2 Heq. subst y. congruence. Qed.

Lemma C7_bar_catalog_witness :
  getBarArea 3.5 = 0 /\ getBarArea nan = 0 /\ getBarArea (-8) = 0.
Proof.
  pose proof C7_bar_catalog as (_&_&_&_&_&_&_&_&_&_&_&H&_).
  repeat split; apply H; simpl;
    repeat (intros [Heq|Hin];
            [revert Heq; apply not_eq_sym, float_neq; reflexivity|revert Hin]);
    intros [].
Defined.

(** * Further properties

    More properties of the calculation module, then of the application
    that calls it ([App.tsx] and its three components). *)

(** ** Floating-point arithmetic, continued *)

(** *** Comparisons and classes of values *)

Lemma leb_not_nan (x y : number) :
  (x <=? y) = true -> is_nan x = false /\ is_nan y = false.
Proof.
  rewrite !is_nan_spec, FloatAxioms.leb_spec. unfold SFleb.
  destruct (Prim2SF x) as [[]|[]| |[] mx ex],
           (Prim2SF y) as [[]|[]| |[] my ey]; simpl; try discriminate; auto.
Qed.

Lemma is_nan_sub_r (x y : number) : is_nan y = true -> is_nan (x - y) = true.
Proof.
  rewrite !is_nan_spec, sub_spec.
  destruct (Prim2SF y) as [[]|[]| |[] my ey]; try discriminate.
  destruct (Prim2SF x) as [[]|[]| |[] mx ex]; reflexivity.
Qed.

Lemma is_nan_div_r (x y : number) : is_nan y = true -> is_nan (x / y) = true.
Proof.
  rewrite !is_nan_spec, div_spec.
  destruct (Prim2SF y) as [[]|[]| |[] my ey]; try discriminate.
  destruct (Prim2SF x) as [[]|[]| |[] mx ex]; reflexivity.
Qed.

Lemma nnf_or_infinity_not_nan (x : number) :
  Prim2SF x = S754_infinity false \/ nnf x = true -> is_nan x = false.
Proof.
  rewrite is_nan_spec. unfold nnf. intros [-> | H]; [reflexivity|].
  destruct (Prim2SF x) as [[]|[]| |[] m e]; try discriminate; reflexivity.
Qed.

Lemma nnf_not_nan (x : number) : nnf x = true -> is_nan x = false.
Proof. intros H. apply nnf_or_infinity_not_nan. right. exact H. Qed.

(** What a number is when it is at least a non-negative one. *)
Lemma leb_nnf_cases (lo n : number) :
  nnf lo = true -> (lo <=? n) = true ->
  Prim2SF n = S754_infinity false \/ nnf n = true.
Proof.
  intros Hl. unfold nnf in *. rewrite FloatAxioms.leb_spec. unfold SFleb.
  destruct (Prim2SF lo) as [[]|[]| |[] ml el]; try discriminate;
    destruct (Prim2SF n) as [[]|[]| |[] m e]; cbn; try discriminate; auto.
Qed.

(** A number between two that are zero or positive and finite is one. *)
Lemma le_nnf (lo x hi : number) :
  nnf lo = true -> nnf hi = true ->
  (lo <=? x) = true -> (x <=? hi) = true -> nnf x = true.
Proof.
  intros Hlo Hhi H1 H2.
  destruct (leb_nnf_cases lo x Hlo H1) as [E|]; [exfalso|assumption].
  rewrite FloatAxioms.leb_spec, E in H2. unfold nnf in Hhi.
  destruct (Prim2SF hi) as [[]|[]| |[] m e]; discriminate.
Qed.

Lemma Qval_lt_overflow (x : number) : (Qval x < F2Q 1 1024)%Q.
Proof.
  unfold Qval. pose proof (Prim2SF_valid x) as Hv.
  destruct (Prim2SF x) as [[]|[]| |[] m e]; cbn [SF2Q];
    try (apply F2Q_pos; lia).
  - cbn [valid_binary] in Hv. apply bounded_lt_overflow in Hv.
    pose proof (F2Q_pos (Zpos m) e ltac:(lia)). lra.
  - cbn [valid_binary] in Hv. apply bounded_lt_overflow in Hv. exact Hv.
Qed.

Lemma pos_finite_spec (x : number) :
  pos_finite x = true -> nnf x = true /\ (0 <? x) = true /\ (0 < Qval x)%Q.
Proof.
  unfold pos_finite, JS.gt. intros H. apply andb_true_iff in H as [Hp Hf].
  assert (Hn : nnf x = true).
  { rewrite is_finite_spec in Hf. rewrite FloatAxioms.ltb_spec in Hp. unfold nnf.
    destruct (Prim2SF x) as [[]|[]| |[] m e]; try discriminate; reflexivity. }
  split; [exact Hn|]. split; [exact Hp|]. apply (ltb_Qlt 0 x eq_refl Hn Hp).
Qed.

(** *** Brackets from below for products, and the order read back *)

Section RoundingBelow.

#[local] Open Scope Z_scope.

Lemma SF64mul_lower (x y lo : spec_float) :
  nonneg_valid x -> nonneg_valid y -> nonneg_valid lo ->
  (SF2Q lo <= SF2Q x * SF2Q y)%Q ->
  SF64mul x y = S754_infinity false \/
  (SFnn (SF64mul x y) = true /\ (SF2Q lo <= SF2Q (SF64mul x y))%Q).
Proof.
  intros [Hx Hvx] [Hy Hvy] Hlo Hle.
  destruct x as [sx|[]| |[] mx ex]; cbn [SFnn] in Hx; try discriminate;
    destruct y as [sy|[]| |[] my ey]; cbn [SFnn] in Hy; try discriminate;
    try (right; split; [reflexivity|]; cbn [SF2Q SF64mul SFmul] in *; lra).
  cbn [SF2Q] in Hle. unfold SF64mul, SFmul. cbn [xorb].
  cbn [valid_binary] in Hvx, Hvy.
  destruct (bounded_canonical mx ex Hvx) as [Hcx _].
  destruct (bounded_canonical my ey Hvy) as [Hcy _].
  change (Zpos (mx * my)) with (Zpos mx * Zpos my).
  apply round_lower_good; try assumption.
  - lia.
  - pose proof (Zdigits2_mul_ge (Zpos mx) (Zpos my)) as Hd.
    destruct (Zdigits2_bounds (Zpos mx)) as (Hdx & _); [lia|].
    destruct (Zdigits2_bounds (Zpos my)) as (Hdy & _); [lia|].
    rewrite fexp_eq in Hcx, Hcy |- *. lia.
  - rewrite F2Q_mul. exact Hle.
Qed.

Lemma SFleb_Qle (x y : spec_float) :
  nonneg_valid x -> nonneg_valid y -> SFleb x y = true -> (SF2Q x <= SF2Q y)%Q.
Proof.
  intros [Hx Hvx] [Hy Hvy]. unfold SFleb.
  destruct x as [sx|[]| |[] mx ex]; cbn [SFnn] in Hx; try discriminate;
    destruct y as [sy|[]| |[] my ey]; cbn [SFnn] in Hy; try discriminate;
    cbn [SFcompare SF2Q]; try discriminate.
  - intros _. apply Qlt_le_weak, F2Q_pos. lia.
  - cbn [valid_binary] in Hvx, Hvy.
    destruct (bounded_canonical mx ex Hvx) as [Hcx _].
    destruct (bounded_canonical my ey Hvy) as [Hcy _].
    destruct (Z.compare_spec ex ey) as [Heq|Hlt|Hgt]; try discriminate.
    + change (Pos.compare_cont Eq mx my) with (Pos.compare mx my).
      destruct (Pos.compare_spec mx my) as [Hm|Hm|]; try discriminate;
        intros _; subst ey; apply F2Q_le; lia.
    + intros _. rewrite fexp_eq in Hcx, Hcy. apply Qlt_le_weak.
      eapply Qlt_le_trans; [apply F2Q_lt_pow; lia|].
      eapply Qle_trans; [|apply F2Q_ge_pow; lia].
      apply F2Q_pow_le. lia.
Qed.

End RoundingBelow.

Lemma mul_lower (x y lo : number) :
  nnf x = true -> nnf y = true -> nnf lo = true ->
  (Qval lo <= Qval x * Qval y)%Q ->
  Prim2SF (x * y) = S754_infinity false \/
  (nnf (x * y) = true /\ (Qval lo <= Qval (x * y))%Q).
Proof.
  intros Hx Hy Hl Hle. unfold nnf, Qval. rewrite mul_spec.
  apply SF64mul_lower; auto using nnf_good.
Qed.

Lemma leb_Qle (x y : number) :
  nnf x = true -> nnf y = true -> (x <=? y) = true -> (Qval x <= Qval y)%Q.
Proof.
  intros Hx Hy. rewrite FloatAxioms.leb_spec.
  apply SFleb_Qle; auto using nnf_good.
Qed.

(** The product of a positive number by one that is at least one is at
    least the number, and positive. *)
Lemma mul_ge_1 (x n : number) :
  nnf x = true -> (0 <? x) = true -> (1 <=? n) = true ->
  (x <=? x * n) = true /\ (0 <? x * n) = true.
Proof.
  intros Hx Hpos Hn.
  assert (Hinf : Prim2SF (x * n) = S754_infinity false ->
                 (x <=? x * n) = true /\ (0 <? x * n) = true).
  { intros E. rewrite FloatAxioms.leb_spec, FloatAxioms.ltb_spec, E.
    unfold nnf in Hx. change (Prim2SF 0) with (S754_zero false).
    destruct (Prim2SF x) as [[]|[]| |[] m e]; try discriminate; split; reflexivity. }
  destruct (leb_nnf_cases 1 n eq_refl Hn) as [E|Hnn].
  - apply Hinf. rewrite mul_spec, E.
    unfold nnf in Hx. rewrite FloatAxioms.ltb_spec in Hpos.
    destruct (Prim2SF x) as [[]|[]| |[] m e]; try discriminate; reflexivity.
  - pose proof (leb_Qle 1 n eq_refl Hnn Hn) as H1.
    change (Qval 1) with (F2Q 4503599627370496 (-52)) in H1.
    assert (H1' : (1 <= Qval n)%Q).
    { eapply Qle_trans; [|exact H1]. vm_compute. discriminate. }
    pose proof (ltb_Qlt 0 x eq_refl Hx Hpos) as Hq.
    change (Qval 0) with 0%Q in Hq.
    destruct (mul_lower x n x Hx Hnn Hx) as [E|[Hp Hle]].
    + nra.
    + apply Hinf, E.
    + split; [apply Qle_leb; assumption|].
      apply not_leb_ltb.
      * rewrite is_nan_spec. unfold nnf in Hp.
        destruct (Prim2SF (x * n)) as [[]|[]| |[] m e]; try discriminate; reflexivity.
      * reflexivity.
      * destruct (x * n <=? 0) eqn:E; [exfalso|reflexivity].
        apply leb_Qle in E; [|assumption|reflexivity].
        change (Qval 0) with 0%Q in E. lra.
Qed.

Lemma mul_nonneg (x y : number) :
  (0 <=? x) = true -> nnf y = true -> (0 <? y) = true -> (0 <=? x * y) = true.
Proof.
  intros Hx Hy Hp.
  destruct (leb_nnf_cases 0 x eq_refl Hx) as [E|Hn].
  - rewrite FloatAxioms.leb_spec, mul_spec, E.
    unfold nnf in Hy. rewrite FloatAxioms.ltb_spec in Hp.
    destruct (Prim2SF y) as [[]|[]| |[] my ey]; try discriminate; reflexivity.
  - destruct (mul_lower x y 0 Hn Hy eq_refl) as [E|[Hm _]].
    + change (Qval 0) with 0%Q.
      pose proof (Qval_nonneg x Hn). pose proof (Qval_nonneg y Hy). nra.
    + rewrite FloatAxioms.leb_spec, E. reflexivity.
    + apply Qle_leb; [reflexivity|assumption|]. apply (Qval_nonneg _ Hm).
Qed.

Lemma mul_finite_inv (x y : number) :
  (0 <=? x) = true -> nnf y = true -> (0 <? y) = true ->
  nnf (x * y) = true -> nnf x = true.
Proof.
  intros Hx Hy Hp Hm.
  destruct (leb_nnf_cases 0 x eq_refl Hx) as [E|Hn]; [exfalso|assumption].
  unfold nnf in *. rewrite mul_spec, E in Hm. rewrite FloatAxioms.ltb_spec in Hp.
  destruct (Prim2SF y) as [[]|[]| |[] my ey]; discriminate.
Qed.

(** *** Rounding to nearest

    The brackets say on which side of a bound a rounded value stays.  That
    rounding keeps the order of two values needs the place of each exact
    value between two neighbours of the grid, which the shift record of
    [binary_round_aux] holds in its round and sticky bits. *)

Section Nearest.

#[local] Open Scope Z_scope.

Lemma half_code_mono (N D N' D' : Z) :
  0 <= N -> 0 < D -> 0 <= N' -> 0 < D' -> N * D' <= N' * D ->
  half_code N D <= half_code N' D'.
Proof.
  intros HN HD HN' HD' Hle. unfold half_code.
  pose proof (Z.div_mod (2 * N) D) as E. pose proof (Z.mod_pos_bound (2 * N) D HD) as B.
  pose proof (Z.div_mod (2 * N') D') as E'. pose proof (Z.mod_pos_bound (2 * N') D' HD') as B'.
  set (q := 2 * N / D) in *. set (r := (2 * N) mod D) in *.
  set (q' := 2 * N' / D') in *. set (r' := (2 * N') mod D') in *.
  clearbody q r q' r'.
  specialize (E ltac:(lia)). specialize (E' ltac:(lia)).
  assert (Hq : q <= q').
  { assert (q * D' < (q' + 1) * D') by nia. nia. }
  destruct (Z.eqb_spec r 0) as [Hr|Hr], (Z.eqb_spec r' 0) as [Hr'|Hr']; try lia.
  assert (q < q'); [|lia].
  assert (q <> q'); [|lia]. intros ->. nia.
Qed.

Lemma rec_code_nonneg (mrs : shr_record) : 0 <= rec_code mrs -> 0 <= shr_m mrs.
Proof.
  unfold rec_code. destruct (shr_r mrs), (shr_s mrs); simpl Z.b2z; lia.
Qed.

Lemma half_code_nonneg (N D : Z) : 0 <= N -> 0 < D -> 0 <= half_code N D.
Proof.
  intros HN HD. unfold half_code.
  assert (0 <= 2 * N / D) by (apply Z.div_pos; lia).
  destruct (_ =? 0); lia.
Qed.

Lemma shr_1_code (mrs : shr_record) :
  0 <= shr_m mrs ->
  rec_code (shr_1 mrs)
  = 2 * (rec_code mrs / 4) + (if rec_code mrs mod 4 =? 0 then 0 else 1).
Proof.
  destruct mrs as [m r s]. unfold rec_code. cbn [shr_m shr_r shr_s].
  intros Hm.
  destruct m as [|[p|p|]|p]; try lia; cbn [shr_1 shr_m shr_r shr_s];
    try change (Zpos p~1) with (2 * Zpos p + 1);
    try change (Zpos p~0) with (2 * Zpos p);
    destruct r, s; cbn [orb Z.b2z];
    match goal with |- context [?a mod 4 =? 0] => destruct (Z.eqb_spec (a mod 4) 0) end;
    Z.div_mod_to_equations; lia.
Qed.

Lemma half_code_double (N D : Z) :
  0 <= N -> 0 < D ->
  half_code N (2 * D)
  = 2 * (half_code N D / 4) + (if half_code N D mod 4 =? 0 then 0 else 1).
Proof.
  intros HN HD. unfold half_code.
  pose proof (Z.div_mod (2 * N) D ltac:(lia)) as E.
  pose proof (Z.mod_pos_bound (2 * N) D HD) as B.
  pose proof (Z.div_mod (2 * N) (2 * D) ltac:(lia)) as E'.
  pose proof (Z.mod_pos_bound (2 * N) (2 * D) ltac:(lia)) as B'.
  set (q := 2 * N / D) in *. set (r := (2 * N) mod D) in *.
  set (q' := 2 * N / (2 * D)) in *. set (r' := (2 * N) mod (2 * D)) in *.
  clearbody q r q' r'.
  assert (Hq : q = 2 * q' \/ q = 2 * q' + 1).
  { assert (2 * q' * D <= q * D + r) by nia.
    assert (q * D < (2 * q' + 2) * D) by nia.
    assert (2 * q' * D < (q + 1) * D) by nia.
    assert (2 * q' < q + 1) by nia. assert (q < 2 * q' + 2) by nia. lia. }
  destruct (Z.eqb_spec r 0) as [Hr|Hr], (Z.eqb_spec r' 0) as [Hr'|Hr'];
    match goal with |- context [?a mod 4 =? 0] => destruct (Z.eqb_spec (a mod 4) 0) end;
    destruct Hq as [-> | ->]; Z.div_mod_to_equations; nia.
Qed.

Lemma shr_1_half_code (mrs : shr_record) (N D : Z) :
  0 <= N -> 0 < D -> rec_code mrs = half_code N D ->
  rec_code (shr_1 mrs) = half_code N (2 * D).
Proof.
  intros HN HD H.
  rewrite shr_1_code, H, half_code_double by
    (try apply rec_code_nonneg; try rewrite H; try apply half_code_nonneg; lia).
  reflexivity.
Qed.

Lemma iter_pos_half_code (p : positive) (mrs : shr_record) (N D : Z) :
  0 <= N -> 0 < D -> rec_code mrs = half_code N D ->
  rec_code (SpecFloat.iter_pos shr_1 p mrs) = half_code N (D * 2 ^ Zpos p).
Proof.
  intros HN. revert mrs D.
  induction p as [p IH|p IH|]; intros mrs D HD H; cbn [SpecFloat.iter_pos].
  - assert (Hp : 0 < 2 ^ Zpos p) by (apply Z.pow_pos_nonneg; lia).
    replace (D * 2 ^ Zpos p~1) with ((2 * D) * 2 ^ Zpos p * 2 ^ Zpos p).
    + apply IH; [nia|]. apply IH; [lia|]. apply shr_1_half_code; assumption.
    + replace (Zpos p~1) with (1 + (Zpos p + Zpos p)) by lia.
      rewrite !Z.pow_add_r by lia. change (2 ^ 1) with 2. ring.
  - assert (Hp : 0 < 2 ^ Zpos p) by (apply Z.pow_pos_nonneg; lia).
    replace (D * 2 ^ Zpos p~0) with (D * 2 ^ Zpos p * 2 ^ Zpos p).
    + apply IH; [nia|]. apply IH; assumption.
    + replace (Zpos p~0) with (Zpos p + Zpos p) by lia.
      rewrite !Z.pow_add_r by lia. ring.
  - change (2 ^ 1) with 2. rewrite Z.mul_comm. apply shr_1_half_code; assumption.
Qed.

Lemma shr_half_code (mrs : shr_record) (e n N D : Z) :
  0 <= N -> 0 < D -> rec_code mrs = half_code N D ->
  rec_code (fst (shr mrs e n)) = half_code N (D * 2 ^ Z.max n 0).
Proof.
  intros HN HD H. destruct n as [|p|p]; cbn [shr fst Z.max Z.compare].
  - change (2 ^ 0) with 1. rewrite Z.mul_1_r. exact H.
  - change (Z.max (Zpos p) 0) with (Zpos p). apply iter_pos_half_code; assumption.
  - change (Z.max (Zneg p) 0) with 0. change (2 ^ 0) with 1.
    rewrite Z.mul_1_r. exact H.
Qed.

Lemma half_code_m (mrs : shr_record) (N D : Z) :
  0 <= N -> 0 < D -> rec_code mrs = half_code N D -> shr_m mrs = N / D.
Proof.
  intros HN HD. unfold rec_code, half_code.
  pose proof (Z.div_mod (2 * N) D ltac:(lia)) as E.
  pose proof (Z.mod_pos_bound (2 * N) D HD) as B.
  pose proof (Z.div_mod N D ltac:(lia)) as E'.
  pose proof (Z.mod_pos_bound N D HD) as B'.
  set (q := 2 * N / D) in *. set (r := (2 * N) mod D) in *.
  set (q' := N / D) in *. set (r' := N mod D) in *. clearbody q r q' r'.
  destruct (shr_r mrs), (shr_s mrs), (Z.eqb_spec r 0); cbn [Z.b2z]; intros H;
    try lia; nia.
Qed.

Lemma rec_round_mono (a b : shr_record) :
  rec_code a <= rec_code b -> rec_round a <= rec_round b.
Proof.
  destruct a as [m r s], b as [m' r' s']. unfold rec_code, rec_round.
  cbn [shr_m shr_r shr_s]. intros H.
  assert (Hm : m < m' \/ m = m').
  { destruct r, s, r', s'; cbn [Z.b2z] in H; lia. }
  destruct Hm as [Hm| <-].
  - assert (H1 : round_nearest_even m (loc_of_shr_record (Build_shr_record m r s)) <= m + 1).
    { destruct r, s; simpl; try destruct (Z.even m); lia. }
    assert (H2 : m' <= round_nearest_even m' (loc_of_shr_record (Build_shr_record m' r' s'))).
    { destruct r', s'; simpl; try destruct (Z.even m'); lia. }
    lia.
  - destruct r, s, r', s'; cbn [Z.b2z] in H; try lia; simpl;
      destruct (Z.even m); lia.
Qed.

Lemma rec_round_cases (mrs : shr_record) :
  rec_round mrs = shr_m mrs \/ rec_round mrs = shr_m mrs + 1.
Proof.
  unfold rec_round.
  destruct (round_nearest_even_cases (shr_m mrs) (loc_of_shr_record mrs))
    as [H|[H _]]; auto.
Qed.

(** The rounding of [binary_round_aux], with the place of the exact value
    kept: the record that is rounded holds the place of the value on the
    grid of the result. *)
Lemma binary_round_aux_nearest (mx ex : Z) (lx : location) (N D : Z) :
  0 <= N -> 0 < D ->
  rec_code (shr_record_of_loc mx lx) = half_code N D ->
  ex <= fexp prec emax (Zdigits2 mx + ex) ->
  let e1 := fexp prec emax (Zdigits2 mx + ex) in
  exists mrs,
    rec_code mrs = half_code N (D * 2 ^ (e1 - ex)) /\
    shr_m mrs = mx / 2 ^ (e1 - ex) /\
    rounded (binary_round_aux prec emax false mx ex lx) (rec_round mrs) e1.
Proof.
  intros HN HD Hcode Hex e1.
  assert (Hmx : 0 <= mx).
  { rewrite <- (shr_record_of_loc_m mx lx). apply rec_code_nonneg.
    rewrite Hcode. apply half_code_nonneg; assumption. }
  unfold binary_round_aux.
  assert (Hshr : shr_fexp prec emax mx ex lx
                 = shr (shr_record_of_loc mx lx) ex (e1 - ex)) by reflexivity.
  rewrite Hshr.
  assert (Hm0 : 0 <= shr_m (shr_record_of_loc mx lx))
    by (rewrite shr_record_of_loc_m; assumption).
  destruct (shr_spec (shr_record_of_loc mx lx) ex (e1 - ex) Hm0)
    as (Hs1 & Hs2 & _).
  pose proof (shr_half_code (shr_record_of_loc mx lx) ex (e1 - ex) N D HN HD Hcode)
    as Hc.
  destruct (shr (shr_record_of_loc mx lx) ex (e1 - ex)) as [mrs' e'].
  cbn [fst snd] in Hs1, Hs2, Hc.
  rewrite shr_record_of_loc_m in Hs2.
  replace (Z.max (e1 - ex) 0) with (e1 - ex) in * by lia.
  assert (He' : e' = e1) by lia. clear Hs1. subst e'.
  cbv beta iota.
  exists mrs'. split; [exact Hc|]. split; [exact Hs2|].
  fold (rec_round mrs').
  set (mr := rec_round mrs').
  assert (Hmr' : mr = mx / 2 ^ (e1 - ex) \/ mr = mx / 2 ^ (e1 - ex) + 1).
  { unfold mr. rewrite <- Hs2. apply rec_round_cases. }
  assert (Hm1 : 0 <= mx / 2 ^ (e1 - ex))
    by (apply Z.div_pos; [assumption|apply pow2_pos; lia]).
  destruct (round_digits mx ex mr Hmx Hex Hmr') as [Hn2 Hov].
  fold e1 in Hn2, Hov.
  set (n2 := fexp prec emax (Zdigits2 mr + e1) - e1) in *.
  assert (Hshr2 : shr_fexp prec emax mr e1 loc_Exact
                  = shr (shr_record_of_loc mr loc_Exact) e1 n2) by reflexivity.
  rewrite Hshr2.
  assert (Hmr0 : 0 <= shr_m (shr_record_of_loc mr loc_Exact)) by (simpl; lia).
  destruct (shr_spec (shr_record_of_loc mr loc_Exact) e1 n2 Hmr0)
    as (Ht1 & Ht2 & _).
  destruct (shr (shr_record_of_loc mr loc_Exact) e1 n2) as [mrs'' e''].
  simpl in Ht1, Ht2. cbv beta iota.
  assert (Hexact : mr = shr_m mrs'' * 2 ^ (e'' - e1)).
  { rewrite Ht1, Ht2. replace (e1 + Z.max n2 0 - e1) with (Z.max n2 0) by lia.
    destruct Hn2 as [Hn|[Hn Hev]].
    - replace (Z.max n2 0) with 0 by lia. rewrite Z.div_1_r. simpl. lia.
    - replace (Z.max n2 0) with 1 by lia. change (2 ^ 1) with 2. lia. }
  assert (Hpow : 0 < 2 ^ (e'' - e1)) by (apply pow2_pos; lia).
  destruct (shr_m mrs'') as [|m2|m2] eqn:Hm2.
  - unfold rounded. lia.
  - destruct (Z.leb_spec e'' (emax - prec)) as [Hle|Hgt]; unfold rounded.
    + change (emax - prec) with 971 in Hle.
      split; [lia|]. split; [lia|exact Hexact].
    + apply Hov. change (emax - prec) with 971 in Hgt. lia.
  - exfalso. assert (0 <= mr) by lia. nia.
Qed.

(** Mantissa after truncation: below [2^53], and at least [2^52] above the
    subnormal range. *)
Lemma truncated_bounds (mx ex : Z) :
  0 <= mx ->
  let e1 := fexp prec emax (Zdigits2 mx + ex) in
  ex <= e1 ->
  mx / 2 ^ (e1 - ex) < 2 ^ 53 /\
  (-1074 < e1 -> 2 ^ 52 <= mx / 2 ^ (e1 - ex)).
Proof.
  intros Hmx e1 Hex.
  assert (He1 : e1 = Z.max (Zdigits2 mx + ex - 53) (-1074)) by apply fexp_eq.
  clearbody e1.
  pose proof (pow2_pos (e1 - ex) ltac:(lia)) as Hp.
  destruct (Z.eq_dec mx 0) as [->|Hnz].
  { simpl in He1. rewrite Z.div_0_l by lia. split; [reflexivity|lia]. }
  destruct (Zdigits2_bounds mx ltac:(lia)) as (Hd & Hlo & Hhi).
  set (d := Zdigits2 mx) in *. clearbody d.
  split.
  - apply Z.div_lt_upper_bound; [assumption|].
    eapply Z.lt_le_trans; [exact Hhi|].
    rewrite <- Z.pow_add_r by lia. apply Z.pow_le_mono_r; lia.
  - intros Hn. apply Z.div_le_lower_bound; [assumption|].
    rewrite <- Z.pow_add_r by lia.
    eapply Z.le_trans; [|exact Hlo]. apply Z.pow_le_mono_r; lia.
Qed.

(** The magnitude of a value between [mx * 2^ex] and [(mx + 1) * 2^ex]. *)
Lemma F2Q_succ_le_pow (m e : Z) :
  0 <= m -> (F2Q (m + 1) e <= F2Q 1 (Zdigits2 m + e))%Q.
Proof.
  intros Hm. destruct (Z.eq_dec m 0) as [->|Hnz]; [apply Qle_refl|].
  destruct (Zdigits2_bounds m ltac:(lia)) as (Hd & _ & Hhi).
  rewrite (Z.add_comm (Zdigits2 m) e).
  rewrite <- F2Q_shift by lia. apply F2Q_le. lia.
Qed.

Lemma F2Q_scale (m c e : Z) : (F2Q (m * c) e == F2Q m e * inject_Z c)%Q.
Proof. unfold F2Q. rewrite inject_Z_mult. ring. Qed.

(** Rounding is monotone: of two values in order, each given by its
    mantissa, its exponent and what lies below, the rounded values are in
    order. *)
Lemma round_mono (mx ex : Z) (lx : location) (Nx Dx my ey : Z) (ly : location)
    (Ny Dy : Z) :
  0 <= Nx -> 0 < Dx -> 0 <= Ny -> 0 < Dy ->
  rec_code (shr_record_of_loc mx lx) = half_code Nx Dx ->
  rec_code (shr_record_of_loc my ly) = half_code Ny Dy ->
  ex <= fexp prec emax (Zdigits2 mx + ex) ->
  ey <= fexp prec emax (Zdigits2 my + ey) ->
  (F2Q (Nx * Dy) ex <= F2Q (Ny * Dx) ey)%Q ->
  nonneg_valid (binary_round_aux prec emax false my ey ly) ->
  SFnn (binary_round_aux prec emax false mx ex lx) = true /\
  (SF2Q (binary_round_aux prec emax false mx ex lx)
   <= SF2Q (binary_round_aux prec emax false my ey ly))%Q.
Proof.
  intros HNx HDx HNy HDy Hcx Hcy Hex Hey Hle [Hny Hvy].
  pose proof (half_code_m _ _ _ HNx HDx Hcx) as Hmx.
  pose proof (half_code_m _ _ _ HNy HDy Hcy) as Hmy.
  rewrite shr_record_of_loc_m in Hmx, Hmy.
  assert (Hmx0 : 0 <= mx) by (rewrite Hmx; apply Z.div_pos; lia).
  assert (Hmy0 : 0 <= my) by (rewrite Hmy; apply Z.div_pos; lia).
  assert (Hfx : mx * Dx <= Nx).
  { rewrite Hmx, Z.mul_comm. apply Z.mul_div_le. lia. }
  assert (Hfy : Ny < (my + 1) * Dy).
  { rewrite Hmy, Z.mul_comm. apply (Z.mul_succ_div_gt Ny Dy). lia. }
  assert (Hlt : (F2Q mx ex < F2Q (my + 1) ey)%Q).
  { apply Qmult_lt_r with (inject_Z (Dx * Dy)).
    - change 0%Q with (inject_Z 0). rewrite <- Zlt_Qlt. nia.
    - rewrite <- !F2Q_scale.
      apply Qle_lt_trans with (F2Q (Nx * Dy) ex); [apply F2Q_le; nia|].
      eapply Qle_lt_trans; [exact Hle|]. apply F2Q_lt. nia. }
  destruct (binary_round_aux_nearest mx ex lx Nx Dx HNx HDx Hcx Hex)
    as (ax & Hax & Hsx & Hrx).
  destruct (binary_round_aux_nearest my ey ly Ny Dy HNy HDy Hcy Hey)
    as (ay & Hay & Hsy & Hry).
  enough (Hcore : (F2Q (rec_round ax) (fexp prec emax (Zdigits2 mx + ex))
                   <= F2Q (rec_round ay) (fexp prec emax (Zdigits2 my + ey)))%Q).
  { rewrite <- (rounded_SF2Q _ _ _ Hry Hny) in Hcore.
    assert (Hnx : SFnn (binary_round_aux prec emax false mx ex lx) = true).
    { destruct (rounded_cases _ _ _ Hrx) as [|Hinf]; [assumption|exfalso].
      rewrite Hinf in Hrx. cbn [rounded] in Hrx.
      destruct (binary_round_aux prec emax false my ey ly)
        as [sy|[]| |[] m2 e2]; cbn [SFnn] in Hny; try discriminate;
        cbn [SF2Q] in Hcore.
      - apply (Qlt_irrefl 0). eapply Qlt_le_trans; [|exact Hcore].
        eapply Qlt_le_trans; [|exact Hrx]. apply F2Q_pos. lia.
      - cbn [valid_binary] in Hvy. apply bounded_lt_overflow in Hvy.
        apply (Qlt_irrefl (F2Q 1 1024)).
        eapply Qle_lt_trans; [exact Hrx|].
        eapply Qle_lt_trans; [exact Hcore|exact Hvy]. }
    split; [exact Hnx|]. rewrite (rounded_SF2Q _ _ _ Hrx Hnx). exact Hcore. }
  destruct (truncated_bounds mx ex Hmx0 Hex) as [Hbx _].
  destruct (truncated_bounds my ey Hmy0 Hey) as [_ Hby].
  rewrite <- Hsx in Hbx. rewrite <- Hsy in Hby.
  assert (Hee : fexp prec emax (Zdigits2 mx + ex)
                <= fexp prec emax (Zdigits2 my + ey)).
  { destruct (Z.eq_dec mx 0) as [Hz|Hnz].
    - rewrite Hz in Hex |- *. rewrite !fexp_eq in *. simpl Zdigits2 in *. lia.
    - apply fexp_mono.
      assert (Hp : (F2Q 1 (Zdigits2 mx + ex - 1) < F2Q 1 (Zdigits2 my + ey))%Q).
      { eapply Qle_lt_trans; [apply F2Q_ge_pow; lia|].
        eapply Qlt_le_trans; [exact Hlt|]. apply F2Q_succ_le_pow. lia. }
      destruct (Z.le_gt_cases (Zdigits2 my + ey) (Zdigits2 mx + ex - 1))
        as [Hc|Hc]; [exfalso|lia].
      apply F2Q_pow_le in Hc. apply (Qlt_irrefl (F2Q 1 (Zdigits2 my + ey))).
      eapply Qle_lt_trans; eassumption. }
  assert (Hsub : -1074 <= fexp prec emax (Zdigits2 mx + ex))
    by (rewrite fexp_eq; lia).
  set (e1x := fexp prec emax (Zdigits2 mx + ex)) in *.
  set (e1y := fexp prec emax (Zdigits2 my + ey)) in *.
  clearbody e1x e1y.
  pose proof (rec_round_cases ax) as Hcax.
  pose proof (rec_round_cases ay) as Hcay.
  destruct (Z.eq_dec e1x e1y) as [Heq|Hne].
  - subst e1y. apply F2Q_le. apply rec_round_mono.
    rewrite Hax, Hay.
    pose proof (pow2_pos (e1x - ex) ltac:(lia)).
    pose proof (pow2_pos (e1x - ey) ltac:(lia)).
    apply half_code_mono; try nia.
    rewrite !Z.mul_assoc. apply (F2Q_le _ _ (ex - (e1x - ey))).
    rewrite !F2Q_shift by lia.
    replace (ex - (e1x - ey) + (e1x - ey)) with ex by lia.
    replace (ex - (e1x - ey) + (e1x - ex)) with ey by lia.
    exact Hle.
  - apply F2Q_le_align; [lia|].
    specialize (Hby ltac:(lia)).
    assert (Hp : 2 ^ 1 <= 2 ^ (e1y - e1x)) by (apply Z.pow_le_mono_r; lia).
    change (2 ^ 1) with 2 in Hp.
    change (2 ^ 53) with 9007199254740992 in Hbx.
    change (2 ^ 52) with 4503599627370496 in Hby.
    nia.
Qed.

End Nearest.

(** *** The four operations keep the order *)

Section Monotone.

#[local] Open Scope Z_scope.

Lemma exact_code (M : Z) :
  rec_code (shr_record_of_loc M loc_Exact) = half_code M 1.
Proof.
  unfold rec_code, half_code. cbn [shr_record_of_loc shr_m shr_r shr_s Z.b2z].
  rewrite Z.div_1_r, Z.mod_1_r. cbn [Z.eqb]. lia.
Qed.

Lemma round_exact_mono (mx ex my ey : Z) :
  0 <= mx -> 0 <= my ->
  ex <= fexp prec emax (Zdigits2 mx + ex) ->
  ey <= fexp prec emax (Zdigits2 my + ey) ->
  (F2Q mx ex <= F2Q my ey)%Q ->
  nonneg_valid (binary_round_aux prec emax false my ey loc_Exact) ->
  SFnn (binary_round_aux prec emax false mx ex loc_Exact) = true /\
  (SF2Q (binary_round_aux prec emax false mx ex loc_Exact)
   <= SF2Q (binary_round_aux prec emax false my ey loc_Exact))%Q.
Proof.
  intros Hmx Hmy Hex Hey Hle Hr.
  apply (round_mono mx ex loc_Exact mx 1 my ey loc_Exact my 1);
    try lia; try apply exact_code; try assumption.
  rewrite !Z.mul_1_r. exact Hle.
Qed.

Lemma binary_normalize_mono (M e M' e' : Z) :
  0 <= M -> 0 <= M' -> (F2Q M e <= F2Q M' e')%Q ->
  nonneg_valid (binary_normalize prec emax M' e' false) ->
  SFnn (binary_normalize prec emax M e false) = true /\
  (SF2Q (binary_normalize prec emax M e false)
   <= SF2Q (binary_normalize prec emax M' e' false))%Q.
Proof.
  intros HM HM' Hle Hr'.
  destruct M as [|m|m]; [| |lia].
  - cbn [binary_normalize]. split; [reflexivity|]. cbn [SF2Q].
    apply SFnn_nonneg, Hr'.
  - destruct M' as [|m'|m']; [| |lia].
    + exfalso. rewrite F2Q_0 in Hle. apply (Qlt_irrefl 0).
      eapply Qlt_le_trans; [|exact Hle]. apply F2Q_pos. lia.
    + cbn [binary_normalize] in *.
      destruct (binary_round_pre m e) as (mz & ez & -> & Hpre & Hv).
      destruct (binary_round_pre m' e') as (mz' & ez' & Hr & Hpre' & Hv').
      rewrite Hr in *.
      apply round_exact_mono; try lia; try assumption.
      rewrite Hv, Hv'. exact Hle.
Qed.

(** Products. *)
Lemma SF64mul_mono (x y x' y' : spec_float) :
  nonneg_valid x -> nonneg_valid y -> nonneg_valid x' -> nonneg_valid y' ->
  (SF2Q x * SF2Q y <= SF2Q x' * SF2Q y')%Q ->
  nonneg_valid (SF64mul x' y') ->
  SFnn (SF64mul x y) = true /\
  (SF2Q (SF64mul x y) <= SF2Q (SF64mul x' y'))%Q.
Proof.
  intros [Hx Hvx] [Hy Hvy] [Hx' Hvx'] [Hy' Hvy'] Hle Hr'.
  destruct x as [sx|[]| |[] mx ex]; cbn [SFnn] in Hx; try discriminate;
    destruct y as [sy|[]| |[] my ey]; cbn [SFnn] in Hy; try discriminate;
    try (split; [reflexivity|]; cbn [SF2Q SF64mul SFmul];
         apply SFnn_nonneg, Hr').
  assert (Hpos : (0 < SF2Q x' * SF2Q y')%Q).
  { eapply Qlt_le_trans; [|exact Hle]. cbn [SF2Q].
    pose proof (F2Q_pos (Zpos mx) ex ltac:(lia)).
    pose proof (F2Q_pos (Zpos my) ey ltac:(lia)). nra. }
  destruct x' as [sx'|[]| |[] mx' ex']; cbn [SFnn] in Hx'; try discriminate;
    destruct y' as [sy'|[]| |[] my' ey']; cbn [SFnn] in Hy'; try discriminate;
    cbn [SF2Q] in Hpos; try (exfalso; lra).
  cbn [SF2Q] in Hle. unfold SF64mul, SFmul in *. cbn [xorb] in *.
  cbn [valid_binary] in Hvx, Hvy, Hvx', Hvy'.
  destruct (bounded_canonical mx ex Hvx) as [Hcx _].
  destruct (bounded_canonical my ey Hvy) as [Hcy _].
  destruct (bounded_canonical mx' ex' Hvx') as [Hcx' _].
  destruct (bounded_canonical my' ey' Hvy') as [Hcy' _].
  change (Zpos (mx * my)) with (Zpos mx * Zpos my).
  change (Zpos (mx' * my')) with (Zpos mx' * Zpos my') in *.
  apply round_exact_mono; try lia; try assumption.
  - pose proof (Zdigits2_mul_ge (Zpos mx) (Zpos my)) as Hd.
    destruct (Zdigits2_bounds (Zpos mx)) as (Hdx & _); [lia|].
    destruct (Zdigits2_bounds (Zpos my)) as (Hdy & _); [lia|].
    rewrite fexp_eq in Hcx, Hcy |- *. lia.
  - pose proof (Zdigits2_mul_ge (Zpos mx') (Zpos my')) as Hd.
    destruct (Zdigits2_bounds (Zpos mx')) as (Hdx & _); [lia|].
    destruct (Zdigits2_bounds (Zpos my')) as (Hdy & _); [lia|].
    rewrite fexp_eq in Hcx', Hcy' |- *. lia.
  - rewrite !F2Q_mul. exact Hle.
Qed.

(** Differences. *)
Lemma SF64sub_mono (x y x' y' : spec_float) :
  nonneg_valid x -> nonneg_valid y -> nonneg_valid x' -> nonneg_valid y' ->
  (SF2Q y <= SF2Q x)%Q -> (SF2Q y' <= SF2Q x')%Q ->
  (SF2Q x - SF2Q y <= SF2Q x' - SF2Q y')%Q ->
  nonneg_valid (SF64sub x' y') -> valid_binary (SF64sub x y) = true ->
  SFnn (SF64sub x y) = true /\
  (SF2Q (SF64sub x y) <= SF2Q (SF64sub x' y'))%Q.
Proof.
  intros Hx Hy Hx' Hy' Hyx Hyx' Hle Hr' Hvr.
  assert (Hup : SFnn (SF64sub x y) = true).
  { apply (SF64sub_upper x y x); try assumption.
    pose proof (SFnn_nonneg y (proj1 Hy)). lra. }
  split; [exact Hup|].
  assert (Hexact : forall u v, nonneg_valid u -> nonneg_valid v ->
            (SF2Q v <= SF2Q u)%Q -> SFis_zero v = true ->
            (SF2Q (SF64sub u v) == SF2Q u - SF2Q v)%Q).
  { intros u v [Hu _] [Hv _] Hvu Hz.
    destruct v as [sv| | |]; try discriminate.
    destruct u as [su|[]| |[] mu eu]; cbn [SFnn] in Hu; try discriminate.
    - destruct su, sv; cbn [SF64sub SFsub SF2Q]; reflexivity.
    - cbn [SF64sub SFsub SF2Q]. ring. }
  destruct (SFis_zero y) eqn:Hzy.
  - destruct (SF64sub_lower x' y' (SF64sub x y)) as [Hinf|[_ H]];
      try assumption.
    + split; assumption.
    + rewrite Hexact by assumption. exact Hle.
    + destruct Hr' as [Hr' _]. rewrite Hinf in Hr'. discriminate Hr'.
  - destruct (SFis_zero y') eqn:Hzy'.
    + destruct (SF64sub_upper x y (SF64sub x' y')) as [_ H]; try assumption.
      rewrite Hexact by assumption. exact Hle.
    + destruct Hx as [Hx Hvx], Hy as [Hy Hvy], Hx' as [Hx' Hvx'],
        Hy' as [Hy' Hvy'].
      destruct y as [sy|[]| |[] my ey]; cbn [SFnn SFis_zero] in Hy, Hzy;
        try discriminate.
      destruct y' as [sy'|[]| |[] my' ey']; cbn [SFnn SFis_zero] in Hy', Hzy';
        try discriminate.
      cbn [SF2Q] in Hyx, Hyx', Hle.
      pose proof (F2Q_pos (Zpos my) ey ltac:(lia)) as Hpy.
      pose proof (F2Q_pos (Zpos my') ey' ltac:(lia)) as Hpy'.
      destruct x as [sx|[]| |[] mx ex]; cbn [SFnn] in Hx; try discriminate.
      destruct x' as [sx'|[]| |[] mx' ex']; cbn [SFnn] in Hx'; try discriminate;
        [cbn [SF2Q] in Hyx'; exfalso; lra|].
      cbn [SF2Q] in Hyx, Hyx', Hle.
      destruct (SFsub_finite mx ex my ey) as (M & HM & Hv).
      destruct (SFsub_finite mx' ex' my' ey') as (M' & HM' & Hv').
      rewrite HM, HM' in *.
      apply binary_normalize_mono; try assumption.
      * apply (F2Q_nonneg_inv M (Z.min ex ey)). rewrite Hv. lra.
      * apply (F2Q_nonneg_inv M' (Z.min ex' ey')). rewrite Hv'. lra.
      * rewrite Hv, Hv'. exact Hle.
Qed.

(** Sums. *)
Lemma SF64add_mono (x y x' y' : spec_float) :
  nonneg_valid x -> nonneg_valid y -> nonneg_valid x' -> nonneg_valid y' ->
  (SF2Q x + SF2Q y <= SF2Q x' + SF2Q y')%Q ->
  nonneg_valid (SF64add x' y') -> valid_binary (SF64add x y) = true ->
  SFnn (SF64add x y) = true /\
  (SF2Q (SF64add x y) <= SF2Q (SF64add x' y'))%Q.
Proof.
  intros Hx Hy Hx' Hy' Hle Hr' Hvr.
  assert (Hexact : forall u v, nonneg_valid u -> nonneg_valid v ->
            SFis_zero u || SFis_zero v = true ->
            SFnn (SF64add u v) = true /\
            (SF2Q (SF64add u v) == SF2Q u + SF2Q v)%Q).
  { intros u v [Hu _] [Hv _] Hz.
    destruct u as [su|[]| |[] mu eu]; cbn [SFnn] in Hu; try discriminate;
      destruct v as [sv|[]| |[] mv ev]; cbn [SFnn] in Hv; try discriminate;
      try discriminate Hz.
    - destruct su, sv; cbn [SF64add SFadd SF2Q SFnn]; split; reflexivity.
    - cbn [SF64add SFadd SF2Q SFnn]. split; [reflexivity|ring].
    - cbn [SF64add SFadd SF2Q SFnn]. split; [reflexivity|ring]. }
  destruct (SFis_zero x || SFis_zero y) eqn:Hz.
  - destruct (Hexact x y Hx Hy Hz) as [Hn Hv]. split; [exact Hn|].
    destruct (SF64add_lower x' y' (SF64add x y)) as [Hinf|[_ H]];
      try assumption.
    + split; assumption.
    + rewrite Hv. exact Hle.
    + destruct Hr' as [Hr' _]. rewrite Hinf in Hr'. discriminate Hr'.
  - destruct (SFis_zero x' || SFis_zero y') eqn:Hz'.
    + destruct (Hexact x' y' Hx' Hy' Hz') as [Hn' Hv'].
      apply SF64add_upper; try assumption. rewrite Hv'. exact Hle.
    + apply orb_false_iff in Hz, Hz'.
      destruct Hz as [Hzx Hzy], Hz' as [Hzx' Hzy'].
      destruct Hx as [Hx Hvx], Hy as [Hy Hvy], Hx' as [Hx' Hvx'],
        Hy' as [Hy' Hvy'].
      destruct x as [sx|[]| |[] mx ex]; cbn [SFnn SFis_zero] in Hx, Hzx;
        try discriminate.
      destruct y as [sy|[]| |[] my ey]; cbn [SFnn SFis_zero] in Hy, Hzy;
        try discriminate.
      destruct x' as [sx'|[]| |[] mx' ex']; cbn [SFnn SFis_zero] in Hx', Hzx';
        try discriminate.
      destruct y' as [sy'|[]| |[] my' ey']; cbn [SFnn SFis_zero] in Hy', Hzy';
        try discriminate.
      cbn [SF2Q] in Hle.
      destruct (SFadd_finite mx ex my ey) as (M & HMp & HM & Hv).
      destruct (SFadd_finite mx' ex' my' ey') as (M' & HMp' & HM' & Hv').
      rewrite HM, HM' in *.
      apply binary_normalize_mono; try assumption; try lia.
      rewrite Hv, Hv'. exact Hle.
Qed.

(** Quotients: the place of the exact quotient. *)
Lemma new_location_code (q my r : Z) :
  0 < my -> 0 <= r < my ->
  rec_code (shr_record_of_loc q (new_location my r))
  = half_code (q * my + r) my.
Proof.
  intros Hmy Hr. unfold new_location, new_location_even, new_location_odd.
  unfold half_code.
  pose proof (Z.div_mod (2 * (q * my + r)) my ltac:(lia)) as E.
  pose proof (Z.mod_pos_bound (2 * (q * my + r)) my Hmy) as B.
  set (Q := 2 * (q * my + r) / my) in *.
  set (R := (2 * (q * my + r)) mod my) in *. clearbody Q R.
  assert (Hodd : Z.even my = false -> exists k, my = 2 * k + 1).
  { intros He. apply Z.odd_spec. rewrite <- Z.negb_even, He. reflexivity. }
  destruct (Z.even my) eqn:Hev.
  - destruct (Z.eqb_spec r 0) as [Hr0|Hr0].
    + unfold rec_code. cbn [shr_record_of_loc shr_m shr_r shr_s Z.b2z].
      destruct (Z.eqb_spec R 0); nia.
    + destruct (Z.compare_spec (2 * r) my) as [Hc|Hc|Hc];
        unfold rec_code; cbn [shr_record_of_loc shr_m shr_r shr_s Z.b2z];
        destruct (Z.eqb_spec R 0); nia.
  - destruct (Hodd eq_refl) as [k Hk].
    destruct (Z.eqb_spec r 0) as [Hr0|Hr0].
    + unfold rec_code. cbn [shr_record_of_loc shr_m shr_r shr_s Z.b2z].
      destruct (Z.eqb_spec R 0); nia.
    + destruct (Z.compare_spec (2 * r + 1) my) as [Hc|Hc|Hc];
        unfold rec_code; cbn [shr_record_of_loc shr_m shr_r shr_s Z.b2z];
        destruct (Z.eqb_spec R 0); nia.
Qed.

Lemma SFdiv_core_code (mx : positive) (ex : Z) (my : positive) (ey : Z) :
  exists q e' lz N,
    SFdiv_core_binary prec emax (Zpos mx) ex (Zpos my) ey = (q, e', lz) /\
    0 <= N /\ e' <= fexp prec emax (Zdigits2 q + e') /\
    rec_code (shr_record_of_loc q lz) = half_code N (Zpos my) /\
    (F2Q N (e' + ey) == F2Q (Zpos mx) ex)%Q.
Proof.
  destruct (SFdiv_core_spec mx ex my ey) as (q0 & e0 & l0 & H0 & _ & Hpre & _).
  revert H0. unfold SFdiv_core_binary.
  set (d1 := Zdigits2 (Zpos mx)). set (d2 := Zdigits2 (Zpos my)).
  set (T := d1 + ex - (d2 + ey)).
  set (e' := Z.min (fexp prec emax T) (ex - ey)).
  set (s := ex - ey - e').
  assert (Hs : 0 <= s) by (unfold s, e'; lia).
  set (m' := match s with Zpos _ => Z.shiftl (Zpos mx) s | 0 => Zpos mx | Zneg _ => 0 end).
  assert (Hm' : m' = Zpos mx * 2 ^ s).
  { unfold m'. destruct s as [|p|p]; [simpl; lia| |lia].
    apply Z.shiftl_mul_pow2. lia. }
  clearbody m'.
  pose proof (Z_div_mod m' (Zpos my) eq_refl) as Hdm.
  destruct (Z.div_eucl m' (Zpos my)) as [q r]. destruct Hdm as [Hdm Hr].
  intros H0. injection H0 as <- <- <-.
  exists q, e', (new_location (Zpos my) r), m'. split; [reflexivity|].
  pose proof (pow2_pos s Hs) as Hps.
  split; [nia|]. split; [exact Hpre|]. split.
  - rewrite Hdm, (Z.mul_comm (Zpos my) q). apply new_location_code; lia.
  - rewrite Hm', F2Q_shift by lia.
    replace (e' + ey + s) with ex by (unfold s; lia). reflexivity.
Qed.

Lemma SF64div_mono (x y x' y' : spec_float) :
  nonneg_valid x -> nonneg_valid y -> nonneg_valid x' -> nonneg_valid y' ->
  (0 < SF2Q y)%Q -> (0 < SF2Q y')%Q ->
  (SF2Q x * SF2Q y' <= SF2Q x' * SF2Q y)%Q ->
  nonneg_valid (SF64div x' y') ->
  SFnn (SF64div x y) = true /\
  (SF2Q (SF64div x y) <= SF2Q (SF64div x' y'))%Q.
Proof.
  intros [Hx Hvx] [Hy Hvy] [Hx' Hvx'] [Hy' Hvy'] Hpy Hpy' Hle Hr'.
  destruct y as [sy|[]| |[] my ey]; cbn [SFnn] in Hy; try discriminate.
  destruct y' as [sy'|[]| |[] my' ey']; cbn [SFnn] in Hy'; try discriminate.
  destruct x as [sx|[]| |[] mx ex]; cbn [SFnn] in Hx; try discriminate.
  { split; [reflexivity|]. cbn [SF2Q SF64div SFdiv]. apply SFnn_nonneg, Hr'. }
  cbn [SF2Q] in Hle, Hpy, Hpy'.
  pose proof (F2Q_pos (Zpos mx) ex ltac:(lia)) as Hpx.
  destruct x' as [sx'|[]| |[] mx' ex']; cbn [SFnn] in Hx'; try discriminate.
  { exfalso. cbn [SF2Q] in Hle. nra. }
  cbn [SF2Q] in Hle. unfold SF64div, SFdiv in *. cbn [xorb] in *.
  destruct (SFdiv_core_code mx ex my ey) as (q & e1 & lz & N & -> & HN & Hpre & Hc & Hv).
  destruct (SFdiv_core_code mx' ex' my' ey')
    as (q' & e1' & lz' & N' & Hd' & HN' & Hpre' & Hc' & Hv').
  rewrite Hd' in *.
  apply (round_mono q e1 lz N (Zpos my) q' e1' lz' N' (Zpos my'));
    try lia; try assumption.
  (* N/my * 2^e1 <= N'/my' * 2^e1' *)
  assert (E : forall n m e f, (F2Q (n * m) e == F2Q n (e + f) * F2Q m (- f))%Q).
  { intros n m e f. rewrite <- F2Q_mul. replace (e + f + - f) with e by lia.
    reflexivity. }
  rewrite (E N (Zpos my') e1 ey), (E N' (Zpos my) e1' ey'), Hv, Hv'.
  assert (Hm : forall m e f,
            (F2Q m (- f) == F2Q m e * F2Q 1 (- e - f))%Q).
  { intros m e f. rewrite <- F2Q_mul, Z.mul_1_r.
    replace (e + (- e - f)) with (- f) by lia. reflexivity. }
  rewrite (Hm (Zpos my') ey' ey), (Hm (Zpos my) ey ey').
  replace (- ey - ey') with (- ey' - ey) by lia.
  pose proof (F2Q_pos 1 (- ey' - ey) ltac:(lia)) as Hc0.
  revert Hle Hc0.
  generalize (F2Q 1 (- ey' - ey)), (F2Q (Zpos mx) ex), (F2Q (Zpos my) ey),
    (F2Q (Zpos mx') ex'), (F2Q (Zpos my') ey').
  intros c X Y X' Y' Hle Hc0. nra.
Qed.

End Monotone.

Lemma sub_mono (x y x' y' : number) :
  nnf x = true -> nnf y = true -> nnf x' = true -> nnf y' = true ->
  (Qval y <= Qval x)%Q -> (Qval y' <= Qval x')%Q ->
  (Qval x - Qval y <= Qval x' - Qval y')%Q ->
  nnf (x - y) = true /\ nnf (x' - y') = true /\
  (Qval (x - y) <= Qval (x' - y'))%Q.
Proof.
  intros Hx Hy Hx' Hy' Hyx Hyx' Hle.
  assert (Hr' : nnf (x' - y') = true).
  { apply (sub_upper x' y' x'); try assumption.
    pose proof (Qval_nonneg y' Hy'). lra. }
  pose proof (nnf_good _ Hr') as Hv'. pose proof (Prim2SF_valid (x - y)) as Hv.
  unfold nnf, Qval in *. rewrite !sub_spec in *.
  destruct (SF64sub_mono (Prim2SF x) (Prim2SF y) (Prim2SF x') (Prim2SF y'))
    as [H1 H2]; auto using nnf_good.
Qed.

Lemma add_mono (x y x' y' : number) :
  nnf x = true -> nnf y = true -> nnf x' = true -> nnf y' = true ->
  (Qval x + Qval y <= Qval x' + Qval y')%Q ->
  nnf (x' + y') = true ->
  nnf (x + y) = true /\ (Qval (x + y) <= Qval (x' + y'))%Q.
Proof.
  intros Hx Hy Hx' Hy' Hle Hr'.
  pose proof (nnf_good _ Hr') as Hv'. pose proof (Prim2SF_valid (x + y)) as Hv.
  unfold nnf, Qval in *. rewrite !add_spec in *.
  apply SF64add_mono; auto using nnf_good.
Qed.

Lemma mul_mono (x y x' y' : number) :
  nnf x = true -> nnf y = true -> nnf x' = true -> nnf y' = true ->
  (Qval x * Qval y <= Qval x' * Qval y')%Q ->
  nnf (x' * y') = true ->
  nnf (x * y) = true /\ (Qval (x * y) <= Qval (x' * y'))%Q.
Proof.
  intros Hx Hy Hx' Hy' Hle Hr'.
  pose proof (nnf_good _ Hr') as Hv'.
  unfold nnf, Qval in *. rewrite !mul_spec in *.
  apply SF64mul_mono; auto using nnf_good.
Qed.

Lemma div_mono (x y x' y' : number) :
  nnf x = true -> nnf y = true -> nnf x' = true -> nnf y' = true ->
  (0 < Qval y)%Q -> (0 < Qval y')%Q ->
  (Qval x * Qval y' <= Qval x' * Qval y)%Q ->
  nnf (x' / y') = true ->
  nnf (x / y) = true /\ (Qval (x / y) <= Qval (x' / y'))%Q.
Proof.
  intros Hx Hy Hx' Hy' Hpy Hpy' Hle Hr'.
  pose proof (nnf_good _ Hr') as Hv'.
  unfold nnf, Qval in *. rewrite !div_spec in *.
  apply SF64div_mono; auto using nnf_good.
Qed.

(** *** Signs

    The sign of a result is the one the operation is given, and the
    operations commute with the opposite. *)

Section Signs.

#[local] Open Scope Z_scope.

(** The sign of a rounded value is the sign it was given. *)
Lemma binary_round_aux_negative (mx ex : Z) (lx : location) :
  SFltb (S754_zero false) (binary_round_aux prec emax true mx ex lx) = false.
Proof.
  unfold binary_round_aux.
  destruct (shr_fexp prec emax mx ex lx) as [mrs' e'].
  destruct (shr_fexp prec emax _ e' loc_Exact) as [mrs'' e''].
  destruct (shr_m mrs'') as [|m|m]; try reflexivity.
  destruct (Z.leb e'' (emax - prec)); reflexivity.
Qed.

Lemma binary_round_aux_opp (s : bool) (mx ex : Z) (lx : location) :
  binary_round_aux prec emax (negb s) mx ex lx
  = SFopp (binary_round_aux prec emax s mx ex lx).
Proof.
  unfold binary_round_aux.
  destruct (shr_fexp prec emax mx ex lx) as [mrs' e'].
  destruct (shr_fexp prec emax _ e' loc_Exact) as [mrs'' e''].
  destruct (shr_m mrs'') as [|m|m]; try reflexivity.
  destruct (Z.leb e'' (emax - prec)); reflexivity.
Qed.

Lemma SF64mul_opp_r (x y : spec_float) :
  SF64mul x (SFopp y) = SFopp (SF64mul x y).
Proof.
  destruct x as [sx|sx| |sx mx ex], y as [sy|sy| |sy my ey];
    cbn [SF64mul SFmul SFopp]; try reflexivity;
    try (destruct sx, sy; reflexivity).
  destruct sx, sy; cbn [xorb negb];
    first [apply (binary_round_aux_opp false)|apply (binary_round_aux_opp true)].
Qed.

Lemma SF64div_opp_l (x y : spec_float) :
  SF64div (SFopp x) y = SFopp (SF64div x y).
Proof.
  destruct x as [sx|sx| |sx mx ex], y as [sy|sy| |sy my ey];
    cbn [SF64div SFdiv SFopp]; try reflexivity;
    try (destruct sx, sy; reflexivity).
  destruct (SFdiv_core_binary prec emax (Zpos mx) ex (Zpos my) ey) as [[mz ez] lz].
  destruct sx, sy; cbn [xorb negb];
    first [apply (binary_round_aux_opp false)|apply (binary_round_aux_opp true)].
Qed.

Lemma SF64sub_swap (x y : spec_float) :
  SFnn x = true -> SFnn y = true -> (SF2Q x < SF2Q y)%Q ->
  SF64sub x y = SFopp (SF64sub y x).
Proof.
  intros Hx Hy Hlt.
  destruct x as [sx|[]| |[] mx ex]; cbn [SFnn] in Hx; try discriminate;
    destruct y as [sy|[]| |[] my ey]; cbn [SFnn] in Hy; try discriminate;
    cbn [SF2Q] in Hlt.
  - reflexivity.
  - exfalso. apply (Qlt_irrefl 0). eapply Qlt_trans; [|exact Hlt].
    apply F2Q_pos. lia.
  - unfold SF64sub, SFsub. cbn [cond_Zopp].
    rewrite (Z.min_comm ey ex).
    pose proof (aligned_value mx ex (Z.min ex ey) ltac:(lia)) as HA.
    pose proof (aligned_value my ey (Z.min ex ey) ltac:(lia)) as HB.
    set (A := Zpos (fst (shl_align mx ex (Z.min ex ey)))) in *.
    set (B := Zpos (fst (shl_align my ey (Z.min ex ey)))) in *.
    assert (Hneg : A - B < 0).
    { destruct (Z.lt_ge_cases (A - B) 0) as [|Hge]; [assumption|exfalso].
      assert (H0 : (0 <= F2Q (A - B) (Z.min ex ey))%Q).
      { rewrite <- (F2Q_0 (Z.min ex ey)). apply F2Q_le. exact Hge. }
      rewrite F2Q_sub, HA, HB in H0. lra. }
    replace (B - A) with (- (A - B)) by lia.
    destruct (A - B) as [|p|p]; try lia.
    cbn [Z.opp binary_normalize]. unfold binary_round.
    destruct (shl_align p (Z.min ex ey) _) as [mz ez].
    apply (binary_round_aux_opp false).
Qed.

(** A quotient of a number that is zero or positive by a positive one. *)
Lemma SF64div_nn_cases (x y : spec_float) :
  nonneg_valid x -> nonneg_valid y -> (0 < SF2Q y)%Q ->
  SF64div x y = S754_infinity false \/ SFnn (SF64div x y) = true.
Proof.
  intros [Hx Hvx] [Hy Hvy] Hpy.
  destruct y as [sy|[]| |[] my ey]; cbn [SFnn] in Hy; try discriminate.
  destruct x as [sx|[]| |[] mx ex]; cbn [SFnn] in Hx; try discriminate.
  { right. reflexivity. }
  unfold SF64div, SFdiv. cbn [xorb].
  destruct (SFdiv_core_spec mx ex my ey) as (q & e' & lz & -> & Hq & Hpre & _).
  destruct (binary_round_aux_rounded q e' lz Hq Hpre) as (mr & _ & Hr).
  destruct (rounded_cases _ _ _ Hr); auto.
Qed.

End Signs.

(** A non-negative number times one that is not positive is not positive. *)
Lemma mul_not_positive (x y : number) :
  nnf x = true -> (0 <? y) = false -> (0 <? x * y) = false.
Proof.
  unfold nnf. rewrite !FloatAxioms.ltb_spec, mul_spec.
  change (Prim2SF 0) with (S754_zero false).
  destruct (Prim2SF x) as [[]|[]| |[] mx ex]; try discriminate;
    destruct (Prim2SF y) as [[]|[]| |[] my ey]; try discriminate;
    intros _ _; try reflexivity.
  unfold SF64mul, SFmul. cbn [xorb]. apply binary_round_aux_negative.
Qed.

Lemma sub_swap (x y : number) :
  nnf x = true -> nnf y = true -> (Qval x < Qval y)%Q ->
  Prim2SF (x - y) = SFopp (Prim2SF (y - x)).
Proof. intros. rewrite !sub_spec. apply SF64sub_swap; assumption. Qed.

Lemma mul_opp_r (x y w : number) :
  Prim2SF y = SFopp (Prim2SF w) -> Prim2SF (x * y) = SFopp (Prim2SF (x * w)).
Proof. intros H. rewrite !mul_spec, H. apply SF64mul_opp_r. Qed.

Lemma div_opp_l (x y w : number) :
  Prim2SF x = SFopp (Prim2SF w) -> Prim2SF (x / y) = SFopp (Prim2SF (w / y)).
Proof. intros H. rewrite !div_spec, H. apply SF64div_opp_l. Qed.

(** The opposite of a number that is zero or positive is below every such
    number. *)
Lemma opp_leb (x w k : number) :
  Prim2SF x = SFopp (Prim2SF w) ->
  Prim2SF w = S754_infinity false \/ nnf w = true ->
  nnf k = true -> (x <=? k) = true.
Proof.
  intros H Hw Hk. rewrite FloatAxioms.leb_spec, H. unfold nnf in *.
  destruct Hw as [-> | Hw].
  - destruct (Prim2SF k) as [[]|[]| |[] mk ek]; try discriminate; reflexivity.
  - destruct (Prim2SF w) as [[]|[]| |[] mw ew]; try discriminate;
      destruct (Prim2SF k) as [[]|[]| |[] mk ek]; try discriminate; reflexivity.
Qed.

Lemma div_nnf_cases (x y : number) :
  nnf x = true -> nnf y = true -> (0 < Qval y)%Q ->
  Prim2SF (x / y) = S754_infinity false \/ nnf (x / y) = true.
Proof.
  intros Hx Hy Hp. unfold nnf. rewrite div_spec.
  apply SF64div_nn_cases; auto using nnf_good.
Qed.

(** A positive finite quotient has a positive finite dividend and divisor,
    as soon as one of them is known not to be negative. *)
Lemma div_pos_finite_inv (x y : number) :
  (0 <=? x) = true \/ nnf y = true ->
  nnf (x / y) = true -> (0 <? x / y) = true ->
  (nnf x = true /\ (0 <? x) = true) /\ (nnf y = true /\ (0 <? y) = true).
Proof.
  unfold nnf. rewrite !FloatAxioms.ltb_spec, FloatAxioms.leb_spec, div_spec.
  change (Prim2SF 0) with (S754_zero false).
  destruct (Prim2SF x) as [[]|[]| |[] mx ex], (Prim2SF y) as [[]|[]| |[] my ey];
    cbn [SF64div SFdiv SFnn xorb]; intros Hs Hn Hp;
    try discriminate Hn; try discriminate Hp;
    try (destruct Hs as [Hs|Hs]; discriminate Hs);
    try (repeat split; reflexivity).
  - exfalso.
    destruct (SFdiv_core_binary prec emax (Zpos mx) ex (Zpos my) ey) as [[q e'] lz].
    rewrite binary_round_aux_negative in Hp. discriminate Hp.
  - exfalso.
    destruct (SFdiv_core_binary prec emax (Zpos mx) ex (Zpos my) ey) as [[q e'] lz].
    rewrite binary_round_aux_negative in Hp. discriminate Hp.
Qed.

(** *** The relative error of a quotient *)

Section Relative.

#[local] Open Scope Z_scope.

(** Above the subnormal range, what rounding adds or takes away is at most
    one part in [2^52] of the value. *)
Lemma SF64div_relative (x y : spec_float) :
  nonneg_valid x -> nonneg_valid y -> (0 < SF2Q y)%Q ->
  (F2Q 1 (-1021) * SF2Q y <= SF2Q x)%Q ->
  SFnn (SF64div x y) = true ->
  (SF2Q (SF64div x y) * SF2Q y * inject_Z (2 ^ 52)
   <= SF2Q x * inject_Z (2 ^ 52 + 1))%Q /\
  (SF2Q x * inject_Z (2 ^ 52 - 1)
   <= SF2Q (SF64div x y) * SF2Q y * inject_Z (2 ^ 52))%Q.
Proof.
  intros [Hx Hvx] [Hy Hvy] Hpy Hnorm.
  destruct y as [sy|[]| |[] my ey]; cbn [SFnn] in Hy; try discriminate.
  cbn [SF2Q] in Hpy, Hnorm |- *.
  pose proof (F2Q_pos 1 (-1021) ltac:(lia)) as Hp1.
  destruct x as [sx|[]| |[] mx ex]; cbn [SFnn] in Hx; try discriminate.
  { exfalso. cbn [SF2Q] in Hnorm. nra. }
  cbn [SF2Q] in Hnorm |- *. unfold SF64div, SFdiv. cbn [xorb].
  destruct (SFdiv_core_code mx ex my ey)
    as (q & e' & lz & N & -> & HN & Hpre & Hc & Hv).
  pose proof (half_code_m _ _ _ HN (Pos2Z.is_pos my) Hc) as Hq.
  rewrite shr_record_of_loc_m in Hq.
  assert (Hq0 : 0 <= q) by (rewrite Hq; apply Z.div_pos; lia).
  assert (Hlow : q * Zpos my <= N).
  { rewrite Hq, Z.mul_comm. apply Z.mul_div_le. lia. }
  assert (Hupp : N < (q + 1) * Zpos my).
  { rewrite Hq, Z.mul_comm. apply (Z.mul_succ_div_gt N (Zpos my)). lia. }
  set (X := F2Q (Zpos mx) ex) in *. set (Y := F2Q (Zpos my) ey) in *.
  assert (HlowQ : (F2Q q e' * Y <= X)%Q).
  { rewrite <- Hv. unfold Y. rewrite <- F2Q_mul. apply F2Q_le. exact Hlow. }
  assert (HuppQ : (X < F2Q (q + 1) e' * Y)%Q).
  { rewrite <- Hv. unfold Y. rewrite <- F2Q_mul. apply F2Q_lt. exact Hupp. }
  destruct (binary_round_aux_rounded q e' lz Hq0 Hpre) as (mr & Hmr & Hr).
  intros Hn. rewrite (rounded_SF2Q _ _ _ Hr Hn).
  destruct (truncated_bounds q e' Hq0 Hpre) as [_ Hb].
  set (e1 := fexp prec emax (Zdigits2 q + e')) in *.
  set (m1 := q / 2 ^ (e1 - e')) in *.
  assert (He1 : -1074 < e1).
  { assert (Hd : -1021 < Zdigits2 q + e').
    { destruct (Z.lt_ge_cases (-1021) (Zdigits2 q + e')) as [|Hge];
        [assumption|exfalso].
      apply F2Q_pow_le in Hge.
      pose proof (F2Q_succ_le_pow q e' Hq0) as Hs.
      assert (F2Q (q + 1) e' * Y <= F2Q 1 (-1021) * Y)%Q.
      { apply Qmult_le_compat_r; [|lra]. eapply Qle_trans; eassumption. }
      lra. }
    unfold e1. rewrite fexp_eq. lia. }
  specialize (Hb He1).
  pose proof (pow2_pos (e1 - e') ltac:(lia)) as Hpn.
  assert (Hm1q : m1 * 2 ^ (e1 - e') <= q).
  { unfold m1. rewrite Z.mul_comm. apply Z.mul_div_le. assumption. }
  assert (Hqm1 : q + 1 <= (m1 + 1) * 2 ^ (e1 - e')).
  { unfold m1. pose proof (Z.mul_succ_div_gt q (2 ^ (e1 - e')) Hpn). lia. }
  assert (A1 : (F2Q m1 e1 <= F2Q q e')%Q).
  { apply F2Q_le_align_l; [lia|assumption]. }
  assert (A2 : (F2Q (q + 1) e' <= F2Q (m1 + 1) e1)%Q).
  { apply F2Q_le_align; [lia|assumption]. }
  assert (Hmr' : m1 <= mr <= m1 + 1) by (destruct Hmr as [->|[-> _]]; lia).
  assert (A3 : (F2Q m1 e1 <= F2Q mr e1)%Q) by (apply F2Q_le; lia).
  assert (A4 : (F2Q mr e1 <= F2Q (m1 + 1) e1)%Q) by (apply F2Q_le; lia).
  change (2 ^ 52) with 4503599627370496 in *.
  assert (B1 : (F2Q (m1 + 1) e1 * inject_Z 4503599627370496
                <= F2Q m1 e1 * inject_Z (4503599627370496 + 1))%Q).
  { rewrite <- !F2Q_scale. apply F2Q_le. lia. }
  assert (B2 : (F2Q (m1 + 1) e1 * inject_Z (4503599627370496 - 1)
                <= F2Q m1 e1 * inject_Z 4503599627370496)%Q).
  { rewrite <- !F2Q_scale. apply F2Q_le. lia. }
  assert (C1 : (0 < inject_Z 4503599627370496)%Q) by reflexivity.
  assert (C2 : (0 < inject_Z (4503599627370496 + 1))%Q) by reflexivity.
  assert (C3 : (0 < inject_Z (4503599627370496 - 1))%Q) by reflexivity.
  assert (P0 : (0 <= F2Q m1 e1)%Q).
  { rewrite <- (F2Q_0 e1). apply F2Q_le. lia. }
  revert HlowQ HuppQ A1 A2 A3 A4 B1 B2 C1 C2 C3 P0 Hpy.
  generalize (F2Q m1 e1), (F2Q (m1 + 1) e1), (F2Q mr e1), (F2Q q e'),
    (F2Q (q + 1) e'), (inject_Z 4503599627370496),
    (inject_Z (4503599627370496 + 1)), (inject_Z (4503599627370496 - 1)).
  clearbody X Y. clear.
  intros M1 M1s R Qq Qs K Kp Km HlowQ HuppQ A1 A2 A3 A4 B1 B2 C1 C2 C3 P0 Hpy.
  assert (KY : (0 < K * Y)%Q) by nra.
  assert (KpY : (0 < Kp * Y)%Q) by nra.
  assert (KmY : (0 < Km * Y)%Q) by nra.
  split.
  - apply Qle_trans with (M1s * (K * Y))%Q; [nra|].
    apply Qle_trans with (M1 * (Kp * Y))%Q; [nra|].
    apply Qle_trans with (Qq * (Kp * Y))%Q; [nra|]. nra.
  - apply Qle_trans with (Qs * (Km * Y))%Q; [nra|].
    apply Qle_trans with (M1s * (Km * Y))%Q; [nra|].
    apply Qle_trans with (M1 * (K * Y))%Q; [nra|]. nra.
Qed.

End Relative.

Lemma div_relative (x y : number) :
  nnf x = true -> nnf y = true -> (0 < Qval y)%Q ->
  (F2Q 1 (-1021) * Qval y <= Qval x)%Q ->
  nnf (x / y) = true ->
  (Qval (x / y) * Qval y * inject_Z (2 ^ 52)
   <= Qval x * inject_Z (2 ^ 52 + 1))%Q /\
  (Qval x * inject_Z (2 ^ 52 - 1)
   <= Qval (x / y) * Qval y * inject_Z (2 ^ 52))%Q.
Proof.
  intros Hx Hy Hp Hnorm Hr. unfold nnf, Qval in *. rewrite div_spec in *.
  apply SF64div_relative; auto using nnf_good.
Qed.

(** *** Quotients by a divisor that is at most one *)

Section DivisorBelowOne.

#[local] Open Scope Z_scope.

(** Dividing by a positive number that is at most one does not decrease. *)
Lemma SF64div_ge_dividend (x y : spec_float) :
  nonneg_valid x -> nonneg_valid y -> (0 < SF2Q y)%Q -> (SF2Q y <= 1)%Q ->
  nonneg_valid (SF64div x y) -> (SF2Q x <= SF2Q (SF64div x y))%Q.
Proof.
  intros [Hx Hvx] [Hy Hvy] Hpy Hy1 Hr.
  destruct y as [sy|[]| |[] my ey]; cbn [SFnn] in Hy; try discriminate.
  destruct x as [sx|[]| |[] mx ex]; cbn [SFnn] in Hx; try discriminate.
  cbn [SF2Q] in Hpy, Hy1 |- *. unfold SF64div, SFdiv in *. cbn [xorb] in *.
  destruct (SFdiv_core_code mx ex my ey)
    as (q & e' & lz & N & Hd & HN & Hpre & Hc & Hv).
  rewrite Hd in *.
  cbn [valid_binary] in Hvx.
  destruct (bounded_canonical mx ex Hvx) as [Hcx _].
  assert (Hpx : ex <= fexp prec emax (Zdigits2 (Zpos mx) + ex)) by lia.
  destruct (round_mono (Zpos mx) ex loc_Exact (Zpos mx) 1 q e' lz N (Zpos my))
    as [Hn Hle]; try lia; try assumption; try apply exact_code.
  - rewrite Z.mul_1_r.
    assert (E : (F2Q N e' == F2Q N (e' + ey) * F2Q 1 (- ey))%Q).
    { rewrite <- F2Q_mul, Z.mul_1_r. replace (e' + ey + - ey) with e' by lia.
      reflexivity. }
    rewrite E, Hv, F2Q_scale.
    assert (E1 : (F2Q (Zpos my) ey * F2Q 1 (- ey) == inject_Z (Zpos my))%Q).
    { rewrite <- F2Q_mul, Z.mul_1_r, Z.add_opp_diag_r. unfold F2Q.
      change (2 ^ 0)%Q with 1%Q. ring. }
    pose proof (F2Q_pos 1 (- ey) ltac:(lia)) as Hp.
    pose proof (F2Q_pos (Zpos mx) ex ltac:(lia)) as Hpx'.
    assert (H1 : (inject_Z (Zpos my) <= F2Q 1 (- ey))%Q).
    { rewrite <- E1. rewrite <- (Qmult_1_l (F2Q 1 (- ey))) at 2.
      apply Qmult_le_compat_r; [assumption|lra]. }
    apply Qmult_le_l; assumption.
  - destruct (round_lower_good (Zpos mx) ex loc_Exact (S754_finite false mx ex))
      as [Hinf|[_ Hlo]]; try lia; try assumption.
    + split; [reflexivity|exact Hvx].
    + apply Qle_refl.
    + rewrite Hinf in Hn. discriminate Hn.
    + cbn [SF2Q] in Hlo. eapply Qle_trans; eassumption.
Qed.

End DivisorBelowOne.

Lemma div_ge_dividend (x y : number) :
  nnf x = true -> nnf y = true -> (0 < Qval y)%Q -> (Qval y <= 1)%Q ->
  (x <=? x / y) = true.
Proof.
  intros Hx Hy Hp H1.
  destruct (div_nnf_cases x y Hx Hy Hp) as [E|Hn].
  - rewrite FloatAxioms.leb_spec, E. unfold nnf in Hx.
    destruct (Prim2SF x) as [[]|[]| |[] m e]; try discriminate; reflexivity.
  - apply Qle_leb; try assumption.
    pose proof (nnf_good _ Hn) as Hv.
    unfold nnf, Qval in *. rewrite div_spec in *.
    apply SF64div_ge_dividend; auto using nnf_good.
Qed.

(** ** The calculation module *)

(** *** The stress-block factor *)

Lemma calculateBeta1_nan (fc : number) :
  is_nan fc = true -> is_nan (calculateBeta1 fc) = true.
Proof.
  intros Hn. unfold calculateBeta1, JS.le, JS.ge.
  rewrite (is_nan_leb_l _ _ Hn), (is_nan_leb_r _ _ Hn).
  apply is_nan_sub_r, is_nan_mul_l, is_nan_div_l, is_nan_sub_l, Hn.
Qed.

(** X1: the stress-block factor is between its two end values for every
    strength that is a number, and is not a number otherwise. *)
Theorem X1_beta1_range (fc : number) :
  (is_nan fc = false ->
   JS.le 0.65 (calculateBeta1 fc) = true /\
   JS.le (calculateBeta1 fc) 0.85 = true) /\
  (is_nan fc = true -> is_nan (calculateBeta1 fc) = true).
Proof.
  split; [apply calculateBeta1_range|apply calculateBeta1_nan].
Qed.

Lemma X1_beta1_range_witness :
  JS.le 0.65 (calculateBeta1 5500) = true /\
  JS.le (calculateBeta1 5500) 0.85 = true /\
  is_nan (calculateBeta1 nan) = true.
Proof.
  destruct (X1_beta1_range 5500) as [H1 _].
  destruct (X1_beta1_range nan) as [_ H2].
  split; [apply H1; reflexivity|].
  split; [apply H1; reflexivity|apply H2; reflexivity].
Defined.

Lemma calculateBeta1_steps (fc : number) :
  nnf fc = true -> (Qval 4000 < Qval fc)%Q -> (Qval fc < Qval 8000)%Q ->
  nnf (fc - 4000) = true /\
  nnf ((fc - 4000) / 4000) = true /\
  nnf ((fc - 4000) / 4000 * (0.85 - 0.65)) = true /\
  (Qval ((fc - 4000) / 4000 * (0.85 - 0.65)) <= Qval (0.85 - 0.65))%Q.
Proof.
  intros Hfc Hlo Hhi.
  assert (E1 : (Qval 8000 - Qval 4000 == Qval 4000)%Q)
    by (apply Qeq_bool_iff; vm_compute; reflexivity).
  assert (E3 : (Qval 1 == 1)%Q)
    by (apply Qeq_bool_iff; vm_compute; reflexivity).
  assert (P1 : (0 < Qval 4000)%Q) by (vm_compute; reflexivity).
  assert (P2 : (0 <= Qval (0.85 - 0.65))%Q) by (vm_compute; discriminate).
  assert (S1 : nnf (fc - 4000) = true /\
               (Qval (fc - 4000) <= Qval 4000)%Q).
  { apply sub_upper; try reflexivity; try assumption; lra. }
  destruct S1 as [Nu Hu].
  assert (S2 : nnf ((fc - 4000) / 4000) = true /\
               (Qval ((fc - 4000) / 4000) <= Qval 1)%Q).
  { apply div_upper; try reflexivity; try assumption.
    rewrite E3, Qmult_1_l. exact Hu. }
  destruct S2 as [Nv Hv]. rewrite E3 in Hv.
  assert (S3 : nnf ((fc - 4000) / 4000 * (0.85 - 0.65)) = true /\
               (Qval ((fc - 4000) / 4000 * (0.85 - 0.65))
                <= Qval (0.85 - 0.65))%Q).
  { apply mul_upper; try reflexivity; try assumption.
    rewrite <- (Qmult_1_l (Qval (0.85 - 0.65))) at 2.
    apply Qmult_le_compat_r; assumption. }
  destruct S3 as [Nt Ht]. auto.
Qed.

Lemma beta1_interpolation_mono (fc fc' : number) :
  (4000 <? fc) = true -> (fc <=? fc') = true -> (fc' <? 8000) = true ->
  (beta1_interpolation fc' <=? beta1_interpolation fc) = true.
Proof.
  intros Hlo Hff Hhi'. unfold beta1_interpolation, BETA1_FC_4000, BETA1_FC_8000.
  assert (Hhi : (fc <? 8000) = true) by (eapply leb_ltb_trans; eassumption).
  assert (Hlo' : (4000 <? fc') = true) by (eapply ltb_leb_trans; eassumption).
  assert (Hfc : nnf fc = true) by (apply (between_nnf 4000 8000); auto).
  assert (Hfc' : nnf fc' = true) by (apply (between_nnf 4000 8000); auto).
  apply leb_Qle in Hff; try assumption.
  apply ltb_Qlt in Hlo, Hlo', Hhi, Hhi'; try reflexivity; try assumption.
  destruct (calculateBeta1_steps fc Hfc Hlo Hhi) as (Nu & Nv & Nt & Ht).
  destruct (calculateBeta1_steps fc' Hfc' Hlo' Hhi') as (Nu' & Nv' & Nt' & Ht').
  assert (P1 : (0 < Qval 4000)%Q) by (vm_compute; reflexivity).
  assert (P2 : (0 <= Qval (0.85 - 0.65))%Q) by (vm_compute; discriminate).
  assert (P3 : (Qval (0.85 - 0.65) <= Qval 0.85)%Q) by (vm_compute; discriminate).
  destruct (sub_mono fc 4000 fc' 4000) as (_ & _ & M1);
    try reflexivity; try assumption; try lra.
  destruct (div_mono (fc - 4000) 4000 (fc' - 4000) 4000)
    as (_ & M2); try reflexivity; try assumption.
  { apply Qmult_le_compat_r; [assumption|lra]. }
  destruct (mul_mono ((fc - 4000) / 4000) (0.85 - 0.65)
              ((fc' - 4000) / 4000) (0.85 - 0.65))
    as (_ & M3); try reflexivity; try assumption.
  { apply Qmult_le_compat_r; assumption. }
  destruct (sub_mono 0.85 ((fc' - 4000) / 4000 * (0.85 - 0.65))
              0.85 ((fc - 4000) / 4000 * (0.85 - 0.65)))
    as (N1 & N2 & M4); try reflexivity; try assumption; try lra.
  apply Qle_leb; assumption.
Qed.

(** X2: the stress-block factor never increases when the concrete
    strength increases: for every two strengths in order (infinite ones
    included), the two factors are in the opposite order, across the three
    branches and with the rounding of the interpolation. *)
Theorem X2_beta1_antitone (fc fc' : number) :
  JS.le fc fc' = true ->
  JS.le (calculateBeta1 fc') (calculateBeta1 fc) = true.
Proof.
  unfold JS.le. intros Hff.
  destruct (leb_not_nan _ _ Hff) as [N N'].
  destruct (calculateBeta1_range fc N) as [L U].
  destruct (calculateBeta1_range fc' N') as [L' U'].
  unfold JS.le in *.
  destruct (fc <=? 4000) eqn:H4.
  { rewrite (calculateBeta1_low fc H4). exact U'. }
  destruct (8000 <=? fc') eqn:H8'.
  { rewrite (calculateBeta1_high fc'); [exact L|exact H8']. }
  assert (Hlo : (4000 <? fc) = true) by (apply not_leb_ltb; auto).
  assert (Hhi' : (fc' <? 8000) = true) by (apply not_leb_ltb; auto).
  rewrite !calculateBeta1_between.
  - apply beta1_interpolation_mono; assumption.
  - exact Hlo.
  - eapply leb_ltb_trans; eassumption.
  - eapply ltb_leb_trans; eassumption.
  - exact Hhi'.
Qed.

Lemma X2_beta1_antitone_witness :
  JS.le (calculateBeta1 6000) (calculateBeta1 5000) = true.
Proof. apply X2_beta1_antitone. reflexivity. Defined.

(** *** The strength reduction factor *)

Lemma calculatePhi_high (e : number) :
  (0.005 <=? e) = true -> calculatePhi e = 0.9.
Proof. unfold calculatePhi, EPSILON_Y_MIN, JS.ge. intros ->. reflexivity. Qed.

Lemma calculatePhi_low (e : number) :
  (e <=? 0.002) = true -> calculatePhi e = 0.65.
Proof.
  intros H. unfold calculatePhi, EPSILON_Y_MIN, JS.ge, JS.le.
  rewrite (leb_below_not_above e 0.002 0.005 eq_refl H), H. reflexivity.
Qed.

Lemma calculatePhi_between (e : number) :
  (0.005 <=? e) = false -> (e <=? 0.002) = false ->
  calculatePhi e = 0.65 + (e - 0.002) / (0.005 - 0.002) * (0.9 - 0.65).
Proof.
  unfold calculatePhi, EPSILON_Y_MIN, JS.ge, JS.le. intros -> ->. reflexivity.
Qed.

(** The steps of the interpolation, each zero or positive and bounded. *)
Lemma calculatePhi_steps (e : number) :
  nnf e = true -> (Qval 0.002 < Qval e)%Q -> (Qval e < Qval 0.005)%Q ->
  nnf (e - 0.002) = true /\
  nnf ((e - 0.002) / (0.005 - 0.002)) = true /\
  nnf ((e - 0.002) / (0.005 - 0.002) * (0.9 - 0.65)) = true /\
  nnf (0.65 + (e - 0.002) / (0.005 - 0.002) * (0.9 - 0.65)) = true.
Proof.
  intros He Hlo Hhi.
  assert (E1 : (Qval 0.005 - Qval 0.002 == Qval (0.005 - 0.002))%Q)
    by (apply Qeq_bool_iff; vm_compute; reflexivity).
  assert (E2 : (Qval 0.65 + Qval (0.9 - 0.65) == Qval 0.9)%Q)
    by (apply Qeq_bool_iff; vm_compute; reflexivity).
  assert (E3 : (Qval 1 == 1)%Q)
    by (apply Qeq_bool_iff; vm_compute; reflexivity).
  assert (P1 : (0 < Qval (0.005 - 0.002))%Q) by (vm_compute; reflexivity).
  assert (P2 : (0 <= Qval (0.9 - 0.65))%Q) by (vm_compute; discriminate).
  assert (S1 : nnf (e - 0.002) = true /\
               (Qval (e - 0.002) <= Qval (0.005 - 0.002))%Q).
  { apply sub_upper; try reflexivity; try assumption; lra. }
  destruct S1 as [Ns Hs].
  assert (S2 : nnf ((e - 0.002) / (0.005 - 0.002)) = true /\
               (Qval ((e - 0.002) / (0.005 - 0.002)) <= Qval 1)%Q).
  { apply div_upper; try reflexivity; try assumption.
    rewrite E3, Qmult_1_l. exact Hs. }
  destruct S2 as [Nq Hq]. rewrite E3 in Hq.
  assert (S3 : nnf ((e - 0.002) / (0.005 - 0.002) * (0.9 - 0.65)) = true /\
               (Qval ((e - 0.002) / (0.005 - 0.002) * (0.9 - 0.65))
                <= Qval (0.9 - 0.65))%Q).
  { apply mul_upper; try reflexivity; try assumption.
    rewrite <- (Qmult_1_l (Qval (0.9 - 0.65))) at 2.
    apply Qmult_le_compat_r; assumption. }
  destruct S3 as [Np Hp].
  pose proof (Qval_nonneg _ Np) as Hp0.
  assert (S4 : nnf (0.65 + (e - 0.002) / (0.005 - 0.002) * (0.9 - 0.65)) = true /\
               (Qval 0.65 <= Qval (0.65 + (e - 0.002) / (0.005 - 0.002) * (0.9 - 0.65))
                <= Qval 0.9)%Q).
  { apply add_range; try reflexivity; try assumption; lra. }
  destruct S4 as [Nphi _]. auto.
Qed.

Lemma calculatePhi_interpolation_mono (e e' : number) :
  (0.002 <? e) = true -> (e <=? e') = true -> (e' <? 0.005) = true ->
  (0.65 + (e - 0.002) / (0.005 - 0.002) * (0.9 - 0.65)
   <=? 0.65 + (e' - 0.002) / (0.005 - 0.002) * (0.9 - 0.65)) = true.
Proof.
  intros Hlo Hee Hhi'.
  assert (Hhi : (e <? 0.005) = true) by (eapply leb_ltb_trans; eassumption).
  assert (Hlo' : (0.002 <? e') = true) by (eapply ltb_leb_trans; eassumption).
  assert (He : nnf e = true) by (apply (between_nnf 0.002 0.005); auto).
  assert (He' : nnf e' = true) by (apply (between_nnf 0.002 0.005); auto).
  apply leb_Qle in Hee; try assumption.
  apply ltb_Qlt in Hlo, Hlo', Hhi, Hhi'; try reflexivity; try assumption.
  destruct (calculatePhi_steps e He Hlo Hhi) as (Ns & Nq & Np & Nphi).
  destruct (calculatePhi_steps e' He' Hlo' Hhi') as (Ns' & Nq' & Np' & Nphi').
  assert (P1 : (0 < Qval (0.005 - 0.002))%Q) by (vm_compute; reflexivity).
  assert (P2 : (0 <= Qval (0.9 - 0.65))%Q) by (vm_compute; discriminate).
  destruct (sub_mono e 0.002 e' 0.002) as (_ & _ & M1);
    try reflexivity; try assumption; try lra.
  destruct (div_mono (e - 0.002) (0.005 - 0.002) (e' - 0.002) (0.005 - 0.002))
    as (_ & M2); try reflexivity; try assumption.
  { apply Qmult_le_compat_r; [assumption|lra]. }
  destruct (mul_mono ((e - 0.002) / (0.005 - 0.002)) (0.9 - 0.65)
              ((e' - 0.002) / (0.005 - 0.002)) (0.9 - 0.65))
    as (_ & M3); try reflexivity; try assumption.
  { apply Qmult_le_compat_r; assumption. }
  destruct (add_mono 0.65 ((e - 0.002) / (0.005 - 0.002) * (0.9 - 0.65))
              0.65 ((e' - 0.002) / (0.005 - 0.002) * (0.9 - 0.65)))
    as (_ & M4); try reflexivity; try assumption.
  { lra. }
  apply Qle_leb; assumption.
Qed.

Lemma calculatePhi_mono (e e' : number) :
  (e <=? e') = true -> (calculatePhi e <=? calculatePhi e') = true.
Proof.
  intros Hee.
  destruct (leb_not_nan _ _ Hee) as [N N'].
  destruct (calculatePhi_range e N) as [L U].
  destruct (calculatePhi_range e' N') as [L' U'].
  unfold JS.le in *.
  destruct (0.005 <=? e') eqn:H5'.
  { rewrite (calculatePhi_high e' H5'). exact U. }
  destruct (e <=? 0.002) eqn:H2.
  { rewrite (calculatePhi_low e H2). exact L'. }
  assert (Hlo : (0.002 <? e) = true) by (apply not_leb_ltb; auto).
  assert (Hhi' : (e' <? 0.005) = true) by (apply not_leb_ltb; auto).
  rewrite !calculatePhi_between.
  - apply calculatePhi_interpolation_mono; assumption.
  - exact H5'.
  - apply ltb_leb_false. eapply ltb_leb_trans; eassumption.
  - apply ltb_leb_false. eapply leb_ltb_trans; eassumption.
  - exact H2.
Qed.

(** X3: the strength reduction factor never decreases when the tensile
    strain increases: for every two strains in order (infinite ones
    included), the two factors are in the same order, across the three
    branches and with the rounding of the interpolation. *)
Theorem X3_phi_monotone (e e' : number) :
  JS.le e e' = true -> JS.le (calculatePhi e) (calculatePhi e') = true.
Proof. unfold JS.le. intros Hee. apply calculatePhi_mono. exact Hee. Qed.

Lemma X3_phi_monotone_witness :
  JS.le (calculatePhi 0.003) (calculatePhi 0.004) = true.
Proof. apply X3_phi_monotone. reflexivity. Defined.

(** *** One result *)

(** X4: a result flagged valid has its three ratios in order,
    [rhoMin <= rho <= rhoMax], none of them not-a-number, a depth below the
    height and a positive steel area. *)
Theorem X4_valid_ordered (input : BeamInput.t) :
  let r := calculateBeamStrength input in
  BeamResults.isValid r = true ->
  JS.le (BeamResults.rhoMin r) (BeamResults.rho r) = true /\
  JS.le (BeamResults.rho r) (BeamResults.rhoMax r) = true /\
  JS.le (BeamResults.rhoMin r) (BeamResults.rhoMax r) = true /\
  is_nan (BeamResults.rho r) = false /\
  is_nan (BeamResults.rhoMin r) = false /\
  is_nan (BeamResults.rhoMax r) = false /\
  JS.lt (BeamInput.d input) (BeamInput.h input) = true /\
  JS.gt (BeamInput.As input) 0 = true.
Proof.
  cbv zeta. unfold calculateBeamStrength.
  cbn [BeamResults.isValid BeamResults.rho BeamResults.rhoMin BeamResults.rhoMax].
  intros H.
  apply andb_true_iff in H. destruct H as [H HAs].
  apply andb_true_iff in H. destruct H as [H Hdh].
  apply andb_true_iff in H. destruct H as [Hle Hge].
  unfold JS.le, JS.ge in *.
  destruct (leb_not_nan _ _ Hle) as [N1 N2].
  destruct (leb_not_nan _ _ Hge) as [N3 _].
  repeat split; try assumption.
  eapply leb_trans; eassumption.
Qed.

Lemma X4_valid_ordered_witness :
  JS.le (BeamResults.rhoMin (calculateBeamStrength scenario1))
        (BeamResults.rhoMax (calculateBeamStrength scenario1)) = true.
Proof. apply (X4_valid_ordered scenario1). reflexivity. Defined.

Lemma mul_075_le (x : number) :
  (0 <=? x) = true -> (0.75 * x <=? x) = true.
Proof.
  intros H. destruct (leb_nnf_cases 0 x eq_refl H) as [E|Hx].
  - rewrite FloatAxioms.leb_spec, mul_spec, E. reflexivity.
  - destruct (mul_upper 0.75 x x eq_refl Hx Hx) as [Hm Hle].
    { pose proof (Qval_nonneg _ Hx).
      assert (Qval 0.75 == 3 # 4)%Q by (vm_compute; reflexivity). nra. }
    apply Qle_leb; assumption.
Qed.

(** X5: when the balanced ratio of a result is zero or positive, its
    maximum ratio is at most the balanced ratio, and a section flagged
    under-reinforced has its steel ratio at most the balanced ratio. *)
Theorem X5_below_balanced (input : BeamInput.t) :
  let r := calculateBeamStrength input in
  JS.le 0 (BeamResults.rhoBalanced r) = true ->
  JS.le (BeamResults.rhoMax r) (BeamResults.rhoBalanced r) = true /\
  (BeamResults.isUnderReinforced r = true ->
   JS.le (BeamResults.rho r) (BeamResults.rhoBalanced r) = true).
Proof.
  cbv zeta. unfold calculateBeamStrength.
  cbn [BeamResults.rhoBalanced BeamResults.rhoMax BeamResults.rho
       BeamResults.isUnderReinforced].
  unfold calculateRhoMax, JS.le. intros H.
  pose proof (mul_075_le _ H) as Hm.
  split; [exact Hm|]. intros Hu. eapply leb_trans; eassumption.
Qed.

Lemma X5_below_balanced_witness :
  JS.le (BeamResults.rho (calculateBeamStrength scenario1))
        (BeamResults.rhoBalanced (calculateBeamStrength scenario1)) = true.
Proof. apply (X5_below_balanced scenario1); reflexivity. Defined.

(** X6: the stress-block depth balances the two forces: when the steel
    area is zero or positive, the yield strength positive and finite, and
    [a] is finite and above the subnormal range, the exact product of [a]
    by the computed [0.85 * fc * b] is within one part in [2^52] of the
    computed [As * fy]. *)
Theorem X6_force_equilibrium (input : BeamInput.t) :
  let r := calculateBeamStrength input in
  let T := BeamInput.As input * BeamInput.fy input in
  let C := 0.85 * BeamInput.fc input * BeamInput.b input in
  JS.le 0 (BeamInput.As input) = true ->
  pos_finite (BeamInput.fy input) = true ->
  is_finite (BeamResults.a r) = true ->
  JS.lt 0x1p-1021 (BeamResults.a r) = true ->
  (Qval T * (1 - (1 # 4503599627370496)) <= Qval (BeamResults.a r) * Qval C)%Q /\
  (Qval (BeamResults.a r) * Qval C <= Qval T * (1 + (1 # 4503599627370496)))%Q.
Proof.
  destruct input as [b h d fc fy As numBars].
  cbv zeta. unfold calculateBeamStrength, JS.le, JS.lt.
  cbn [BeamInput.b BeamInput.fc BeamInput.fy BeamInput.As BeamResults.a].
  set (T := As * fy). set (C := 0.85 * fc * b).
  intros H0 Hfy Hfin Hlo.
  destruct (pos_finite_spec _ Hfy) as (Nfy & Pfy & Qfy).
  assert (Na : nnf (T / C) = true).
  { rewrite is_finite_spec in Hfin. rewrite FloatAxioms.ltb_spec in Hlo.
    unfold nnf. destruct (Prim2SF (T / C)) as [[]|[]| |[] m e];
      try discriminate; reflexivity. }
  assert (Pa : (0 <? T / C) = true).
  { apply (leb_ltb_trans 0 0x1p-1021); [reflexivity|exact Hlo]. }
  pose proof (mul_nonneg As fy H0 Nfy Pfy) as HT. fold T in HT.
  destruct (div_pos_finite_inv T C (or_introl HT) Na Pa) as [[NT PT] [NC PC]].
  pose proof (ltb_Qlt 0 C eq_refl NC PC) as QC. change (Qval 0) with 0%Q in QC.
  assert (Hnorm : (F2Q 1 (-1021) * Qval C <= Qval T)%Q).
  { destruct (Qlt_le_dec (Qval T) (F2Q 1 (-1021) * Qval C)) as [Hlt|]; 
      [exfalso|assumption].
    assert (E : (Qval 0x1p-1021 == F2Q 1 (-1021))%Q)
      by (apply Qeq_bool_iff; vm_compute; reflexivity).
    destruct (div_upper T C 0x1p-1021 NT NC eq_refl QC) as [_ Hup].
    { rewrite E. lra. }
    apply ltb_Qlt in Hlo; [|reflexivity|assumption]. lra. }
  destruct (div_relative T C NT NC QC Hnorm Na) as [Hu Hl].
  change (inject_Z (2 ^ 52)) with (4503599627370496 # 1) in Hu, Hl.
  change (inject_Z (2 ^ 52 + 1)) with (4503599627370497 # 1) in Hu.
  change (inject_Z (2 ^ 52 - 1)) with (4503599627370495 # 1) in Hl.
  revert Hu Hl. generalize (Qval (T / C) * Qval C)%Q, (Qval T).
  intros p t Hu Hl. split; lra.
Qed.

Lemma X6_force_equilibrium_witness :
  (Qval (BeamResults.a (calculateBeamStrength scenario1))
   * Qval (0.85 * 4000 * 12)
   <= Qval (3.16 * 60000) * (1 + (1 # 4503599627370496)))%Q.
Proof. apply (X6_force_equilibrium scenario1); reflexivity. Defined.

(** X7: the stress block is never deeper than the neutral axis: for a
    concrete strength that is a number and a stress-block depth that is
    zero or positive (infinite included), [a <= c], the rounding of the
    division by the factor included. *)
Theorem X7_block_above_axis (input : BeamInput.t) :
  let r := calculateBeamStrength input in
  JS.le 0 (BeamResults.a r) = true ->
  is_nan (BeamInput.fc input) = false ->
  JS.le (BeamResults.a r) (BeamResults.c r) = true.
Proof.
  cbv zeta. unfold calculateBeamStrength, JS.le.
  cbn [BeamResults.a BeamResults.c].
  set (a := BeamInput.As input * BeamInput.fy input
            / (0.85 * BeamInput.fc input * BeamInput.b input)).
  set (beta := calculateBeta1 (BeamInput.fc input)). clearbody a.
  intros Ha Hfc.
  destruct (calculateBeta1_range _ Hfc) as [B1 B2]. fold beta in B1, B2.
  unfold JS.le in B1, B2.
  assert (Nb : nnf beta = true) by (apply (le_nnf 0.65 beta 0.85); auto).
  apply leb_Qle in B1, B2; try reflexivity; try assumption.
  assert (Q1 : (0 < Qval 0.65)%Q) by (vm_compute; reflexivity).
  assert (Q2 : (Qval 0.85 <= 1)%Q) by (vm_compute; discriminate).
  destruct (leb_nnf_cases 0 a eq_refl Ha) as [E|Na].
  - rewrite FloatAxioms.leb_spec, div_spec, E. unfold nnf in Nb.
    destruct (Prim2SF beta) as [[]|[]| |[] m e] eqn:Eb; try discriminate.
    1, 2: exfalso; assert (Z0 : (Qval beta == 0)%Q)
        by (unfold Qval; rewrite Eb; reflexivity); lra.
    reflexivity.
  - apply div_ge_dividend; try assumption; lra.
Qed.

Lemma X7_block_above_axis_witness :
  JS.le (BeamResults.a (calculateBeamStrength scenario1))
        (BeamResults.c (calculateBeamStrength scenario1)) = true.
Proof. apply (X7_block_above_axis scenario1); reflexivity. Defined.

(** X8: the design capacity is never above the nominal capacity: when
    the nominal moment is zero or positive (infinite included) and the
    tensile strain is a number, [0 <= phiMn <= Mn], the rounding of the
    product included. *)
Theorem X8_design_below_nominal (input : BeamInput.t) :
  let r := calculateBeamStrength input in
  JS.le 0 (BeamResults.Mn r) = true ->
  is_nan (BeamResults.epsilonT r) = false ->
  JS.le 0 (BeamResults.phiMn r) = true /\
  JS.le (BeamResults.phiMn r) (BeamResults.Mn r) = true.
Proof.
  cbv zeta. unfold calculateBeamStrength, JS.le.
  cbn [BeamResults.Mn BeamResults.epsilonT BeamResults.phiMn].
  set (eps := EPSILON_C_MAX * _ / _).
  set (Mn := _ / 12). clearbody eps Mn.
  intros HM Hn.
  destruct (calculatePhi_range eps Hn) as [P1 P2]. unfold JS.le in P1, P2.
  set (phi := calculatePhi eps) in *. clearbody phi.
  assert (Np : nnf phi = true) by (apply (le_nnf 0.65 phi 0.9); auto).
  apply leb_Qle in P1, P2; try reflexivity; try assumption.
  assert (Q1 : (0 < Qval 0.65)%Q) by (vm_compute; reflexivity).
  assert (Q2 : (Qval 0.9 <= 1)%Q) by (vm_compute; discriminate).
  destruct (leb_nnf_cases 0 Mn eq_refl HM) as [E|NM].
  - rewrite !FloatAxioms.leb_spec, mul_spec, E. unfold nnf in Np.
    destruct (Prim2SF phi) as [[]|[]| |[] m e] eqn:Ep; try discriminate.
    1, 2: exfalso; assert (Z0 : (Qval phi == 0)%Q)
        by (unfold Qval; rewrite Ep; reflexivity); lra.
    split; reflexivity.
  - destruct (mul_upper phi Mn Mn Np NM NM) as [N U].
    { pose proof (Qval_nonneg _ NM). nra. }
    split; apply Qle_leb; try assumption; try reflexivity.
    apply (Qval_nonneg _ N).
Qed.

Lemma X8_design_below_nominal_witness :
  JS.le (BeamResults.phiMn (calculateBeamStrength scenario1))
        (BeamResults.Mn (calculateBeamStrength scenario1)) = true.
Proof. apply (X8_design_below_nominal scenario1); reflexivity. Defined.

(** *** More steel in the same section

    The tensile strain [0.003 * (d - c) / c], on both sides of [c = d]. *)

Lemma strain_above (d c : number) :
  nnf d = true -> nnf c = true -> (0 < Qval c)%Q -> (Qval c <= Qval d)%Q ->
  nnf (d - c) = true /\ nnf (0.003 * (d - c)) = true /\
  (Prim2SF (0.003 * (d - c) / c) = S754_infinity false \/
   nnf (0.003 * (d - c) / c) = true).
Proof.
  intros Hd Hc Hpc Hcd.
  destruct (sub_upper d c d Hd Hc Hd Hcd) as [Hs Hs1].
  { pose proof (Qval_nonneg c Hc). lra. }
  destruct (mul_upper 0.003 (d - c) (d - c) eq_refl Hs Hs) as [Ht Ht1].
  { pose proof (Qval_nonneg _ Hs).
    assert (Qval 0.003 <= 1)%Q by (vm_compute; discriminate). nra. }
  split; [exact Hs|]. split; [exact Ht|]. apply div_nnf_cases; assumption.
Qed.

Lemma strain_below (d c : number) :
  nnf d = true -> nnf c = true -> (Qval d < Qval c)%Q ->
  (0.003 * (d - c) / c <=? 0.002) = true.
Proof.
  intros Hd Hc Hdc.
  pose proof (Qval_nonneg d Hd) as Hd0.
  destruct (sub_upper c d c Hc Hd Hc) as [Hs Hs1]; [lra|lra|].
  destruct (mul_upper 0.003 (c - d) (c - d) eq_refl Hs Hs) as [Ht Ht1].
  { pose proof (Qval_nonneg _ Hs).
    assert (Qval 0.003 <= 1)%Q by (vm_compute; discriminate). nra. }
  apply (opp_leb _ (0.003 * (c - d) / c)); [| |reflexivity].
  - apply div_opp_l, mul_opp_r, sub_swap; assumption.
  - apply div_nnf_cases; try assumption. lra.
Qed.

Lemma more_steel_depths (input : BeamInput.t) (As' : number) :
  let r := calculateBeamStrength input in
  let r' := calculateBeamStrength (with_As input As') in
  JS.le 0 (BeamInput.As input) = true ->
  JS.le (BeamInput.As input) As' = true ->
  pos_finite (BeamInput.fy input) = true ->
  pos_finite (BeamResults.c r') = true ->
  (nnf (BeamResults.a r) = true /\ nnf (BeamResults.a r') = true /\
   (Qval (BeamResults.a r) <= Qval (BeamResults.a r'))%Q) /\
  (nnf (BeamResults.c r) = true /\ nnf (BeamResults.c r') = true /\
   (Qval (BeamResults.c r) <= Qval (BeamResults.c r'))%Q).
Proof.
  destruct input as [b h d fc fy As numBars].
  cbv zeta. unfold calculateBeamStrength, with_As, JS.le.
  cbn [BeamInput.b BeamInput.h BeamInput.d BeamInput.fc BeamInput.fy
       BeamInput.As BeamInput.numBars BeamResults.a BeamResults.c].
  set (k := 0.85 * fc * b). set (beta := calculateBeta1 fc).
  intros H0 Hle Hfy Hc'.
  destruct (pos_finite_spec _ Hfy) as (Nfy & Pfy & Qfy).
  destruct (pos_finite_spec _ Hc') as (Nc' & Pc' & Qc').
  assert (Hfc : is_nan fc = false).
  { destruct (is_nan fc) eqn:E; [exfalso|reflexivity].
    pose proof (is_nan_div_r (As' * fy / k) beta (calculateBeta1_nan fc E)) as Hn.
    fold beta in Hn. rewrite (ltb_zero_not_nan _ Pc') in Hn. discriminate Hn. }
  destruct (calculateBeta1_range fc Hfc) as [B1 B2]. fold beta in B1, B2.
  unfold JS.le in B1, B2.
  assert (Nb : nnf beta = true) by (apply (le_nnf 0.65 beta 0.85); auto).
  assert (Qb : (0 < Qval beta)%Q).
  { apply leb_Qle in B1; [|reflexivity|assumption].
    assert (0 < Qval 0.65)%Q by (vm_compute; reflexivity). lra. }
  destruct (div_pos_finite_inv (As' * fy / k) beta (or_intror Nb) Nc' Pc')
    as [[Na' Pa'] _].
  assert (H0' : (0 <=? As') = true) by (eapply leb_trans; eassumption).
  pose proof (mul_nonneg As' fy H0' Nfy Pfy) as Hn'.
  destruct (div_pos_finite_inv (As' * fy) k (or_introl Hn') Na' Pa')
    as [[Nn' Pn'] [Nk Pk]].
  pose proof (ltb_Qlt 0 k eq_refl Nk Pk) as Qk. change (Qval 0) with 0%Q in Qk.
  pose proof (mul_finite_inv As' fy H0' Nfy Pfy Nn') as NAs'.
  assert (NAs : nnf As = true) by (apply (le_nnf 0 As As'); auto).
  pose proof (leb_Qle _ _ NAs NAs' Hle) as QAs.
  destruct (mul_mono As fy As' fy NAs Nfy NAs' Nfy) as [Nn Qn]; [|assumption|].
  { apply Qmult_le_compat_r; [assumption|lra]. }
  destruct (div_mono (As * fy) k (As' * fy) k Nn Nk Nn' Nk Qk Qk) as [Na Qa];
    [|assumption|].
  { apply Qmult_le_compat_r; [assumption|lra]. }
  destruct (div_mono (As * fy / k) beta (As' * fy / k) beta Na Nb Na' Nb Qb Qb)
    as [Nc Qc]; [|assumption|].
  { apply Qmult_le_compat_r; [assumption|lra]. }
  repeat split; assumption.
Qed.

(** X9: in the same section with a positive finite yield strength, more
    steel never gives a smaller stress-block depth [a] nor a smaller
    neutral-axis depth [c], as long as the larger [c] is a positive finite
    number. *)
Theorem X9_more_steel_depths (input : BeamInput.t) (As' : number) :
  let r := calculateBeamStrength input in
  let r' := calculateBeamStrength (with_As input As') in
  JS.le 0 (BeamInput.As input) = true ->
  JS.le (BeamInput.As input) As' = true ->
  pos_finite (BeamInput.fy input) = true ->
  pos_finite (BeamResults.c r') = true ->
  JS.le (BeamResults.a r) (BeamResults.a r') = true /\
  JS.le (BeamResults.c r) (BeamResults.c r') = true.
Proof.
  intros r r' H0 Hle Hfy Hc'.
  destruct (more_steel_depths input As' H0 Hle Hfy Hc')
    as [(Na & Na' & Qa) (Nc & Nc' & Qc)].
  split; apply Qle_leb; assumption.
Qed.

Lemma X9_more_steel_depths_witness :
  JS.le (BeamResults.c (calculateBeamStrength scenario1))
        (BeamResults.c (calculateBeamStrength (with_As scenario1 4))) = true.
Proof. apply (X9_more_steel_depths scenario1 4); reflexivity. Defined.

(** X10: in the same section with a positive finite yield strength and
    depth, more steel never gives a larger strength reduction factor, as
    long as both neutral-axis depths are positive finite numbers; the
    tensile strain may be negative or overflow. *)
Theorem X10_more_steel_phi (input : BeamInput.t) (As' : number) :
  let r := calculateBeamStrength input in
  let r' := calculateBeamStrength (with_As input As') in
  JS.le 0 (BeamInput.As input) = true ->
  JS.le (BeamInput.As input) As' = true ->
  pos_finite (BeamInput.fy input) = true ->
  pos_finite (BeamInput.d input) = true ->
  pos_finite (BeamResults.c r) = true ->
  pos_finite (BeamResults.c r') = true ->
  JS.le (BeamResults.phi r') (BeamResults.phi r) = true.
Proof.
  intros r r' H0 Hle Hfy Hd Hc Hc'.
  destruct (more_steel_depths input As' H0 Hle Hfy Hc')
    as [_ (Nc & Nc' & Qc)].
  fold r r' in Nc, Nc', Qc.
  destruct (pos_finite_spec _ Hd) as (Nd & _ & _).
  destruct (pos_finite_spec _ Hc) as (_ & _ & Pc).
  destruct (pos_finite_spec _ Hc') as (_ & _ & Pc').
  assert (Hphi : BeamResults.phi r
                 = calculatePhi (0.003 * (BeamInput.d input - BeamResults.c r)
                                 / BeamResults.c r)) by reflexivity.
  assert (Hphi' : BeamResults.phi r'
                  = calculatePhi (0.003 * (BeamInput.d input - BeamResults.c r')
                                  / BeamResults.c r')) by reflexivity.
  rewrite Hphi, Hphi'. unfold JS.le.
  set (d := BeamInput.d input) in *.
  set (c := BeamResults.c r) in *. set (c' := BeamResults.c r') in *.
  clearbody c c' d. clear Hphi Hphi' r r' Hc Hc' Hd.
  assert (Hnan : is_nan (0.003 * (d - c) / c) = false).
  { destruct (Qlt_le_dec (Qval d) (Qval c)) as [Hdc|Hcd].
    - apply (leb_not_nan _ 0.002). apply strain_below; assumption.
    - apply nnf_or_infinity_not_nan. apply strain_above; assumption. }
  destruct (Qlt_le_dec (Qval d) (Qval c')) as [Hdc'|Hcd'].
  - rewrite (calculatePhi_low _ (strain_below d c' Nd Nc' Hdc')).
    apply (calculatePhi_range _ Hnan).
  - assert (Hcd : (Qval c <= Qval d)%Q) by lra.
    destruct (strain_above d c Nd Nc Pc Hcd) as (Ns & Nt & He).
    destruct (strain_above d c' Nd Nc' Pc' Hcd') as (Ns' & Nt' & He').
    destruct He as [Einf|Ne].
    + rewrite (calculatePhi_high (0.003 * (d - c) / c)).
      * apply calculatePhi_range, nnf_or_infinity_not_nan, He'.
      * rewrite FloatAxioms.leb_spec, Einf. reflexivity.
    + apply calculatePhi_mono.
      destruct (sub_mono d c' d c Nd Nc' Nd Nc Hcd' Hcd) as (_ & _ & Qs); [lra|].
      destruct (mul_mono 0.003 (d - c') 0.003 (d - c) eq_refl Ns' eq_refl Ns)
        as [_ Qt]; [|assumption|].
      { apply Qmult_le_l; [vm_compute; reflexivity|exact Qs]. }
      destruct (div_mono (0.003 * (d - c')) c' (0.003 * (d - c)) c
                  Nt' Nc' Nt Nc Pc' Pc) as [Ne' Qe]; [|assumption|].
      { pose proof (Qval_nonneg _ Nt'). pose proof (Qval_nonneg _ Nt). nra. }
      apply Qle_leb; assumption.
Qed.

Lemma X10_more_steel_phi_witness :
  JS.le (BeamResults.phi (calculateBeamStrength (with_As scenario1 12)))
        (BeamResults.phi (calculateBeamStrength scenario1)) = true.
Proof. apply (X10_more_steel_phi scenario1 12); reflexivity. Defined.

(** ** The application *)

(** *** The steel area of the chosen bars *)

Lemma getBarArea_cases (barSize : number) :
  In (getBarArea barSize)
     [0.11; 0.20; 0.31; 0.44; 0.60; 0.79; 1.00; 1.27; 1.56; 2.25; 4.00; 0].
Proof.
  unfold getBarArea, barAreas, lookup.
  repeat match goal with
  | |- context [barSize =? ?k] => destruct (barSize =? k)
  end; simpl; tauto.
Qed.

Lemma getBarArea_nnf (barSize : number) : nnf (getBarArea barSize) = true.
Proof.
  pose proof (getBarArea_cases barSize) as H. simpl in H.
  repeat (destruct H as [<-|H]; [reflexivity|]). destruct H.
Qed.

(** X11: in the application, a bar size outside the catalog, or a bar count
    that is not positive (zero, negative or not a number), gives a result
    that is not valid. *)
Theorem X11_app_no_steel_invalid (inputs : AppInputs.t) :
  ~ In (AppInputs.barSize inputs) getAvailableBarSizes \/
  JS.gt (AppInputs.numBars inputs) 0 = false ->
  BeamResults.isValid (App.results inputs) = false.
Proof.
  intros H. unfold App.results, calculateBeamStrength.
  cbn [BeamResults.isValid BeamInput.As BeamInput.b BeamInput.d BeamInput.h
       BeamInput.fc BeamInput.fy].
  assert (HAs : JS.gt (getBarArea (AppInputs.barSize inputs)
                       * AppInputs.numBars inputs) 0 = false).
  { unfold JS.gt in *. destruct H as [H|H].
    - rewrite (getBarArea_unlisted _ H).
      pose proof (zero_or_nan_mul_l 0 (AppInputs.numBars inputs) eq_refl) as Hz.
      unfold zero_or_nan in Hz. rewrite is_zero_spec, is_nan_spec in Hz.
      rewrite FloatAxioms.ltb_spec. change (Prim2SF 0) with (S754_zero false).
      destruct (Prim2SF (0 * AppInputs.numBars inputs)) as [[]|[]| |[] m e];
        try discriminate; reflexivity.
    - apply mul_not_positive; [apply getBarArea_nnf|exact H]. }
  rewrite HAs. apply andb_false_r.
Qed.

Lemma X11_app_no_steel_invalid_witness :
  BeamResults.isValid
    (App.results (AppInputs.mk 12 24 21.5 4000 60000 12 4)) = false /\
  BeamResults.isValid
    (App.results (AppInputs.mk 12 24 21.5 4000 60000 8 (-3))) = false.
Proof.
  split.
  - apply X11_app_no_steel_invalid. left. simpl.
    repeat (intros [Heq|Hin];
            [revert Heq; apply not_eq_sym, float_neq; reflexivity|revert Hin]).
    intros [].
  - apply X11_app_no_steel_invalid. right. reflexivity.
Defined.

(** X12: with a size of the catalog and at least one bar, the total steel
    area shown by the form, which is the one the application computes with,
    is at least the area of one bar, and positive. *)
Theorem X12_total_steel_area (inputs : AppInputs.t) :
  In (AppInputs.barSize inputs) getAvailableBarSizes ->
  JS.ge (AppInputs.numBars inputs) 1 = true ->
  JS.ge (InputForm.totalAs inputs) (getBarArea (AppInputs.barSize inputs)) = true /\
  JS.gt (InputForm.totalAs inputs) 0 = true.
Proof.
  destruct inputs as [b h d fc fy barSize numBars].
  unfold InputForm.totalAs, JS.ge, JS.gt.
  cbn [AppInputs.barSize AppInputs.numBars].
  unfold getAvailableBarSizes. cbn [In]. intros Hin Hn.
  repeat (destruct Hin as [<-|Hin];
          [apply mul_ge_1; [reflexivity|reflexivity|exact Hn]|]).
  destruct Hin.
Qed.

Lemma X12_total_steel_area_witness :
  JS.gt (InputForm.totalAs App.initialInputs) 0 = true.
Proof.
  apply (X12_total_steel_area App.initialInputs).
  - simpl. tauto.
  - reflexivity.
Defined.

(** *** The states of the form *)

Lemma truthy_not_nan (v dflt : number) :
  is_nan dflt = false -> is_nan (JS.or_default (Some v) dflt) = false.
Proof.
  intros Hd. unfold JS.or_default, JS.truthy.
  destruct (is_zero v); [exact Hd|]. destruct (is_nan v) eqn:E; [exact Hd|exact E].
Qed.

Lemma truthy_not_zero (v dflt : number) :
  is_zero dflt = false -> is_zero (JS.or_default (Some v) dflt) = false.
Proof.
  intros Hd. unfold JS.or_default, JS.truthy.
  destruct (is_zero v) eqn:E; [exact Hd|]. destruct (is_nan v); [exact Hd|exact E].
Qed.

Lemma onChange_form_ok (v : AppInputs.t) (e : InputForm.event) :
  form_ok v -> form_ok (InputForm.onChange v e).
Proof.
  destruct v as [b h d fc fy barSize numBars].
  unfold form_ok. cbn [AppInputs.b AppInputs.h AppInputs.d AppInputs.fc
    AppInputs.fy AppInputs.numBars].
  intros (Hb & Hh & Hd & Hfc & Hfy & Hn & Hz).
  destruct e as [p|p|p|p|p|p|p]; cbn;
    repeat split; try assumption;
    try (apply truthy_not_nan; reflexivity);
    apply truthy_not_zero; reflexivity.
Qed.

Lemma fold_onChange_form_ok (es : list InputForm.event) (v : AppInputs.t) :
  form_ok v -> form_ok (fold_left InputForm.onChange es v).
Proof.
  revert v. induction es as [|e es IH]; intros v Hv; [exact Hv|].
  cbn [fold_left]. apply IH, onChange_form_ok, Hv.
Qed.

(** X13: whatever is typed in the form, in any order, the width, height,
    depth and the two strengths of the state are numbers, and the bar count
    is a number other than zero. *)
Theorem X13_form_state (es : list InputForm.event) : form_ok (run es).
Proof.
  apply fold_onChange_form_ok. unfold form_ok. repeat split; reflexivity.
Qed.

(** *** The result panel *)

(** X14: the failure mode printed for a result is "Tension-controlled" when
    its tensile strain is at least 0.005, "Compression-controlled" when it
    is at most 0.002, and "Transition zone" when it is not a number. *)
Theorem X14_control_label (input : BeamInput.t) :
  let r := calculateBeamStrength input in
  (JS.ge (BeamResults.epsilonT r) 0.005 = true ->
   ResultsDisplay.controlLabel (BeamResults.phi r) = "Tension-controlled"%string) /\
  (JS.le (BeamResults.epsilonT r) 0.002 = true ->
   ResultsDisplay.controlLabel (BeamResults.phi r) = "Compression-controlled"%string) /\
  (is_nan (BeamResults.epsilonT r) = true ->
   ResultsDisplay.controlLabel (BeamResults.phi r) = "Transition zone"%string).
Proof.
  cbv zeta. unfold calculateBeamStrength.
  cbn [BeamResults.epsilonT BeamResults.phi].
  set (e := EPSILON_C_MAX * _ / _). clearbody e.
  split; [|split].
  - intros H. unfold calculatePhi, EPSILON_Y_MIN, JS.ge in *. rewrite H. reflexivity.
  - intros H. unfold calculatePhi, EPSILON_Y_MIN, JS.ge, JS.le in *.
    rewrite (leb_below_not_above e 0.002 0.005 eq_refl H), H. reflexivity.
  - intros H. apply calculatePhi_nan in H.
    unfold ResultsDisplay.controlLabel, JS.ge, JS.le.
    rewrite (is_nan_leb_l _ _ H), (is_nan_leb_r _ _ H). reflexivity.
Qed.

Lemma X14_control_label_witness :
  ResultsDisplay.controlLabel (BeamResults.phi (calculateBeamStrength scenario1))
    = "Tension-controlled"%string /\
  ResultsDisplay.controlLabel (BeamResults.phi (calculateBeamStrength no_concrete))
    = "Transition zone"%string.
Proof.
  split.
  - apply (X14_control_label scenario1). reflexivity.
  - apply (X14_control_label no_concrete). reflexivity.
Defined.

(** X15: with [0 <= rhoMin <= rho <= rhoMax] and [rhoMax] positive and
    finite, the marker of the steel ratio and both ends of the permitted
    range are placed between 0 and 100 percent of the track, rounding
    included. *)
Theorem X15_ratio_track (rho rhoMin rhoMax : number) :
  JS.le 0 rhoMin = true -> JS.le rhoMin rho = true ->
  JS.le rho rhoMax = true -> is_finite rhoMax = true ->
  JS.lt 0 rhoMax = true ->
  percent (ResultsDisplay.indicatorLeft rho rhoMax) = true /\
  percent (ResultsDisplay.rangeLeft rhoMin rhoMax) = true /\
  percent (ResultsDisplay.rangeWidth rhoMin rhoMax) = true.
Proof.
  unfold JS.le, JS.lt. intros H0 H1 H2 Hf Hpos.
  assert (Hmax : nnf rhoMax = true).
  { rewrite is_finite_spec in Hf. rewrite FloatAxioms.ltb_spec in Hpos.
    unfold nnf. destruct (Prim2SF rhoMax) as [[]|[]| |[] m e]; try discriminate;
      reflexivity. }
  assert (Hup : forall x, nnf x = true -> (x <=? rhoMax) = true -> nnf x = true).
  { auto. }
  assert (Hbelow : forall lo x, nnf lo = true -> (lo <=? x) = true ->
                            (x <=? rhoMax) = true -> nnf x = true).
  { intros lo x Hlo Hlx Hxm.
    destruct (leb_nnf_cases lo x Hlo Hlx) as [E|]; [exfalso|assumption].
    rewrite FloatAxioms.leb_spec, E in Hxm. unfold nnf in Hmax.
    destruct (Prim2SF rhoMax) as [[]|[]| |[] m e]; discriminate. }
  assert (Hmin : nnf rhoMin = true).
  { apply (Hbelow 0 rhoMin eq_refl H0). eapply leb_trans; eassumption. }
  assert (Hrho : nnf rho = true) by (apply (Hbelow rhoMin rho); assumption).
  pose proof (ltb_Qlt 0 rhoMax eq_refl Hmax Hpos) as Hq.
  change (Qval 0) with 0%Q in Hq.
  pose proof (leb_Qle _ _ Hmin Hrho H1) as Q1.
  pose proof (leb_Qle _ _ Hrho Hmax H2) as Q2.
  assert (Hpc : forall x, nnf x = true -> (Qval x <= Qval rhoMax)%Q ->
                          percent (x / rhoMax * 100) = true).
  { intros x Hx Hle.
    destruct (div_upper x rhoMax 1 Hx Hmax eq_refl Hq) as [Hd Hd1].
    { assert (E : (Qval 1 == 1)%Q) by (vm_compute; reflexivity).
      rewrite E. lra. }
    destruct (mul_upper (x / rhoMax) 100 100 Hd eq_refl eq_refl) as [Hm Hm1].
    { pose proof (Qval_nonneg _ Hd) as Hd0.
      assert (H100 : (0 <= Qval 100)%Q) by (vm_compute; discriminate).
      assert (Hd1' : (Qval (x / rhoMax) <= 1)%Q).
      { assert (E : (Qval 1 == 1)%Q) by (vm_compute; reflexivity).
        rewrite <- E. exact Hd1. }
      revert Hd0 Hd1' H100. generalize (Qval (x / rhoMax)), (Qval 100).
      intros q c ? ? ?. nra. }
    unfold percent, JS.le. apply andb_true_iff. split.
    - apply Qle_leb; [reflexivity|assumption|]. apply (Qval_nonneg _ Hm).
    - apply Qle_leb; [assumption|reflexivity|assumption]. }
  unfold ResultsDisplay.indicatorLeft, ResultsDisplay.rangeLeft,
    ResultsDisplay.rangeWidth.
  split; [apply Hpc; assumption|].
  split; [apply Hpc; [assumption|lra]|].
  destruct (sub_upper rhoMax rhoMin rhoMax Hmax Hmin Hmax) as [Hs Hs1].
  { lra. } { pose proof (Qval_nonneg _ Hmin). lra. }
  apply Hpc; assumption.
Qed.

Lemma X15_ratio_track_witness :
  percent (ResultsDisplay.indicatorLeft
             (BeamResults.rho (calculateBeamStrength scenario1))
             (BeamResults.rhoMax (calculateBeamStrength scenario1))) = true.
Proof.
  apply (X15_ratio_track _ (BeamResults.rhoMin (calculateBeamStrength scenario1)));
    reflexivity.
Defined.

(** *** The drawing of the section *)

(** The scale of the drawing and the two scaled sides, for a section with
    positive finite sides whose scale did not overflow. *)
Lemma scale_spec (b h : number) :
  pos_finite b = true -> pos_finite h = true ->
  is_finite (BeamVisualization.scale b h) = true ->
  let s := BeamVisualization.scale b h in
  let m := JS.Math_max h b in
  (m = h \/ m = b) /\ nnf s = true /\
  (Qval h <= Qval m)%Q /\ (Qval b <= Qval m)%Q /\
  (Qval s * Qval m <= Qval 200.00000000000006)%Q /\
  (Qval 199.99999999999994 <= Qval s * Qval m)%Q.
Proof.
  intros Hb Hh Hf s m.
  destruct (pos_finite_spec _ Hb) as (Nb & Pb & Qb).
  destruct (pos_finite_spec _ Hh) as (Nh & Ph & Qh).
  destruct (Math_max_is_max h b (nnf_not_nan h Nh) (nnf_not_nan b Nb))
    as (Hm & L1 & L2).
  fold m in Hm, L1, L2. unfold JS.le in L1, L2.
  assert (Nm : nnf m = true) by (destruct Hm as [-> | ->]; assumption).
  assert (Qm : (0 < Qval m)%Q) by (destruct Hm as [-> | ->]; assumption).
  apply leb_Qle in L1, L2; try assumption.
  assert (Ns : nnf s = true).
  { destruct (div_nnf_cases 200 m eq_refl Nm Qm) as [E|]; [exfalso|assumption].
    unfold s, BeamVisualization.scale in Hf. fold m in Hf.
    rewrite is_finite_spec, E in Hf. discriminate Hf. }
  assert (Hnorm : (F2Q 1 (-1021) * Qval m <= Qval 200)%Q).
  { pose proof (Qval_lt_overflow m) as Ho.
    assert (E1 : (F2Q 1 (-1021) * F2Q 1 1024 == 8)%Q).
    { rewrite <- F2Q_mul. vm_compute. reflexivity. }
    assert (E2 : (Qval 200 == 200)%Q) by (vm_compute; reflexivity).
    pose proof (F2Q_pos 1 (-1021) ltac:(lia)) as Hp.
    rewrite E2. apply Qle_trans with (F2Q 1 (-1021) * F2Q 1 1024)%Q; [|lra].
    apply Qmult_le_l; [assumption|lra]. }
  destruct (div_relative 200 m eq_refl Nm Qm Hnorm Ns) as [Hu Hl].
  change (200 / m) with s in Hu, Hl.
  assert (E2 : (Qval 200 == 200)%Q) by (vm_compute; reflexivity).
  assert (EH : (Qval 200.00000000000006 == 200 + (1 # 17592186044416))%Q)
    by (apply Qeq_bool_iff; vm_compute; reflexivity).
  assert (EL : (Qval 199.99999999999994 == 200 - (1 # 17592186044416))%Q)
    by (apply Qeq_bool_iff; vm_compute; reflexivity).
  change (inject_Z (2 ^ 52)) with (4503599627370496 # 1) in Hu, Hl.
  change (inject_Z (2 ^ 52 + 1)) with (4503599627370497 # 1) in Hu.
  change (inject_Z (2 ^ 52 - 1)) with (4503599627370495 # 1) in Hl.
  rewrite E2 in Hu, Hl. rewrite EH, EL.
  repeat split; try assumption.
  - revert Hu. generalize (Qval s * Qval m)%Q. intros p Hu. lra.
  - revert Hl. generalize (Qval s * Qval m)%Q. intros p Hl. lra.
Qed.

(** X16: for positive finite sides and a scale that did not overflow, the
    two sides of the drawn section are at most 200 pixels, up to the
    rounding of the two operations ([200 + 2^-44]), and the one that
    [Math.max] picked is at least 200 pixels up to the same
    ([200 - 2^-44]). *)
Theorem X16_drawing_fits (b h : number) :
  pos_finite b = true -> pos_finite h = true ->
  is_finite (BeamVisualization.scale b h) = true ->
  JS.le (BeamVisualization.scaledHeight b h) 200.00000000000006 = true /\
  JS.le (BeamVisualization.scaledWidth b h) 200.00000000000006 = true /\
  (JS.le 199.99999999999994 (BeamVisualization.scaledHeight b h) = true \/
   JS.le 199.99999999999994 (BeamVisualization.scaledWidth b h) = true).
Proof.
  intros Hb Hh Hf.
  destruct (scale_spec b h Hb Hh Hf) as (Hm & Ns & Qhm & Qbm & Hu & Hl).
  destruct (pos_finite_spec _ Hb) as (Nb & _ & Qb).
  destruct (pos_finite_spec _ Hh) as (Nh & _ & Qh).
  unfold BeamVisualization.scaledHeight, BeamVisualization.scaledWidth, JS.le.
  set (s := BeamVisualization.scale b h) in *.
  set (m := JS.Math_max h b) in *. clearbody s m.
  pose proof (Qval_nonneg s Ns) as Qs.
  destruct (mul_upper h s 200.00000000000006 Nh Ns eq_refl) as [N1 U1]; [nra|].
  destruct (mul_upper b s 200.00000000000006 Nb Ns eq_refl) as [N2 U2]; [nra|].
  split; [apply Qle_leb; auto|]. split; [apply Qle_leb; auto|].
  destruct Hm as [-> | ->]; [left|right].
  - destruct (mul_lower h s 199.99999999999994 Nh Ns eq_refl) as [E|[_ L]].
    + rewrite Qmult_comm. exact Hl.
    + unfold nnf in N1. rewrite E in N1. discriminate N1.
    + apply Qle_leb; auto.
  - destruct (mul_lower b s 199.99999999999994 Nb Ns eq_refl) as [E|[_ L]].
    + rewrite Qmult_comm. exact Hl.
    + unfold nnf in N2. rewrite E in N2. discriminate N2.
    + apply Qle_leb; auto.
Qed.

Lemma X16_drawing_fits_witness :
  JS.le (BeamVisualization.scaledHeight 12 24) 200.00000000000006 = true.
Proof. apply (X16_drawing_fits 12 24); reflexivity. Defined.

(** X17: with [0 <= a <= d <= h], the stress block and the steel are drawn
    in that order inside the outline: after scaling,
    [0 <= scaledA <= scaledD <= scaledHeight]. *)
Theorem X17_drawing_order (b h d a : number) :
  pos_finite b = true -> pos_finite h = true ->
  is_finite (BeamVisualization.scale b h) = true ->
  JS.le 0 a = true -> JS.le a d = true -> JS.le d h = true ->
  JS.le 0 (BeamVisualization.scaledA b h a) = true /\
  JS.le (BeamVisualization.scaledA b h a) (BeamVisualization.scaledD b h d) = true /\
  JS.le (BeamVisualization.scaledD b h d) (BeamVisualization.scaledHeight b h) = true.
Proof.
  intros Hb Hh Hf H0 Had Hdh.
  destruct (scale_spec b h Hb Hh Hf) as (Hm & Ns & Qhm & Qbm & Hu & Hl).
  destruct (pos_finite_spec _ Hh) as (Nh & _ & Qh).
  unfold BeamVisualization.scaledHeight, BeamVisualization.scaledD,
    BeamVisualization.scaledA, JS.le in *.
  set (s := BeamVisualization.scale b h) in *.
  set (m := JS.Math_max h b) in *. clearbody s m.
  pose proof (Qval_nonneg s Ns) as Qs.
  assert (Nd : nnf d = true).
  { apply (le_nnf 0 d h); auto. eapply leb_trans; eassumption. }
  assert (Na : nnf a = true) by (apply (le_nnf 0 a d); auto).
  apply leb_Qle in Had, Hdh; try assumption.
  destruct (mul_upper h s 200.00000000000006 Nh Ns eq_refl) as [N1 _]; [nra|].
  destruct (mul_mono d s h s Nd Ns Nh Ns) as [N2 M2]; [|assumption|].
  { apply Qmult_le_compat_r; assumption. }
  destruct (mul_mono a s d s Na Ns Nd Ns) as [N3 M3]; [|assumption|].
  { apply Qmult_le_compat_r; assumption. }
  split; [|split]; apply Qle_leb; try assumption; try reflexivity.
  apply (Qval_nonneg _ N3).
Qed.

Lemma X17_drawing_order_witness :
  JS.le (BeamVisualization.scaledD 12 24 21.5)
        (BeamVisualization.scaledHeight 12 24) = true.
Proof. apply (X17_drawing_order 12 24 21.5 4.647058823529412); reflexivity. Defined.
